(** * A media-retrieval proxy: job store, delivery state machine, path recovery

    Shallow embedding of [main.py].  The program keeps its jobs in a Python
    dictionary guarded by one lock, talks to the file system, to the
    extraction engine (yt-dlp) and to a cloud relay (Google Drive), and is
    driven by HTTP requests that run concurrently with background workers.

    - data: a job is a record, the job table a [gmap string Job], the file
      system a [gmap path fnode];
    - effects: every source function is a program of type [prog R], a tree
      of atomic actions ([with self._lock:] blocks, file-system calls, calls
      of the external collaborators) ending in a return value or a raised
      exception;
    - semantics: [run] executes one program to completion, [schedule]
      interleaves the programs of several requests action by action;
    - properties: what one call returns and leaves behind is proved on
      [run]; what holds in every reachable state of the server is proved on
      [schedule], from what each program may do to the job table ([within],
      [acts], [obeys]).

    Outside the embedding: the desktop and command-line front ends, the
    loading of credentials and the inside of the Drive client (their
    results are answers of the environment), and the absolute URLs that
    [_format_job] adds to a response; of the helpers behind those URLs only
    [_first_forwarded] is embedded.  [Path.exists] is taken to answer for
    every path; [is_file] and [is_dir], which [resolve_ffmpeg_location]
    calls on a path of the request, pass on what [os.stat] raises. *)

From stdpp Require Import base option gmap strings list.
From Stdlib Require Import ZArith Ascii String.

Open Scope string_scope.
Open Scope Z_scope.

(** ** Paths (pathlib) *)

(** A [Path] is the list of its components; [str] joins them again.  The
    round trip [Path(str(p))] is the identity on such paths, so the job
    table stores paths where the source stores [str(path)]. *)
Abbreviation path := (list string).

Definition name (p : path) : string := List.last p "".

Definition parent (p : path) : path := List.removelast p.

Fixpoint path_str (p : path) : string :=
  match p with
  | [] => "."
  | [c] => c
  | c :: p' => c +:+ "/" +:+ path_str p'
  end.

(** ** The fragment pattern [\.f\d+(\.\w+)$]

    A name is the UTF-8 text of a Python string.  On the ASCII range [\d]
    is [0-9] and [\w] is [A-Za-z0-9_]; beyond it Python decides by the
    Unicode tables.  A character class is therefore given by its width
    function: [cls s] is the number of bytes of the character at the head
    of [s] when that character belongs to the class, and 0 when it does
    not. *)
Definition is_digit (c : ascii) : bool :=
  let n := nat_of_ascii c in (48 <=? n)%nat && (n <=? 57)%nat.

Definition is_word (c : ascii) : bool :=
  let n := nat_of_ascii c in
  is_digit c
  || ((65 <=? n)%nat && (n <=? 90)%nat)
  || ((97 <=? n)%nat && (n <=? 122)%nat)
  || (n =? 95)%nat.

Definition is_ascii (c : ascii) : bool := (nat_of_ascii c <? 128)%nat.

(** The class of the ASCII characters that satisfy [p]. *)
Definition ascii_class (p : ascii -> bool) (s : string) : nat :=
  match s with
  | String c _ => if p c then 1%nat else 0%nat
  | EmptyString => 0%nat
  end.

(** [skip p s] drops the longest prefix of [s] whose characters satisfy [p]
    (a greedy [p+] or [p*] on single bytes). *)
Fixpoint skip (p : ascii -> bool) (s : string) : string :=
  match s with
  | String c s' => if p c then skip p s' else s
  | EmptyString => EmptyString
  end.

(** All characters of [s] satisfy [p]. *)
Fixpoint all_chars (p : ascii -> bool) (s : string) : bool :=
  match s with
  | EmptyString => true
  | String c s' => p c && all_chars p s'
  end.

Fixpoint dots (s : string) : nat :=
  match s with
  | EmptyString => 0%nat
  | String c s' => ((if Ascii.eqb c "." then 1 else 0) + dots s')%nat
  end.

(** [behind n s]: [s] without its first [n] bytes. *)
Fixpoint behind (n : nat) (s : string) : string :=
  match n, s with
  | S n', String _ s' => behind n' s'
  | _, _ => s
  end.

(** [skip_class cls fuel s] drops the longest prefix of [s] made of
    characters of the class (a greedy [+] or [*]); it looks at no more than
    [fuel] characters. *)
Fixpoint skip_class (cls : string -> nat) (fuel : nat) (s : string) : string :=
  match fuel with
  | O => s
  | S fuel' =>
      match cls s with
      | O => s
      | n => skip_class cls fuel' (behind n s)
      end
  end.

(** [$] matches at the end of the string and just before a final newline. *)
Definition at_end (s : string) : bool :=
  match s with
  | EmptyString => true
  | String c EmptyString => (nat_of_ascii c =? 10)%nat
  | _ => false
  end.

(** [frag_match digit word s]: does the pattern match at the first
    character of [s]?  The answer is group 1 followed by what the match
    leaves of [s], that is the text that replaces [s] in
    [re.sub(pattern, r"\1", s)]. *)
Definition frag_match (digit word : string -> nat) (s : string) : option string :=
  match s with
  | String c (String c' r) =>
      if Ascii.eqb c "." && Ascii.eqb c' "f" then
        let r1 := skip_class digit (String.length r) r in
        if (String.length r1 <? String.length r)%nat then
          match r1 with
          | String c1 r2 =>
              let r3 := skip_class word (String.length r2) r2 in
              if Ascii.eqb c1 "." && (String.length r3 <? String.length r2)%nat
                 && at_end r3
              then Some (String "." r2)
              else None
          | EmptyString => None
          end
        else None
      else None
  | _ => None
  end.

(** [re.sub(r"\.f\d+(\.\w+)$", r"\1", name)]: the leftmost match is
    replaced; after it nothing is left to match. *)
Fixpoint strip_fragment (digit word : string -> nat) (s : string) : string :=
  match frag_match digit word s with
  | Some r => r
  | None =>
      match s with
      | EmptyString => EmptyString
      | String c s' => String c (strip_fragment digit word s')
      end
  end.

(** [PurePath.suffix], [PurePath.stem]: split at the last dot unless it is
    the first or the last character of the name. *)
Fixpoint rfind_dot (s : string) : option nat :=
  match s with
  | EmptyString => None
  | String c s' =>
      match rfind_dot s' with
      | Some i => Some (S i)
      | None => if Ascii.eqb c "." then Some 0%nat else None
      end
  end.

Definition suffix (p : path) : string :=
  let n := name p in
  match rfind_dot n with
  | Some i =>
      if (0 <? i)%nat && (i <? String.length n - 1)%nat
      then String.substring i (String.length n - i) n else ""
  | None => ""
  end.

Definition stem (p : path) : string :=
  let n := name p in
  match rfind_dot n with
  | Some i =>
      if (0 <? i)%nat && (i <? String.length n - 1)%nat
      then String.substring 0 i n else n
  | None => n
  end.

(** [s.split('.f')[0]] *)
Fixpoint before_dot_f (s : string) : string :=
  match s with
  | String "." (String "f" _) => EmptyString
  | String c s' => String c (before_dot_f s')
  | EmptyString => EmptyString
  end.

(** [s.lstrip('.')] *)
Definition lstrip_dots (s : string) : string := skip (Ascii.eqb ".") s.

(** ** Exceptions *)

Inductive exn :=
| KeyError (key : string)
| ValueError (msg : string)
| FileNotFoundError (msg : string)
| OSError (msg : string)
| RuntimeError (msg : string)
| HTTPException (status_code : Z) (detail : string)
| LibraryError (msg : string).   (* anything raised inside yt-dlp or the Drive client *)

(** [str(exc)] *)
Definition exn_str (e : exn) : string :=
  match e with
  | KeyError k => "'" +:+ k +:+ "'"
  | ValueError m | FileNotFoundError m | OSError m | RuntimeError m | LibraryError m => m
  | HTTPException _ d => d
  end.

(** Python truthiness of an optional string: [None] and [""] are false. *)
Definition truthy (o : option string) : option string :=
  match o with
  | Some EmptyString | None => None
  | Some s => Some s
  end.

(** ** Format presets *)

Record preset := { label : string; format : string; description : string }.

Definition FORMAT_PRESETS : list (string * preset) :=
  [ ("auto",
     {| label := "Best (single file)"; format := "best";
        description := "เลือกไฟล์คุณภาพดีที่สุดแบบไฟล์เดียว (ไม่ต้องใช้ FFmpeg)" |});
    ("merge_best",
     {| label := "Best video + audio (ต้องมี FFmpeg)"; format := "bv*+ba/best";
        description := "เลือกวิดีโอและเสียงที่ดีที่สุดแล้วรวมไฟล์ (ต้องติดตั้ง FFmpeg)" |});
    ("video_only",
     {| label := "Video only"; format := "bv*";
        description := "ดาวน์โหลดเฉพาะวิดีโอ (ไม่มีเสียง)" |});
    ("audio_only",
     {| label := "Audio only"; format := "ba/best";
        description := "ดาวน์โหลดเฉพาะเสียง (เลือกคุณภาพดีที่สุด)" |}) ].

(** [FORMAT_PRESETS.get(key)] *)
Fixpoint presets_get (key : string) (l : list (string * preset)) : option preset :=
  match l with
  | [] => None
  | (k, v) :: l' => if String.eqb k key then Some v else presets_get key l'
  end.

Definition resolve_format_choice (format_choice : string) : string :=
  match presets_get format_choice FORMAT_PRESETS with
  | Some preset => format preset
  | None =>
      match format_choice with
      | EmptyString =>
          match presets_get "auto" FORMAT_PRESETS with
          | Some preset => format preset
          | None => ""
          end
      | _ => format_choice
      end
  end.

(** [list(FORMAT_PRESETS.keys())] *)
Definition valid_formats : list string := List.map fst FORMAT_PRESETS.

(** ** Jobs *)

Inductive Status :=
| queued | downloading | completed | failed | delivering | downloaded | delivered.

Global Instance Status_eq_dec : EqDecision Status.
Proof. solve_decision. Defined.

Definition status_str (s : Status) : string :=
  match s with
  | queued => "queued"
  | downloading => "downloading"
  | completed => "completed"
  | failed => "failed"
  | delivering => "delivering"
  | downloaded => "downloaded"
  | delivered => "delivered"
  end.

Record Job := {
  j_id : string;
  j_url : string;
  j_output_path : string;
  j_format : string;
  j_ffmpeg_location : option string;
  j_status : Status;
  j_output_file : option path;
  j_download_url : option string;
  j_remote_file_id : option string;
  j_remote_file_url : option string;
  j_remote_file_view_url : option string;
  j_error : option string;
  j_created_at : Z;
  j_updated_at : Z
}.

(** One keyword argument of [_update_job(job_id, **updates)], or one
    assignment [job[key] = value]. *)
Inductive field_update :=
| status_ (v : Status)
| output_file_ (v : option path)
| download_url_ (v : option string)
| remote_file_id_ (v : option string)
| remote_file_url_ (v : option string)
| remote_file_view_url_ (v : option string)
| error_ (v : option string)
| updated_at_ (v : Z).

Definition assign (job : Job) (u : field_update) : Job :=
  let '{| j_id := i; j_url := u0; j_output_path := op; j_format := f;
          j_ffmpeg_location := ff; j_status := s; j_output_file := o;
          j_download_url := d; j_remote_file_id := r1; j_remote_file_url := r2;
          j_remote_file_view_url := r3; j_error := e; j_created_at := c;
          j_updated_at := t |} := job in
  match u with
  | status_ v => Build_Job i u0 op f ff v o d r1 r2 r3 e c t
  | output_file_ v => Build_Job i u0 op f ff s v d r1 r2 r3 e c t
  | download_url_ v => Build_Job i u0 op f ff s o v r1 r2 r3 e c t
  | remote_file_id_ v => Build_Job i u0 op f ff s o d v r2 r3 e c t
  | remote_file_url_ v => Build_Job i u0 op f ff s o d r1 v r3 e c t
  | remote_file_view_url_ v => Build_Job i u0 op f ff s o d r1 r2 v e c t
  | error_ v => Build_Job i u0 op f ff s o d r1 r2 r3 v c t
  | updated_at_ v => Build_Job i u0 op f ff s o d r1 r2 r3 e c v
  end.

(** [job.update(updates)] *)
Definition update (job : Job) (updates : list field_update) : Job :=
  fold_left assign updates job.

(** ** The file system *)

Inductive fnode :=
| File (data : string)
| Dir.

(** ** The world the program runs in *)

Record world := {
  jobs : gmap string Job;       (* DownloadManager._jobs *)
  fs : gmap path fnode;         (* what exists on disk *)
  now : Z;                      (* what time.time() returns *)
  issued : gset string          (* the identifiers uuid4 has handed out *)
}.

Definition with_jobs (w : world) (js : gmap string Job) : world :=
  {| jobs := js; fs := fs w; now := now w; issued := issued w |}.

Definition issue (hex : string) (w : world) : world :=
  {| jobs := jobs w; fs := fs w; now := now w; issued := {[hex]} ∪ issued w |}.

Definition with_fs (w : world) (f : gmap path fnode) : world :=
  {| jobs := jobs w; fs := f; now := now w; issued := issued w |}.

(** ** What the external collaborators hand back *)

(** The info structure of yt-dlp, as far as [_pick_path_from_info] reads it.
    A path field is [None] when the key is absent or its value is falsy; a
    [req_dict] is a dictionary with at least one key, a [req_other] any
    other true value. *)
Record dl_item := { filepath : option path; _filename : option path }.

Inductive requested :=
| req_list (items : list (option dl_item))
| req_dict (item : dl_item)
| req_other.

Record entry := {
  e_requested_downloads : option requested;
  e_requested_formats : option requested;
  e_filepath : option path;
  e__filename : option path
}.

Record info := {
  requested_downloads : option requested;
  requested_formats : option requested;
  i_filepath : option path;
  i__filename : option path;
  entries : list (option entry)
}.

Record ydl_opts := {
  opt_outtmpl : string;
  opt_format : string;
  opt_ffmpeg_location : option string
}.

Inductive drive_client :=
| GoogleDriveClient (folder_id : option string) (share_public : bool).

(** The dictionary [upload_file] returns. *)
Record remote_details := { file_id : string; download_url : string; view_url : string }.

(** One answer of the environment to one external call.  [uuid4] never
    returns the same identifier twice. *)
Inductive ext :=
| uuid4_returns (hex : string)
| glob_returns (r : exn + list path)
| extract_info_returns (written : list (path * string)) (hooks : list (option path))
    (r : exn + option info)
| drive_client_returns (r : exn + option drive_client)
| upload_returns (r : exn + remote_details).

(** ** Atomic actions *)

Inductive action : Type -> Type :=
(* one [with self._lock:] block; it may call [time.time()] *)
| Locked {X : Type} (body : Z -> gmap string Job -> X * gmap string Job) : action X
| Clock : action Z
| Uuid4 : action string
(* pathlib *)
| PathExists (p : path) : action bool
| PathIsFile (p : path) : action bool
| PathIsDir (p : path) : action bool
| Mkdir (p : path) : action (option exn)
| Unlink (p : path) : action (option exn)
| StatSize (p : path) : action (exn + nat)
| ReadBytes (p : path) : action (exn + string)
| Glob (dir : path) (pattern : string) : action (exn + list path)
(* yt-dlp and Google Drive *)
| ExtractInfo (url : string) (opts : ydl_opts) : action (exn + (option path * option info))
| GetGoogleDriveClient : action (exn + option drive_client)
| UploadFile (c : drive_client) (p : path) (mime_type : option string) : action (exn + remote_details)
| DeleteFile (c : drive_client) (file_id : string) : action unit.

(** The actions whose result the environment chooses. *)
Definition external {X} (a : action X) : bool :=
  match a with
  | Uuid4 | Glob _ _ | ExtractInfo _ _ | GetGoogleDriveClient | UploadFile _ _ _ => true
  | _ => false
  end.

(** [mkdir(parents=True, exist_ok=True)] *)
Fixpoint ancestors (p : path) : list path :=
  match p with
  | [] => []
  | c :: p' => [c] :: List.map (cons c) (ancestors p')
  end.

Definition is_file_node (o : option fnode) : bool :=
  match o with Some (File _) => true | _ => false end.

Definition is_dir_node (o : option fnode) : bool :=
  match o with Some Dir => true | _ => false end.

Definition mkdir_parents (f : gmap path fnode) (p : path) : option exn * gmap path fnode :=
  if existsb (fun q => is_file_node (f !! q)) (ancestors p)
  then (Some (OSError ("File exists: " +:+ path_str p)), f)
  else (None, fold_left (fun f q => <[q := Dir]> f) (ancestors p) f).

(** The last file name a progress hook reported ([_hook]). *)
Definition last_filename (hooks : list (option path)) : option path :=
  fold_left (fun acc h => match h with Some p => Some p | None => acc end) hooks None.

(** [exec a e w]: the result of [a] in world [w] and the world after it;
    [e] is the environment's answer when [a] is external.  [None] when the
    answer does not fit the call.  The size of a directory is what the file
    system says; the model says 0. *)
Definition exec {X} (a : action X) (e : option ext) (w : world) : option (X * world) :=
  match a in action X return option (X * world) with
  | Locked body =>
      let '(x, js) := body (now w) (jobs w) in Some (x, with_jobs w js)
  | Clock => Some (now w, w)
  | Uuid4 =>
      match e with
      | Some (uuid4_returns hex) =>
          if bool_decide (hex ∈ issued w) then None
          else Some (hex, issue hex w)
      | _ => None
      end
  | PathExists p => Some (bool_decide (is_Some (fs w !! p)), w)
  | PathIsFile p => Some (is_file_node (fs w !! p), w)
  | PathIsDir p => Some (is_dir_node (fs w !! p), w)
  | Mkdir p => let '(r, f) := mkdir_parents (fs w) p in Some (r, with_fs w f)
  | Unlink p =>
      match fs w !! p with
      | Some (File _) => Some (None, with_fs w (delete p (fs w)))
      | Some Dir => Some (Some (OSError ("Is a directory: " +:+ path_str p)), w)
      | None => Some (Some (FileNotFoundError ("No such file or directory: " +:+ path_str p)), w)
      end
  | StatSize p =>
      match fs w !! p with
      | Some (File data) => Some (inr (String.length data), w)
      | Some Dir => Some (inr 0%nat, w)
      | None => Some (inl (FileNotFoundError ("No such file or directory: " +:+ path_str p)), w)
      end
  | ReadBytes p =>
      match fs w !! p with
      | Some (File data) => Some (inr data, w)
      | Some Dir => Some (inl (OSError ("Is a directory: " +:+ path_str p)), w)
      | None => Some (inl (FileNotFoundError ("No such file or directory: " +:+ path_str p)), w)
      end
  | Glob _ _ =>
      match e with Some (glob_returns r) => Some (r, w) | _ => None end
  | ExtractInfo _ _ =>
      match e with
      | Some (extract_info_returns written hooks r) =>
          let f := fold_left (fun f '(p, data) => <[p := File data]> f) written (fs w) in
          Some (match r with
                | inl exc => inl exc
                | inr i => inr (last_filename hooks, i)
                end, with_fs w f)
      | _ => None
      end
  | GetGoogleDriveClient =>
      match e with Some (drive_client_returns r) => Some (r, w) | _ => None end
  | UploadFile _ _ _ =>
      match e with Some (upload_returns r) => Some (r, w) | _ => None end
  | DeleteFile _ _ => Some (tt, w)
  end.

(** ** Programs *)

Inductive prog (R : Type) : Type :=
| Ret (r : R)
| Raise (exc : exn)
| Do {X : Type} (a : action X) (k : X -> prog R).

Arguments Ret {R} r.
Arguments Raise {R} exc.
Arguments Do {R X} a k.

Fixpoint bind {A B : Type} (p : prog A) (f : A -> prog B) : prog B :=
  match p with
  | Ret r => f r
  | Raise exc => Raise exc
  | Do a k => Do a (fun x => bind (k x) f)
  end.

Global Instance prog_ret : MRet prog := fun _ r => Ret r.
Global Instance prog_bind : MBind prog := fun _ _ f p => bind p f.

(** [try: p except Exception as exc: handler exc] *)
Fixpoint try_except {A : Type} (p : prog A) (handler : exn -> prog A) : prog A :=
  match p with
  | Ret r => Ret r
  | Raise exc => handler exc
  | Do a k => Do a (fun x => try_except (k x) handler)
  end.

Definition perform {X} (a : action X) : prog X := Do a Ret.

(** A call that raises: the action reports the exception, the program raises it. *)
Definition raising {X} (a : action (exn + X)) : prog X :=
  Do a (fun r => match r with inl exc => Raise exc | inr x => Ret x end).

(** [run p w env]: [p] executed alone from world [w]; [env] lists the
    environment's answers to the external calls in the order they are made.
    The result is what [p] returned ([inr]) or raised ([inl]). *)
Fixpoint run {R} (p : prog R) (w : world) (env : list ext)
  : option ((exn + R) * world * list ext) :=
  match p with
  | Ret r => Some (inr r, w, env)
  | Raise exc => Some (inl exc, w, env)
  | Do a k =>
      if external a then
        match env with
        | e :: env' =>
            match exec a (Some e) w with
            | Some (x, w') => run (k x) w' env'
            | None => None
            end
        | [] => None
        end
      else
        match exec a None w with
        | Some (x, w') => run (k x) w' env
        | None => None
        end
  end.

(** ** Library functions the program calls

    Functions of the Python library whose results depend on the
    installation.  [expanduser] raises [RuntimeError] when the home
    directory of a [~user] cannot be determined, [resolve] raises on a path
    the system cannot take (an embedded NUL, a loop of links), and [os.stat]
    refuses some paths with an [OSError] other than "not found" (a name that
    is too long): [stat_error].  [digit_char] and [word_char] are the
    classes [\d] and [\w] of [re]: on an ASCII character they are [is_digit]
    and [is_word], and no character of either class holds the byte of a
    dot. *)
Class PyLib := {
  Path : string -> path;
  expanduser : path -> exn + path;
  resolve : path -> exn + path;
  stat_error : path -> option exn;
  digit_char : string -> nat;
  word_char : string -> nat;
  digit_char_ascii : forall c s,
    is_ascii c = true -> digit_char (String c s) = ascii_class is_digit (String c s);
  word_char_ascii : forall c s,
    is_ascii c = true -> word_char (String c s) = ascii_class is_word (String c s);
  digit_char_bytes : forall s, dots (String.substring 0 (digit_char s) s) = 0%nat;
  word_char_bytes : forall s, dots (String.substring 0 (word_char s) s) = 0%nat;
  guess_type : string -> option string;
  b64encode : string -> string;
  DEFAULT_FFMPEG_DIR : path
}.

(** A call of the library that returns or raises. *)
Definition lift {A} (r : exn + A) : prog A :=
  match r with
  | inl exc => Raise exc
  | inr x => Ret x
  end.

(** [a or b] on optional values *)
Definition or_else {A} (a b : option A) : option A :=
  match a with Some x => Some x | None => b end.

Section Program.
Context {lib : PyLib}.

(** [Path.is_file], [Path.is_dir]: a missing path is no error, a path that
    [os.stat] refuses is. *)
Definition is_file (p : path) : prog bool :=
  match stat_error p with
  | Some exc => Raise exc
  | None => perform (PathIsFile p)
  end.

Definition is_dir (p : path) : prog bool :=
  match stat_error p with
  | Some exc => Raise exc
  | None => perform (PathIsDir p)
  end.

(** *** resolve_ffmpeg_location *)
Definition resolve_ffmpeg_location (custom_path : option string) : prog (option string) :=
  match truthy custom_path with
  | Some custom =>
      expanded ← lift (expanduser (Path custom));
      candidate ← lift (resolve expanded);
      file ← is_file candidate;
      if file : bool then Ret (Some (path_str (parent candidate)))
      else
        dir ← is_dir candidate;
        if dir : bool then Ret (Some (path_str candidate))
        else Raise (FileNotFoundError ("ไม่พบตำแหน่ง FFmpeg ที่ระบุ: " +:+ path_str candidate))
  | None =>
      found ← perform (PathExists DEFAULT_FFMPEG_DIR);
      if found : bool then
        resolved ← lift (resolve DEFAULT_FFMPEG_DIR);
        Ret (Some (path_str resolved))
      else Ret None
  end.

(** *** _pick_path_from_info *)
Definition item_path (use_filename : bool) (item : option dl_item) : list path :=
  match item with
  | None => []
  | Some it =>
      match or_else (filepath it) (if use_filename then _filename it else None) with
      | Some p => [p]
      | None => []
      end
  end.

(** [a or b] where [a] may be an empty list *)
Definition req_or (a b : option requested) : option requested :=
  match a with
  | Some (req_list []) | None => b
  | _ => a
  end.

Definition requested_paths (use_filename : bool) (r : option requested) : list path :=
  match r with
  | Some (req_list items) => flat_map (item_path use_filename) items
  | Some (req_dict it) => item_path use_filename (Some it)
  | _ => []
  end.

Definition entry_paths (e : option entry) : list path :=
  match e with
  | None => []
  | Some e =>
      (requested_paths false (req_or (e_requested_downloads e) (e_requested_formats e))
       ++ match or_else (e_filepath e) (e__filename e) with
          | Some p => [p]
          | None => []
          end)%list
  end.

Fixpoint first_existing (candidates : list path) : prog (option path) :=
  match candidates with
  | [] => Ret None
  | candidate :: rest =>
      found ← perform (PathExists candidate);
      if found : bool then Ret (Some candidate) else first_existing rest
  end.

Definition _pick_path_from_info (i : option info) : prog (option path) :=
  match i with
  | None => Ret None
  | Some i =>
      let candidates :=
        (requested_paths true (req_or (requested_downloads i) (requested_formats i))
         ++ match or_else (i_filepath i) (i__filename i) with
            | Some p => [p]
            | None => []
            end
         ++ flat_map entry_paths (entries i))%list in
      first_existing candidates
  end.

(** *** _resolve_final_file *)

(** [PurePath.with_name]: a path without a name has none to replace.  The
    new name is always acceptable here: it is the old one, or the old one
    with the text between two of its dots removed. *)
Definition with_name (p : path) (new_name : string) : prog path :=
  match name p with
  | EmptyString => Raise (ValueError (path_str p +:+ " has an empty name"))
  | _ => Ret (parent p ++ [new_name])%list
  end.

Definition _resolve_final_file (file_path : path) : prog path :=
  found ← perform (PathExists file_path);
  if found : bool then Ret file_path
  else
    let stripped_name := strip_fragment digit_char word_char (name file_path) in
    alt_path ← with_name file_path stripped_name;
    found ← perform (PathExists alt_path);
    if found : bool then Ret alt_path
    else
      candidates ← raising (Glob (parent file_path)
                      (before_dot_f (stem file_path) +:+ "*." +:+ lstrip_dots (suffix file_path)));
      r ← first_existing candidates;
      match r with
      | Some candidate => Ret candidate
      | None => Raise (FileNotFoundError ("ไม่พบไฟล์ที่ดาวน์โหลดสำเร็จ: " +:+ path_str file_path))
      end.

(** *** download_video *)
Definition download_video (url output_path format_choice : string)
    (ffmpeg_location : option string) : prog path :=
  expanded ← lift (expanduser (Path (default "." (truthy (Some output_path)))));
  output_dir ← lift (resolve expanded);
  r ← perform (Mkdir output_dir);
  match r with
  | Some exc => Raise exc
  | None =>
      let fmt := resolve_format_choice format_choice in
      resolved_ffmpeg ← resolve_ffmpeg_location ffmpeg_location;
      let opts := {| opt_outtmpl := path_str (output_dir ++ ["%(title)s.%(ext)s"])%list;
                     opt_format := fmt;
                     opt_ffmpeg_location := truthy resolved_ffmpeg |} in
      '(hooked, i) ← raising (ExtractInfo url opts);
      final_path ← match hooked with
                   | Some p => Ret (Some p)
                   | None => _pick_path_from_info i
                   end;
      match final_path with
      | None => Raise (RuntimeError "ไม่พบไฟล์ที่ดาวน์โหลดสำเร็จ")
      | Some final_path => _resolve_final_file final_path
      end
  end.

(** *** class DownloadManager *)

Definition create_job (url : string) (output_path : option string)
    (format_choice : string) (ffmpeg_location : option string) : prog Job :=
  job_id ← perform Uuid4;
  expanded ← lift (expanduser (Path (default "." (truthy output_path))));
  created ← perform Clock;
  updated ← perform Clock;
  let job := {|
    j_id := job_id;
    j_url := url;
    j_output_path := path_str expanded;
    j_format := format_choice;
    j_ffmpeg_location := ffmpeg_location;
    j_status := queued;
    j_output_file := None;
    j_download_url := None;
    j_remote_file_id := None;
    j_remote_file_url := None;
    j_remote_file_view_url := None;
    j_error := None;
    j_created_at := created;
    j_updated_at := updated |} in
  _ ← perform (Locked (fun _ js => (tt, <[job_id := job]> js)));
  Ret job.

Definition get_job (job_id : string) : prog (option Job) :=
  perform (Locked (fun _ js => (js !! job_id, js))).

(** The jobs of the table; the source returns them in the order of their
    insertion, which the table of the embedding does not keep: the order of
    the list is not modelled. *)
Definition list_jobs : prog (list Job) :=
  perform (Locked (fun _ js => (snd <$> map_to_list js, js))).

Definition _update_job (job_id : string) (updates : list field_update) : prog Job :=
  raising (Locked (fun time js =>
    match js !! job_id with
    | None => (inl (KeyError job_id), js)
    | Some job =>
        let job := update job updates in
        let job := assign job (updated_at_ time) in
        (inr job, <[job_id := job]> js)
    end)).

Definition delete_remote_file (job_id : string) : prog unit :=
  job ← get_job job_id;
  match job with
  | None => Ret tt
  | Some job =>
      match truthy (j_remote_file_id job) with
      | None => Ret tt
      | Some remote_id =>
          r ← perform GetGoogleDriveClient;
          match r with
          | inl _ => Ret tt
          | inr None => Ret tt
          | inr (Some client) =>
              _ ← perform (DeleteFile client remote_id);
              _ ← _update_job job_id
                    [remote_file_id_ None; remote_file_url_ None; remote_file_view_url_ None];
              Ret tt
          end
      end
  end.

Definition mark_delivering (job_id : string) : prog unit :=
  perform (Locked (fun time js =>
    match js !! job_id with
    | None => (tt, js)
    | Some job =>
        let job := assign job (status_ delivering) in
        let job := assign job (updated_at_ time) in
        (tt, <[job_id := job]> js)
    end)).

Definition mark_downloaded (job_id : string) : prog unit :=
  perform (Locked (fun time js =>
    match js !! job_id with
    | None => (tt, js)
    | Some job =>
        let job := assign job (status_ downloaded) in
        let job := assign job (updated_at_ time) in
        (tt, <[job_id := job]> js)
    end)).

Definition mark_file_consumed (job_id : string) : prog unit :=
  perform (Locked (fun time js =>
    match js !! job_id with
    | None => (tt, js)
    | Some job =>
        let job := assign job (status_ delivered) in
        let job := assign job (output_file_ None) in
        let job := assign job (download_url_ None) in
        let job := assign job (remote_file_id_ None) in
        let job := assign job (remote_file_url_ None) in
        let job := assign job (remote_file_view_url_ None) in
        let job := assign job (updated_at_ time) in
        (tt, <[job_id := job]> js)
    end)).

Definition process_job (job_id : string) : prog unit :=
  job ← get_job job_id;
  match job with
  | None => Ret tt
  | Some job =>
      _ ← _update_job job_id [status_ downloading; error_ None];
      try_except
        (output_file ← download_video (j_url job) (j_output_path job) (j_format job)
                         (j_ffmpeg_location job);
         let mime_type := guess_type (path_str output_file) in
         r ← perform GetGoogleDriveClient;
         let '(drive_client, remote_error) :=
           match r with
           | inl exc => (None, Some (exn_str exc))
           | inr c => (c, None)
           end in
         '(remote_details, remote_error) ←
           match drive_client with
           | Some client =>
               r ← perform (UploadFile client output_file mime_type);
               match r with
               | inl exc => Ret (None, Some (exn_str exc))
               | inr details => Ret (Some details, remote_error)
               end
           | None => Ret (None, remote_error)
           end;
         let updates :=
           [status_ completed;
            output_file_ (Some output_file);
            download_url_ (Some ("/download/" +:+ job_id +:+ "/file"))] in
         let updates :=
           match remote_details with
           | Some d =>
               (updates ++ [remote_file_id_ (Some (file_id d));
                            remote_file_url_ (Some (download_url d));
                            remote_file_view_url_ (Some (view_url d))])%list
           | None => updates
           end in
         let updates :=
           match truthy remote_error with
           | Some text =>
               (updates ++ [error_ (Some ("Google Drive upload failed: " +:+ text))])%list
           | None => updates
           end in
         _ ← _update_job job_id updates;
         Ret tt)
        (fun exc =>
           _ ← _update_job job_id
                 [status_ failed;
                  error_ (Some (exn_str exc));
                  download_url_ None;
                  remote_file_id_ None;
                  remote_file_url_ None;
                  remote_file_view_url_ None];
           Ret tt)
  end.

(** The job [create_job] builds; [expanded] is the output path with its
    [~] expanded. *)
Definition new_job (hex url : string) (expanded : path)
    (format_choice : string) (ffmpeg_location : option string) (t : Z) : Job :=
  {| j_id := hex;
     j_url := url;
     j_output_path := path_str expanded;
     j_format := format_choice;
     j_ffmpeg_location := ffmpeg_location;
     j_status := queued;
     j_output_file := None;
     j_download_url := None;
     j_remote_file_id := None;
     j_remote_file_url := None;
     j_remote_file_view_url := None;
     j_error := None;
     j_created_at := t;
     j_updated_at := t |}.

(** *** create_api_app: the HTTP handlers *)

Record DownloadRequest := {
  dr_url : string;
  dr_output_path : option string;
  dr_format : string;
  dr_ffmpeg_location : option string
}.

(** A task handed to the framework, run after the response has been sent. *)
Inductive background :=
| bg_process_job (job_id : string)
| bg_cleanup_after_delivery (job_id : string) (output_path : path)
| bg_mark_downloaded (job_id : string).

(** What a handler returns. *)
Inductive response :=
| json_health
| json_enqueued (job_id : string) (status : Status) (fmt : string)
    (ffmpeg_location : option string) (download_url : option string) (bg : background)
| json_job (job : Job)
| json_jobs (l : list Job)
| json_file (filename : string) (size : nat) (mime_type : string) (data : string)
| FileResponse (p : path) (filename : string) (media_type : string) (bg : background)
| json_message (message : string) (file : option path).

Definition _cleanup_after_delivery (job_id : string) (output_path : path) : prog unit :=
  _ ← perform (Unlink output_path);      (* FileNotFoundError and OSError are passed over *)
  _ ← delete_remote_file job_id;
  mark_file_consumed job_id.

Definition _mark_downloaded (job_id : string) : prog unit :=
  mark_downloaded job_id.

Definition health : prog response := Ret json_health.

Definition enqueue_download (payload : DownloadRequest) : prog response :=
  if negb (bool_decide (dr_format payload ∈ valid_formats)) then
    Raise (HTTPException 400
             ("รูปแบบการดาวน์โหลดไม่ถูกต้อง (รองรับ: "
              +:+ String.concat ", " valid_formats +:+ ")"))
  else
    resolved_ffmpeg ←
      match truthy (dr_ffmpeg_location payload) with
      | Some _ =>
          try_except (resolve_ffmpeg_location (dr_ffmpeg_location payload))
            (fun exc =>
               match exc with
               | FileNotFoundError _ => Raise (HTTPException 400 (exn_str exc))
               | _ => Raise exc
               end)
      | None => Ret None
      end;
    job ← create_job (dr_url payload) (dr_output_path payload) (dr_format payload)
            (or_else (truthy resolved_ffmpeg) (dr_ffmpeg_location payload));
    Ret (json_enqueued (j_id job) (j_status job) (j_format job) (j_ffmpeg_location job)
           (j_download_url job) (bg_process_job (j_id job))).

Definition get_status (job_id : string) : prog response :=
  job ← get_job job_id;
  match job with
  | None => Raise (HTTPException 404 "ไม่พบงานดาวน์โหลดนี้")
  | Some job => Ret (json_job job)
  end.

Definition list_jobs_handler : prog response :=
  l ← list_jobs;
  Ret (json_jobs l).

Definition download_file (job_id : string) (as_base64 auto_delete : bool) : prog response :=
  job ← get_job job_id;
  match job with
  | None => Raise (HTTPException 404 "ไม่พบงานดาวน์โหลดนี้")
  | Some job =>
      let status := j_status job in
      let allowed_statuses :=
        if auto_delete then [completed] else [completed; downloaded] in
      if bool_decide (status = delivered) then
        Raise (HTTPException 410 "ไฟล์นี้ถูกดาวน์โหลดและลบไปแล้ว")
      else if bool_decide (status = delivering) then
        Raise (HTTPException 409 "ไฟล์กำลังถูกส่งให้คำขออื่น")
      else if negb (bool_decide (status ∈ allowed_statuses)) then
        Raise (HTTPException 409
                 ("งานยังไม่เสร็จสมบูรณ์ (status: " +:+ status_str status +:+ ")"))
      else
        match j_output_file job with
        | None => Raise (HTTPException 404 "ไม่พบไฟล์ที่บันทึก")
        | Some file_path =>
            found ← perform (PathExists file_path);
            if negb found then Raise (HTTPException 404 "ไฟล์ถูกลบหรือย้ายไปแล้ว")
            else
              _ ← mark_delivering job_id;
              if as_base64 then
                file_size ← raising (StatSize file_path);
                data ← raising (ReadBytes file_path);
                let encoded := b64encode data in
                let mime_type := guess_type (path_str file_path) in
                _ ← (if auto_delete
                     then _cleanup_after_delivery job_id file_path
                     else mark_downloaded job_id);
                Ret (json_file (name file_path) file_size
                       (default "application/octet-stream" mime_type) encoded)
              else
                let mime_type := guess_type (path_str file_path) in
                let cleanup_task :=
                  if auto_delete
                  then bg_cleanup_after_delivery job_id file_path
                  else bg_mark_downloaded job_id in
                Ret (FileResponse file_path (name file_path)
                       (default "application/octet-stream" mime_type) cleanup_task)
        end
  end.

Definition manual_cleanup (job_id : string) : prog response :=
  job ← get_job job_id;
  match job with
  | None => Raise (HTTPException 404 "ไม่พบงาน")
  | Some job =>
      let rest :=
        _ ← delete_remote_file job_id;
        _ ← (if bool_decide (j_status job ∈ [completed; delivering; downloaded])
             then mark_file_consumed job_id
             else Ret tt);
        Ret (json_message "ไฟล์ไม่พบหรือถูกลบไปแล้ว" None) in
      match j_output_file job with
      | Some file_path =>
          found ← perform (PathExists file_path);
          if found : bool then
            _ ← _cleanup_after_delivery job_id file_path;
            Ret (json_message "ลบไฟล์สำเร็จ" (Some file_path))
          else rest
      | None => rest
      end
  end.

(** [leads_to custom candidate]: the location expands and resolves to
    [candidate], a path that [os.stat] takes. *)
Definition leads_to (custom : string) (candidate : path) : Prop :=
  exists expanded,
    expanduser (Path custom) = inr expanded /\ resolve expanded = inr candidate
    /\ stat_error candidate = None.

(** The location leads to an existing file or directory, or none is given. *)
Definition ffmpeg_acceptable (w : world) (location : option string) : Prop :=
  match truthy location with
  | Some custom =>
      exists candidate,
        leads_to custom candidate
        /\ (is_file_node (fs w !! candidate) = true
            \/ is_dir_node (fs w !! candidate) = true)
  | None => True
  end.


(** *** The framework around the handlers

    FastAPI turns an [HTTPException] into an error response and any other
    exception into a 500; a [FileResponse] is streamed from disk; background
    tasks run once the response has been sent. *)
Inductive request :=
| GET_health
| POST_download (payload : DownloadRequest)
| GET_status (job_id : string)
| GET_jobs
| GET_download_file (job_id : string) (as_base64 auto_delete : bool)
| DELETE_cleanup (job_id : string).

(** What the client gets. *)
Inductive received :=
| error_response (status_code : Z) (detail : string)
| internal_server_error
| body_json (r : response)
| body_stream (filename media_type data : string).

Definition endpoint (r : request) : prog response :=
  match r with
  | GET_health => health
  | POST_download payload => enqueue_download payload
  | GET_status job_id => get_status job_id
  | GET_jobs => list_jobs_handler
  | GET_download_file job_id as_base64 auto_delete => download_file job_id as_base64 auto_delete
  | DELETE_cleanup job_id => manual_cleanup job_id
  end.

Definition run_background (bg : background) : prog unit :=
  match bg with
  | bg_process_job job_id => process_job job_id
  | bg_cleanup_after_delivery job_id output_path => _cleanup_after_delivery job_id output_path
  | bg_mark_downloaded job_id => _mark_downloaded job_id
  end.

Definition serve (r : request) : prog received :=
  try_except
    (resp ← endpoint r;
     match resp with
     | FileResponse p filename media_type bg =>
         data ← raising (ReadBytes p);
         _ ← try_except (run_background bg) (fun _ => Ret tt);
         Ret (body_stream filename media_type data)
     | json_enqueued _ _ _ _ _ bg =>
         _ ← try_except (run_background bg) (fun _ => Ret tt);
         Ret (body_json resp)
     | _ => Ret (body_json resp)
     end)
    (fun exc =>
       match exc with
       | HTTPException status_code detail => Ret (error_response status_code detail)
       | _ => Ret internal_server_error
       end).

(** ** Concurrent requests

    The server keeps one program per request; a step runs the next atomic
    action of one of them.  The environment may also let time pass and
    remove files. *)
Record system := {
  sys_world : world;
  tasks : list (prog received)
}.

Inductive event :=
| arrive (r : request)
| step (task : nat) (e : option ext)
| tick (t : Z)
| removed (p : path).

Definition sys_step (l : event) (s : system) : option system :=
  match l with
  | arrive r => Some {| sys_world := sys_world s; tasks := (tasks s ++ [serve r])%list |}
  | step i e =>
      match tasks s !! i with
      | Some (Do a k) =>
          match exec a e (sys_world s) with
          | Some (x, w') => Some {| sys_world := w'; tasks := <[i := k x]> (tasks s) |}
          | None => None
          end
      | _ => None
      end
  | tick t =>
      Some {| sys_world := {| jobs := jobs (sys_world s); fs := fs (sys_world s);
                              now := Z.max t (now (sys_world s));
                              issued := issued (sys_world s) |};
              tasks := tasks s |}
  | removed p =>
      Some {| sys_world := with_fs (sys_world s) (delete p (fs (sys_world s)));
              tasks := tasks s |}
  end.

Fixpoint schedule (ls : list event) (s : system) : option system :=
  match ls with
  | [] => Some s
  | l :: ls' =>
      match sys_step l s with
      | Some s' => schedule ls' s'
      | None => None
      end
  end.

(** A server that has just started: no jobs, no requests in flight. *)
Definition boot (disk : gmap path fnode) (t : Z) : system :=
  {| sys_world := {| jobs := ∅; fs := disk; now := t; issued := ∅ |}; tasks := [] |}.

End Program.

(** ** Vocabulary of the properties *)

(** The statuses from which [download_file] serves the artifact. *)
Definition allowed (auto_delete : bool) (s : Status) : Prop :=
  s = completed \/ (auto_delete = false /\ s = downloaded).

(** No field of the job points at an artifact any more. *)
Definition artifacts_null (job : Job) : Prop :=
  j_output_file job = None /\ j_download_url job = None /\
  j_remote_file_id job = None /\ j_remote_file_url job = None /\
  j_remote_file_view_url job = None.

Definition bare_if_delivered (job : Job) : Prop :=
  j_status job = delivered -> artifacts_null job.

(** Every job that is [delivered] points at no artifact. *)
Definition delivered_bare (w : world) : Prop :=
  forall job_id job, jobs w !! job_id = Some job -> bare_if_delivered job.

(** A step from [w] to [w'] keeps [P]. *)
Definition keeps (P : world -> Prop) (w w' : world) : Prop := P w -> P w'.

(** [within G p]: every action [p] can perform, whatever the results it is
    handed, changes the world within [G]. *)
Inductive within (G : world -> world -> Prop) {R : Type} : prog R -> Prop :=
| within_Ret r : within G (Ret r)
| within_Raise exc : within G (Raise exc)
| within_Do {X : Type} (a : action X) (k : X -> prog R) :
    (forall e w x w', exec a e w = Some (x, w') -> G w w') ->
    (forall x, within G (k x)) ->
    within G (Do a k).

(** The job table and the clock are left as they were. *)
Definition same_store (w w' : world) : Prop :=
  jobs w' = jobs w /\ now w' = now w /\ issued w' = issued w.

(** An action that neither enters the lock of the job store nor draws an
    identifier. *)
Definition quiet {X} (a : action X) : bool :=
  match a with
  | Locked _ | Uuid4 => false
  | _ => true
  end.

(** The world once [process_job] has marked the job as downloading. *)
Definition started (w : world) (job_id : string) (job : Job) : world :=
  with_jobs w (<[job_id := assign (update job [status_ downloading; error_ None])
                             (updated_at_ (now w))]> (jobs w)).

(** [raises_only P p]: every exception that escapes [p] satisfies [P]. *)
Inductive raises_only (P : exn -> Prop) {R : Type} : prog R -> Prop :=
| raises_only_Ret r : raises_only P (Ret r)
| raises_only_Raise exc : P exc -> raises_only P (Raise exc)
| raises_only_Do {X : Type} (a : action X) (k : X -> prog R) :
    (forall e w x w', exec a e w = Some (x, w') -> raises_only P (k x)) ->
    raises_only P (Do a k).

Definition not_http (exc : exn) : Prop :=
  match exc with
  | HTTPException _ _ => False
  | _ => True
  end.

(** *** Who may write what

    A task that serves [POST /download] draws an identifier and from then
    on owns the job of that name, until [process_job] has written the
    outcome of the execution.  Every other task is a bystander. *)
Inductive role :=
| bystander
| submitter
| worker (job_id : string).

Definition remote_null (job : Job) : Prop :=
  j_download_url job = None /\ j_remote_file_id job = None /\
  j_remote_file_url job = None /\ j_remote_file_view_url job = None.

(** What a bystander may do to a job: move it to a delivery status and
    clear artifact fields. *)
Definition fades (job job' : Job) : Prop :=
  (j_status job' = j_status job \/ j_status job' ∈ [delivering; downloaded; delivered])
  /\ (j_output_file job' = j_output_file job \/ j_output_file job' = None)
  /\ (j_download_url job' = j_download_url job \/ j_download_url job' = None)
  /\ (j_remote_file_id job' = j_remote_file_id job \/ j_remote_file_id job' = None)
  /\ (j_remote_file_url job' = j_remote_file_url job \/ j_remote_file_url job' = None)
  /\ (j_remote_file_view_url job' = j_remote_file_view_url job
      \/ j_remote_file_view_url job' = None).

Definition bystander_step (w w' : world) : Prop :=
  issued w' = issued w
  /\ forall job_id job', jobs w' !! job_id = Some job' ->
       exists job, jobs w !! job_id = Some job /\ fades job job'.

(** What the owner of [job_id] may do before the outcome is written: create
    the job, or update it without setting [output_file]; a write of status
    [failed] clears the other artifact fields. *)
Definition owner_step (job_id : string) (w w' : world) : Prop :=
  issued w' = issued w
  /\ (forall other, other <> job_id -> jobs w' !! other = jobs w !! other)
  /\ (jobs w' !! job_id = jobs w !! job_id
      \/ exists job',
           jobs w' !! job_id = Some job'
           /\ (j_status job' = failed -> remote_null job')
           /\ (j_output_file job' = None
               \/ exists job, jobs w !! job_id = Some job
                              /\ j_output_file job' = j_output_file job)).

(** The write of a successful outcome. *)
Definition final_step (job_id : string) (w w' : world) : Prop :=
  issued w' = issued w
  /\ (forall other, other <> job_id -> jobs w' !! other = jobs w !! other)
  /\ exists job', jobs w' !! job_id = Some job' /\ j_status job' <> failed.

Inductive moves : role -> world -> world -> role -> Prop :=
| moves_bystander w w' : bystander_step w w' -> moves bystander w w' bystander
| moves_submitter w w' : bystander_step w w' -> moves submitter w w' submitter
| moves_draw hex w : hex ∉ issued w -> moves submitter w (issue hex w) (worker hex)
| moves_owner job_id w w' : owner_step job_id w w' -> moves (worker job_id) w w' (worker job_id)
| moves_final job_id w w' : final_step job_id w w' -> moves (worker job_id) w w' bystander.

(** [acts Q E r p]: started in role [r], every action of [p] is a move its
    current role allows; [p] returns in a role and with a value that
    satisfy [Q] and raises in a role and with an exception that satisfy [E]. *)
Fixpoint acts {R : Type} (Q : role -> R -> Prop) (E : role -> exn -> Prop)
    (r : role) (p : prog R) {struct p} : Prop :=
  match p with
  | Ret x => Q r x
  | Raise exc => E r exc
  | Do a k =>
      forall e w x w', exec a e w = Some (x, w') ->
        exists r', moves r w w' r' /\ acts Q E r' (k x)
  end.

Definition anything {A B : Type} (_ : A) (_ : B) : Prop := True.

(** The moves a role allows without changing. *)
Definition stays (r : role) : world -> world -> Prop :=
  match r with
  | worker job_id => owner_step job_id
  | _ => bystander_step
  end.

Definition role_of (r : request) : role :=
  match r with
  | POST_download _ => submitter
  | _ => bystander
  end.

(** A response that hands no job execution to the framework. *)
Definition plain_response (resp : response) : Prop :=
  match resp with
  | json_enqueued _ _ _ _ _ _ => False
  | FileResponse _ _ _ (bg_process_job _) => False
  | _ => True
  end.

(** The tasks of the server, each in its role. *)
Fixpoint cast (roles : list role) (ts : list (prog received)) : Prop :=
  match roles, ts with
  | [], [] => True
  | r :: roles', p :: ts' => acts anything anything r p /\ cast roles' ts'
  | _, _ => False
  end.

Record sound (roles : list role) (s : system) : Prop := {
  sound_cast : cast roles (tasks s);
  sound_failed : forall job_id job,
    jobs (sys_world s) !! job_id = Some job -> j_status job = failed -> artifacts_null job;
  sound_owned : forall i job_id,
    roles !! i = Some (worker job_id) ->
    job_id ∈ issued (sys_world s)
    /\ forall job, jobs (sys_world s) !! job_id = Some job -> j_output_file job = None;
  sound_distinct : forall i j job_id,
    roles !! i = Some (worker job_id) -> roles !! j = Some (worker job_id) -> i = j;
  sound_dom : forall job_id job,
    jobs (sys_world s) !! job_id = Some job -> job_id ∈ issued (sys_world s)
}.

(** *** Who writes to a job, and when

    The task that serves [POST /download] makes the job and writes to it
    until [process_job] has written the outcome of the execution.  A task
    that serves a delivery or a clean-up writes to a job only after it has
    read that job in a status past the execution or pointing at an
    artifact. *)
Inductive hand :=
| idle
| drawing
| making (job_id : string)
| handling (job_id : string).

(** The statuses past the execution. *)
Definition settled (job : Job) : Prop :=
  j_status job ∈ [completed; delivering; downloaded; delivered].

(** What [manual_cleanup] and [delete_remote_file] look at before they
    write. *)
Definition pointing (job : Job) : Prop :=
  j_output_file job <> None \/ truthy (j_remote_file_id job) <> None.

(** A job whose execution has not written an outcome. *)
Definition unfinished (job : Job) : Prop :=
  j_status job ∈ [queued; downloading] /\ artifacts_null job.

(** A job in a delivery status that points at no artifact. *)
Definition spent (job : Job) : Prop :=
  j_status job ∈ [delivering; downloaded; delivered] /\ artifacts_null job.

Definition untouched (w w' : world) : Prop :=
  jobs w' = jobs w /\ issued w' = issued w.

Definition own_unfinished (job_id : string) (w : world) : Prop :=
  forall job, jobs w !! job_id = Some job -> unfinished job.

(** The maker of [job_id] writes to no other job and leaves its own
    unfinished. *)
Definition making_step (job_id : string) (w w' : world) : Prop :=
  issued w' = issued w
  /\ (forall other, other <> job_id -> jobs w' !! other = jobs w !! other)
  /\ (own_unfinished job_id w -> own_unfinished job_id w').

(** The write of the outcome: [completed], or [failed] without artifact. *)
Definition outcome_step (job_id : string) (w w' : world) : Prop :=
  issued w' = issued w
  /\ (forall other, other <> job_id -> jobs w' !! other = jobs w !! other)
  /\ is_Some (jobs w !! job_id)
  /\ (own_unfinished job_id w ->
      exists job',
        jobs w' !! job_id = Some job'
        /\ (j_status job' = completed \/ (j_status job' = failed /\ artifacts_null job'))).

(** The handler of [job_id] writes to no other job and lets its own fade. *)
Definition handling_step (job_id : string) (w w' : world) : Prop :=
  issued w' = issued w
  /\ (forall other, other <> job_id -> jobs w' !! other = jobs w !! other)
  /\ (jobs w' !! job_id = jobs w !! job_id
      \/ exists job job',
           jobs w !! job_id = Some job /\ jobs w' !! job_id = Some job'
           /\ fades job job').

(** The job is there, past its execution or pointing at an artifact. *)
Definition seen (job_id : string) (w : world) : Prop :=
  exists job, jobs w !! job_id = Some job /\ (settled job \/ pointing job).

Inductive passes : hand -> world -> world -> hand -> Prop :=
| passes_idle w w' : untouched w w' -> passes idle w w' idle
| passes_seen job_id w w' :
    untouched w w' -> seen job_id w -> passes idle w w' (handling job_id)
| passes_drawing w w' : untouched w w' -> passes drawing w w' drawing
| passes_draw hex w : hex ∉ issued w -> passes drawing w (issue hex w) (making hex)
| passes_making job_id w w' :
    making_step job_id w w' -> passes (making job_id) w w' (making job_id)
| passes_outcome job_id w w' :
    outcome_step job_id w w' -> passes (making job_id) w w' idle
| passes_handling job_id w w' :
    handling_step job_id w w' -> passes (handling job_id) w w' (handling job_id).

(** [obeys Q E h p]: started with hand [h], every action of [p] is a step
    its current hand allows; [p] returns with a hand and a value that
    satisfy [Q] and raises with a hand and an exception that satisfy [E]. *)
Fixpoint obeys {R : Type} (Q : hand -> R -> Prop) (E : hand -> exn -> Prop)
    (h : hand) (p : prog R) {struct p} : Prop :=
  match p with
  | Ret x => Q h x
  | Raise exc => E h exc
  | Do a k =>
      forall e w x w', exec a e w = Some (x, w') ->
        exists h', passes h w w' h' /\ obeys Q E h' (k x)
  end.

(** The steps a hand allows without changing. *)
Definition holds (h : hand) : world -> world -> Prop :=
  match h with
  | making job_id => making_step job_id
  | handling job_id => handling_step job_id
  | _ => untouched
  end.

Definition hand_of (r : request) : hand :=
  match r with
  | POST_download _ => drawing
  | _ => idle
  end.

(** The task a response hands to the framework is for the job the handler
    has in hand. *)
Definition entrusted (h : hand) (resp : response) : Prop :=
  match resp with
  | json_enqueued _ _ _ _ _ bg | FileResponse _ _ _ bg =>
      match bg with
      | bg_process_job job_id => h = making job_id
      | bg_cleanup_after_delivery job_id _ | bg_mark_downloaded job_id =>
          h = handling job_id
      end
  | _ => True
  end.

(** The tasks of the server, each with its hand. *)
Fixpoint crew (hands : list hand) (ts : list (prog received)) : Prop :=
  match hands, ts with
  | [], [] => True
  | h :: hands', p :: ts' => obeys anything anything h p /\ crew hands' ts'
  | _, _ => False
  end.

Record steady (hands : list hand) (s : system) : Prop := {
  steady_crew : crew hands (tasks s);
  steady_coherent : forall job_id job,
    jobs (sys_world s) !! job_id = Some job -> pointing job -> settled job;
  steady_making : forall i job_id,
    hands !! i = Some (making job_id) ->
    job_id ∈ issued (sys_world s) /\ own_unfinished job_id (sys_world s);
  steady_distinct : forall i j job_id,
    hands !! i = Some (making job_id) -> hands !! j = Some (making job_id) -> i = j;
  steady_handling : forall i job_id,
    hands !! i = Some (handling job_id) ->
    exists job, jobs (sys_world s) !! job_id = Some job /\ settled job;
  steady_dom : forall job_id job,
    jobs (sys_world s) !! job_id = Some job -> job_id ∈ issued (sys_world s)
}.

(** ** More vocabulary: paths, deliveries, writes to the job table *)

(** The candidates [_pick_path_from_info] collects, in the order it tries them. *)
Definition info_candidates (i : info) : list path :=
  (requested_paths true (req_or (requested_downloads i) (requested_formats i))
   ++ match or_else (i_filepath i) (i__filename i) with
      | Some p => [p]
      | None => []
      end
   ++ flat_map entry_paths (entries i))%list.

(** What [mark_file_consumed] makes of a job at time [t]. *)
Definition consumed (job : Job) (t : Z) : Job :=
  assign (assign (assign (assign (assign (assign (assign job
    (status_ delivered)) (output_file_ None)) (download_url_ None))
    (remote_file_id_ None)) (remote_file_url_ None))
    (remote_file_view_url_ None)) (updated_at_ t).

(** The world once [path.unlink()] has been tried on [p]. *)
Definition unlinked (w : world) (p : path) : world :=
  if is_file_node (fs w !! p) then with_fs w (delete p (fs w)) else w.

(** No relay copy is recorded for the job. *)
Definition unrelayed (job : Job) : Prop := truthy (j_remote_file_id job) = None.

(** What the environment is asked while the relay copy of [job] is disposed
    of: nothing when the job records none, else once for the relay client. *)
Definition relay_answers (job : Job) (answers : list ext) : Prop :=
  match truthy (j_remote_file_id job) with
  | None => answers = []
  | Some _ => exists r, answers = [drive_client_returns r]
  end.

(** The job once [mark_delivering] / [mark_downloaded] has run at time [t]. *)
Definition marked (s : Status) (job : Job) (t : Z) : Job :=
  assign (assign job (status_ s)) (updated_at_ t).

(** What the environment answers when [process_job] turns to the relay:
    there is no client, or there is one and the upload succeeds. *)
Definition relay_succeeds (relay : option remote_details) (answers : list ext) : Prop :=
  match relay with
  | None => answers = [drive_client_returns (inr None)]
  | Some d =>
      exists client,
        answers = [drive_client_returns (inr (Some client)); upload_returns (inr d)]
  end.

(** *** The writes of the program to the job table *)

(** The updates [process_job] passes to [_update_job] when the extraction
    has succeeded. *)
Definition completed_updates (job_id : string) (output_file : path)
    (remote_details : option remote_details) (remote_error : option string)
  : list field_update :=
  let updates :=
    [status_ completed;
     output_file_ (Some output_file);
     download_url_ (Some ("/download/" +:+ job_id +:+ "/file"))] in
  let updates :=
    match remote_details with
    | Some d =>
        (updates ++ [remote_file_id_ (Some (file_id d));
                     remote_file_url_ (Some (download_url d));
                     remote_file_view_url_ (Some (view_url d))])%list
    | None => updates
    end in
  match truthy remote_error with
  | Some text => (updates ++ [error_ (Some ("Google Drive upload failed: " +:+ text))])%list
  | None => updates
  end.

(** The keyword arguments with which the program calls [_update_job]. *)
Inductive sanctioned (job_id : string) : list field_update -> Prop :=
| starts : sanctioned job_id [status_ downloading; error_ None]
| completes output_file remote_details remote_error :
    sanctioned job_id (completed_updates job_id output_file remote_details remote_error)
| fails text :
    sanctioned job_id
      [status_ failed; error_ (Some text); download_url_ None;
       remote_file_id_ None; remote_file_url_ None; remote_file_view_url_ None]
| clears_remote :
    sanctioned job_id
      [remote_file_id_ None; remote_file_url_ None; remote_file_view_url_ None].

(** [store_write job_id t job job']: at time [t] the program replaces the stored
    [job] by [job']. *)
Inductive store_write (job_id : string) (t : Z) (job : Job) : Job -> Prop :=
| by_update updates :
    sanctioned job_id updates ->
    store_write job_id t job (assign (update job updates) (updated_at_ t))
| by_mark_delivering : store_write job_id t job (marked delivering job t)
| by_mark_downloaded : store_write job_id t job (marked downloaded job t)
| by_mark_file_consumed : store_write job_id t job (consumed job t).

(** What [create_job] stores under [job_id]. *)
Definition inserted (job_id : string) (job : Job) : Prop :=
  j_id job = job_id /\ j_status job = queued /\ j_error job = None /\ artifacts_null job.

(** One step of the server, seen from the job table: nothing, a new job, or
    one write to one stored job. *)
Definition store_step (w w' : world) : Prop :=
  jobs w' = jobs w
  \/ (exists job_id job', inserted job_id job' /\ jobs w' = <[job_id := job']> (jobs w))
  \/ (exists job_id job job',
        jobs w !! job_id = Some job /\ store_write job_id (now w) job job'
        /\ jobs w' = <[job_id := job']> (jobs w)).

(** What the status of a job stored under [job_id] tells about its fields. *)
Definition well_formed (job_id : string) (job : Job) : Prop :=
  j_id job = job_id
  /\ (j_status job = queued -> j_error job = None /\ artifacts_null job)
  /\ (j_status job = completed ->
      (exists output_file, j_output_file job = Some output_file)
      /\ j_download_url job = Some ("/download/" +:+ job_id +:+ "/file"))
  /\ (j_status job = failed -> exists text, j_error job = Some text).

(** ** Reverse-proxy headers *)

(** *** _first_forwarded

    Header values are latin-1 text, one byte per character.  [is_space] is
    [str.isspace] on that range. *)
Definition is_space (c : ascii) : bool :=
  let n := nat_of_ascii c in
  ((9 <=? n)%nat && (n <=? 13)%nat) || ((28 <=? n)%nat && (n <=? 32)%nat)
  || (n =? 133)%nat || (n =? 160)%nat.

(** [s.split(",")[0]] *)
Fixpoint before_comma (s : string) : string :=
  match s with
  | EmptyString => EmptyString
  | String c s' => if Ascii.eqb c "," then EmptyString else String c (before_comma s')
  end.

(** [s.rstrip()] *)
Fixpoint rstrip (s : string) : string :=
  match s with
  | EmptyString => EmptyString
  | String c s' =>
      match rstrip s' with
      | EmptyString => if is_space c then EmptyString else String c EmptyString
      | r => String c r
      end
  end.

(** [s.strip()] *)
Definition strip (s : string) : string := rstrip (skip is_space s).

(** A request, as far as the handlers read it: [request.headers.get]. *)
Record Request := { headers_get : string -> option string }.

Definition _first_forwarded (request : Request) (header_name : string) : option string :=
  match truthy (headers_get request header_name) with
  | None => None
  | Some value => Some (strip (before_comma value))
  end.

Definition not_comma (c : ascii) : bool := negb (Ascii.eqb c ",").

(** ** A small installation to compute with *)

(** A character of two bytes: the lead byte, and a second byte in a range. *)
Definition two_bytes (lead lo hi : nat) (s : string) : bool :=
  match s with
  | String c (String d _) =>
      (nat_of_ascii c =? lead)%nat && (lo <=? nat_of_ascii d)%nat
      && (nat_of_ascii d <=? hi)%nat
  | _ => false
  end.

(** The classes of the installation: beyond ASCII, [\d] takes the
    Arabic-Indic digits U+0660 to U+0669 and [\w] takes them and the letters
    U+00E0 to U+00F6. *)
Definition demo_digit (s : string) : nat :=
  if two_bytes 217 160 169 s then 2%nat else ascii_class is_digit s.

Definition demo_word (s : string) : nat :=
  if two_bytes 217 160 169 s || two_bytes 195 160 182 s then 2%nat
  else ascii_class is_word s.

(** [expanduser] of the installation: there is no user [nosuchuser]. *)
Definition demo_expanduser (p : path) : exn + path :=
  match p with
  | s :: _ =>
      if String.prefix "~nosuchuser" s
      then inl (RuntimeError "Could not determine home directory.")
      else inr p
  | [] => inr p
  end.

Definition demo_lib : PyLib.
Proof.
  refine {| Path := fun s => [s];
            expanduser := demo_expanduser;
            resolve := inr;
            stat_error := fun _ => None;
            digit_char := demo_digit;
            word_char := demo_word;
            guess_type := fun _ => None;
            b64encode := fun s => s;
            DEFAULT_FFMPEG_DIR := ["ffmpeg"; "bin"] |}.
  all: assert (forall lead lo hi c s,
                 (128 <= lead)%nat -> is_ascii c = true ->
                 two_bytes lead lo hi (String c s) = false) as Hascii
    by (intros lead lo hi c s Hlead Hc; unfold is_ascii in Hc; apply Nat.ltb_lt in Hc;
        destruct s as [|d s]; [done|]; simpl;
        destruct (Nat.eqb_spec (nat_of_ascii c) lead); [lia|done]).
  all: assert (forall c, (nat_of_ascii c <> 46)%nat -> Ascii.eqb c "." = false) as Hbyte
    by (intros c Hc; destruct (Ascii.eqb_spec c "."); [by subst c|done]).
  all: assert (forall lead lo hi s,
                 (128 <= lead)%nat -> (128 <= lo)%nat -> two_bytes lead lo hi s = true ->
                 dots (String.substring 0 2 s) = 0%nat) as Htwo
    by (intros lead lo hi s Hlead Hlo; destruct s as [|c [|d s]]; try done; simpl;
        intros [[Hc Hd]%andb_prop _]%andb_prop;
        apply Nat.eqb_eq in Hc; apply Nat.leb_le in Hd;
        rewrite !Hbyte by lia; by destruct s).
  all: assert (forall p s,
                 (forall c, p c = true -> Ascii.eqb c "." = false) ->
                 dots (String.substring 0 (ascii_class p s) s) = 0%nat) as Hone
    by (intros p s Hp; destruct s as [|c s]; [reflexivity|]; simpl;
        destruct (p c) eqn:Hc; [|reflexivity]; simpl; rewrite (Hp c Hc); by destruct s).
  - intros c s Hc. unfold demo_digit. by rewrite Hascii by (done || lia).
  - intros c s Hc. unfold demo_word. by rewrite !Hascii by (done || lia).
  - intros s. unfold demo_digit. destruct (two_bytes 217 160 169 s) eqn:H2.
    + by apply Htwo in H2; [|lia|lia].
    + apply Hone. intros c Hc. by destruct (Ascii.eqb_spec c "."); [subst c|].
  - intros s. unfold demo_word.
    destruct (two_bytes 217 160 169 s) eqn:H2; [by apply Htwo in H2; [|lia|lia]|].
    destruct (two_bytes 195 160 182 s) eqn:H3; [by apply Htwo in H3; [|lia|lia]|].
    apply Hone. intros c Hc. by destruct (Ascii.eqb_spec c "."); [subst c|].
Defined.

Definition empty_world : world := {| jobs := ∅; fs := ∅; now := 0; issued := ∅ |}.

Definition video : path := ["out"; "video.mp4"].

(** A job whose extraction has finished, its artifact on disk. *)
Definition demo_job : Job := {|
  j_id := "j1";
  j_url := "https://example.org/v";
  j_output_path := "out";
  j_format := "auto";
  j_ffmpeg_location := None;
  j_status := completed;
  j_output_file := Some video;
  j_download_url := Some "/download/j1/file";
  j_remote_file_id := None;
  j_remote_file_url := None;
  j_remote_file_view_url := None;
  j_error := None;
  j_created_at := 0;
  j_updated_at := 1 |}.

Definition demo_world : world := {|
  jobs := {[ "j1" := demo_job ]};
  fs := {[ video := File "DATA" ]};
  now := 5;
  issued := {[ "j1" ]} |}.

Definition demo_system : system := {| sys_world := demo_world; tasks := [] |}.

(** Two clients fetch the same completed job with the default parameters.
    The second arrives while the first is between its checks and its
    [mark_delivering]. *)
Definition race : list event :=
  [ arrive (GET_download_file "j1" false true);
    step 0 None; step 0 None;       (* first: get_job, file_path.exists() *)
    arrive (GET_download_file "j1" false true);
    step 1 None; step 1 None;       (* second: get_job, file_path.exists() *)
    step 0 None; step 1 None;       (* mark_delivering twice *)
    step 0 None; step 1 None;       (* both bodies are streamed *)
    step 0 None; step 0 None; step 0 None;   (* clean-up of the first *)
    step 1 None; step 1 None; step 1 None ]. (* clean-up of the second *)

(** A client fetches the file and keeps it ([auto_delete=false]); while the
    body is on its way an administrator cleans the job up. *)
Definition fetch_then_cleanup : list event :=
  [ arrive (GET_download_file "j1" false false);
    step 0 None; step 0 None; step 0 None;   (* get_job, exists, mark_delivering *)
    step 0 None;                             (* the body is streamed *)
    arrive (DELETE_cleanup "j1");
    step 1 None; step 1 None;                (* get_job, exists *)
    step 1 None; step 1 None; step 1 None ]. (* unlink, delete_remote_file, mark_file_consumed *)

(** The deferred [_mark_downloaded] of the first request. *)
Definition deferred_mark : list event := [ step 0 None ].

Definition status_of (job_id : string) (s : option system) : option Status :=
  match s with
  | Some s => j_status <$> jobs (sys_world s) !! job_id
  | None => None
  end.

(** What each client has got, for the requests that are through. *)
Definition finished (p : prog received) : option received :=
  match p with
  | Ret r => Some r
  | _ => None
  end.

Definition received_by (s : option system) : list (option received) :=
  match s with
  | Some s => List.map finished (tasks s)
  | None => []
  end.

(** A submission and its whole life: the job is created, extracted without
    a relay, fetched inline with auto-delete, and ends up [delivered]. *)
Definition submission : DownloadRequest :=
  {| dr_url := "https://example.org/v";
     dr_output_path := Some "out";
     dr_format := "auto";
     dr_ffmpeg_location := None |}.

(** Submissions that name the home of a user that does not exist. *)
Definition unknown_user_ffmpeg : DownloadRequest :=
  {| dr_url := "https://example.org/v";
     dr_output_path := None;
     dr_format := "auto";
     dr_ffmpeg_location := Some "~nosuchuser/ffmpeg" |}.

Definition unknown_user_output : DownloadRequest :=
  {| dr_url := "https://example.org/v";
     dr_output_path := Some "~nosuchuser/out";
     dr_format := "auto";
     dr_ffmpeg_location := None |}.


Definition extraction_succeeds : ext :=
  extract_info_returns [(video, "DATA")] [Some video] (inr None).

Definition life_of_a_job : list event :=
  [ arrive (POST_download submission);
    step 0 (Some (uuid4_returns "j1"));
    step 0 None; step 0 None; step 0 None;    (* time.time() twice, the insertion *)
    step 0 None; step 0 None;                 (* process_job: get_job, _update_job *)
    step 0 None; step 0 None;                 (* mkdir, DEFAULT_FFMPEG_DIR.exists() *)
    step 0 (Some extraction_succeeds);
    step 0 None;                              (* final_path.exists() *)
    step 0 (Some (drive_client_returns (inr None)));
    step 0 None;                              (* _update_job: completed *)
    arrive (GET_download_file "j1" true true);
    step 1 None; step 1 None; step 1 None;    (* get_job, exists, mark_delivering *)
    step 1 None; step 1 None;                 (* stat, read_bytes *)
    step 1 None; step 1 None; step 1 None ].  (* unlink, get_job, mark_file_consumed *)

(** A submission whose extraction fails. *)
Definition life_of_a_failed_job : list event :=
  [ arrive (POST_download submission);
    step 0 (Some (uuid4_returns "j1"));
    step 0 None; step 0 None; step 0 None;    (* time.time() twice, the insertion *)
    step 0 None; step 0 None;                 (* process_job: get_job, _update_job *)
    step 0 None; step 0 None;                 (* mkdir, DEFAULT_FFMPEG_DIR.exists() *)
    step 0 (Some (extract_info_returns [] []
                    (inl (LibraryError "ERROR: Unsupported URL"))));
    step 0 None ].                            (* _update_job: failed *)

(** A job that has just been submitted. *)
Definition queued_job : Job :=
  new_job "j1" "https://example.org/v" ["out"] "auto" None 0.

Definition queued_world : world :=
  {| jobs := {[ "j1" := queued_job ]}; fs := ∅; now := 1; issued := {[ "j1" ]} |}.

(** The engine raises. *)
Definition engine_fails : list ext :=
  [ extract_info_returns [] [] (inl (LibraryError "ERROR: Unsupported URL")) ].

(** The engine succeeds and the relay client cannot be built. *)
Definition relay_fails (text : string) : list ext :=
  [ extraction_succeeds; drive_client_returns (inl (LibraryError text)) ].

(** The job [job_id] after a run. *)
Definition job_after {R} (job_id : string) (r : option ((exn + R) * world * list ext))
  : option Job :=
  match r with
  | Some (_, w, _) => jobs w !! job_id
  | None => None
  end.

(** A completed job with a copy on the relay. *)
Definition relayed_job : Job := {|
  j_id := "j1";
  j_url := "https://example.org/v";
  j_output_path := "out";
  j_format := "auto";
  j_ffmpeg_location := None;
  j_status := completed;
  j_output_file := Some video;
  j_download_url := Some "/download/j1/file";
  j_remote_file_id := Some "r1";
  j_remote_file_url := Some "https://drive.google.com/uc?export=download&id=r1";
  j_remote_file_view_url := Some "https://drive.google.com/file/d/r1/view";
  j_error := None;
  j_created_at := 0;
  j_updated_at := 1 |}.

Definition relayed_world : world := {|
  jobs := {[ "j1" := relayed_job ]};
  fs := {[ video := File "DATA" ]};
  now := 5;
  issued := {[ "j1" ]} |}.

(** The recorded output path of the job is a directory. *)
Definition folder_world : world := {|
  jobs := {[ "j1" := demo_job ]};
  fs := {[ video := Dir ]};
  now := 5;
  issued := {[ "j1" ]} |}.

(** What an upload to the relay returns. *)
Definition uploaded : remote_details := {|
  file_id := "r1";
  download_url := "https://drive.google.com/uc?export=download&id=r1";
  view_url := "https://drive.google.com/file/d/r1/view" |}.

Definition relay : drive_client := GoogleDriveClient None true.


(** A request that came through two proxies. *)
Definition proxied : Request :=
  {| headers_get := fun header_name =>
       if String.eqb header_name "x-forwarded-proto" then Some " https , http"
       else None |}.

(** [life_of_a_job] up to the completion of the job, and from there on. *)
Definition until_completed : list event := take 13 life_of_a_job.

Definition after_completed : list event := drop 13 life_of_a_job.

(** A clean-up of the job that has been delivered, and time passing. *)
Definition cleanup_again : list event :=
  [ arrive (DELETE_cleanup "j1"); step 2 None; step 2 None; tick 9 ].

(** * Properties *)

(** ** Running programs *)

Lemma with_jobs_id w : with_jobs w (jobs w) = w.
Proof. by destruct w. Qed.

Lemma with_fs_id w : with_fs w (fs w) = w.
Proof. by destruct w. Qed.

Lemma run_bind {A B} (p : prog A) (f : A -> prog B) w env :
  run (p ≫= f) w env =
  match run p w env with
  | Some (inr x, w', env') => run (f x) w' env'
  | Some (inl exc, w', env') => Some (inl exc, w', env')
  | None => None
  end.
Proof.
  revert w env. induction p as [r|exc|X a k IH]; intros w env; try reflexivity.
  change (Do a k ≫= f) with (Do a (fun x => k x ≫= f)).
  simpl. destruct (external a).
  - destruct env as [|e env]; [done|].
    destruct (exec a (Some e) w) as [[x w']|]; [|done]. apply IH.
  - destruct (exec a None w) as [[x w']|]; [|done]. apply IH.
Qed.

Lemma run_try_except {A} (p : prog A) (handler : exn -> prog A) w env :
  run (try_except p handler) w env =
  match run p w env with
  | Some (inl exc, w', env') => run (handler exc) w' env'
  | o => o
  end.
Proof.
  revert w env. induction p as [r|exc|X a k IH]; intros w env; try reflexivity.
  simpl. destruct (external a).
  - destruct env as [|e env]; [done|].
    destruct (exec a (Some e) w) as [[x w']|]; [|done]. apply IH.
  - destruct (exec a None w) as [[x w']|]; [|done]. apply IH.
Qed.

Lemma raises_only_run {R} (P : exn -> Prop) (p : prog R) w env exc w' env' :
  raises_only P p -> run p w env = Some (inl exc, w', env') -> P exc.
Proof.
  intros Hp. revert w env.
  induction Hp as [r|exc0 HP|X a k Hk IH]; intros w env Hrun; simpl in Hrun.
  - discriminate.
  - by injection Hrun as <- _ _.
  - destruct (external a).
    + destruct env as [|e env]; [done|].
      destruct (exec a (Some e) w) as [[x w1]|] eqn:He; [|done]. eauto.
    + destruct (exec a None w) as [[x w1]|] eqn:He; [|done]. eauto.
Qed.

Lemma raises_only_bind {A B} (P : exn -> Prop) (p : prog A) (f : A -> prog B) :
  raises_only P p -> (forall x, raises_only P (f x)) -> raises_only P (p ≫= f).
Proof.
  intros Hp Hf. induction Hp as [r|exc HP|X a k Hk IH].
  - apply Hf.
  - by constructor.
  - change (Do a k ≫= f) with (Do a (fun x => k x ≫= f)). constructor. eauto.
Qed.

Lemma raises_only_perform {X} (P : exn -> Prop) (a : action X) :
  raises_only P (perform a).
Proof. constructor. intros. constructor. Qed.

(** ** The job store *)

Lemma run_get_job job_id w env :
  run (get_job job_id) w env = Some (inr (jobs w !! job_id), w, env).
Proof. unfold get_job, perform. simpl. by rewrite with_jobs_id. Qed.

Lemma run_update_job_absent job_id updates w env :
  jobs w !! job_id = None ->
  run (_update_job job_id updates) w env = Some (inl (KeyError job_id), w, env).
Proof.
  intros Hj. unfold _update_job, raising. simpl. rewrite Hj. simpl.
  by rewrite with_jobs_id.
Qed.

Lemma run_update_job_present job_id updates job w env :
  jobs w !! job_id = Some job ->
  let job' := assign (update job updates) (updated_at_ (now w)) in
  run (_update_job job_id updates) w env
  = Some (inr job', with_jobs w (<[job_id := job']> (jobs w)), env).
Proof. intros Hj. unfold _update_job, raising. simpl. by rewrite Hj. Qed.

Lemma run_mark_delivering job_id w env :
  run (mark_delivering job_id) w env
  = Some (inr tt,
          match jobs w !! job_id with
          | Some job =>
              with_jobs w (<[job_id := assign (assign job (status_ delivering))
                                         (updated_at_ (now w))]> (jobs w))
          | None => w
          end, env).
Proof.
  unfold mark_delivering, perform. simpl.
  destruct (jobs w !! job_id); simpl; [done|]. by rewrite with_jobs_id.
Qed.

Lemma run_mark_downloaded job_id w env :
  run (mark_downloaded job_id) w env
  = Some (inr tt,
          match jobs w !! job_id with
          | Some job =>
              with_jobs w (<[job_id := assign (assign job (status_ downloaded))
                                         (updated_at_ (now w))]> (jobs w))
          | None => w
          end, env).
Proof.
  unfold mark_downloaded, perform. simpl.
  destruct (jobs w !! job_id); simpl; [done|]. by rewrite with_jobs_id.
Qed.

Lemma run_mark_file_consumed_absent job_id w env :
  jobs w !! job_id = None ->
  run (mark_file_consumed job_id) w env = Some (inr tt, w, env).
Proof.
  intros Hj. unfold mark_file_consumed, perform. simpl. rewrite Hj. simpl.
  by rewrite with_jobs_id.
Qed.

(** C5, as the code has it: on an absent job identifier the field update
    [_update_job] raises [KeyError] (not found) and changes nothing, while
    [mark_delivering], [mark_downloaded] and [mark_file_consumed], which
    write to the job under the lock themselves, return normally and change
    nothing. *)
Theorem absent_job_update_raises_marks_return job_id updates w env :
  jobs w !! job_id = None ->
  run (_update_job job_id updates) w env = Some (inl (KeyError job_id), w, env)
  /\ run (mark_delivering job_id) w env = Some (inr tt, w, env)
  /\ run (mark_downloaded job_id) w env = Some (inr tt, w, env)
  /\ run (mark_file_consumed job_id) w env = Some (inr tt, w, env).
Proof.
  intros Hj. split; [by apply run_update_job_absent|].
  rewrite run_mark_delivering, run_mark_downloaded, Hj.
  by rewrite run_mark_file_consumed_absent.
Qed.

Lemma absent_job_update_raises_marks_return_witness :
  run (_update_job "missing" [status_ failed]) empty_world []
    = Some (inl (KeyError "missing"), empty_world, [])
  /\ run (mark_delivering "missing") empty_world [] = Some (inr tt, empty_world, [])
  /\ run (mark_downloaded "missing") empty_world [] = Some (inr tt, empty_world, [])
  /\ run (mark_file_consumed "missing") empty_world [] = Some (inr tt, empty_world, []).
Proof. apply absent_job_update_raises_marks_return. reflexivity. Defined.

(** C5 as stated fails: [mark_delivering] on an identifier the store does
    not hold raises nothing. *)
Lemma mark_delivering_absent_is_silent :
  jobs empty_world !! "missing" = None
  /\ ~ (exists exc w' env',
          run (mark_delivering "missing") empty_world [] = Some (inl exc, w', env')).
Proof.
  split; [reflexivity|]. intros (exc & w' & env' & H).
  rewrite run_mark_delivering in H. discriminate H.
Qed.

(** ** The delivery endpoint *)

Section Delivery.
Context {lib : PyLib}.

Lemma get_job_raises P job_id : raises_only P (get_job job_id).
Proof. apply raises_only_perform. Qed.

Lemma mark_delivering_raises P job_id : raises_only P (mark_delivering job_id).
Proof. apply raises_only_perform. Qed.

Lemma mark_downloaded_raises P job_id : raises_only P (mark_downloaded job_id).
Proof. apply raises_only_perform. Qed.

Lemma mark_file_consumed_raises P job_id : raises_only P (mark_file_consumed job_id).
Proof. apply raises_only_perform. Qed.

Lemma update_job_raises job_id updates : raises_only not_http (_update_job job_id updates).
Proof.
  constructor. intros e w x w' He. simpl in He.
  destruct (jobs w !! job_id); injection He as <- _; by constructor.
Qed.

Lemma stat_size_raises p : raises_only not_http (raising (StatSize p)).
Proof.
  constructor. intros e w x w' He. simpl in He.
  destruct (fs w !! p) as [[]|]; injection He as <- _; by constructor.
Qed.

Lemma read_bytes_raises p : raises_only not_http (raising (ReadBytes p)).
Proof.
  constructor. intros e w x w' He. simpl in He.
  destruct (fs w !! p) as [[]|]; injection He as <- _; by constructor.
Qed.

Lemma delete_remote_file_raises job_id : raises_only not_http (delete_remote_file job_id).
Proof.
  unfold delete_remote_file. apply raises_only_bind; [apply get_job_raises|].
  intros [job|]; [|constructor].
  destruct (truthy _); [|constructor].
  apply raises_only_bind; [apply raises_only_perform|].
  intros [exc|[client|]]; [constructor| |constructor].
  apply raises_only_bind; [apply raises_only_perform|]. intros _.
  apply raises_only_bind; [apply update_job_raises|]. constructor.
Qed.

Lemma cleanup_after_delivery_raises job_id p :
  raises_only not_http (_cleanup_after_delivery job_id p).
Proof.
  unfold _cleanup_after_delivery.
  apply raises_only_bind; [apply raises_only_perform|]. intros _.
  apply raises_only_bind; [apply delete_remote_file_raises|]. intros _.
  apply mark_file_consumed_raises.
Qed.

(** What [download_file] does once every check has passed. *)
Lemma download_file_unfold job_id as_base64 auto_delete w env :
  run (download_file job_id as_base64 auto_delete) w env =
  match jobs w !! job_id with
  | None => Some (inl (HTTPException 404 "ไม่พบงานดาวน์โหลดนี้"), w, env)
  | Some job =>
      if bool_decide (j_status job = delivered) then
        Some (inl (HTTPException 410 "ไฟล์นี้ถูกดาวน์โหลดและลบไปแล้ว"), w, env)
      else if bool_decide (j_status job = delivering) then
        Some (inl (HTTPException 409 "ไฟล์กำลังถูกส่งให้คำขออื่น"), w, env)
      else if negb (bool_decide (j_status job ∈
                      if auto_delete then [completed] else [completed; downloaded])) then
        Some (inl (HTTPException 409
                ("งานยังไม่เสร็จสมบูรณ์ (status: " +:+ status_str (j_status job) +:+ ")")),
              w, env)
      else
        match j_output_file job with
        | None => Some (inl (HTTPException 404 "ไม่พบไฟล์ที่บันทึก"), w, env)
        | Some file_path =>
            if bool_decide (is_Some (fs w !! file_path)) then
              run (_ ← mark_delivering job_id;
                   if as_base64 then
                     file_size ← raising (StatSize file_path);
                     data ← raising (ReadBytes file_path);
                     _ ← (if auto_delete
                          then _cleanup_after_delivery job_id file_path
                          else mark_downloaded job_id);
                     Ret (json_file (name file_path) file_size
                            (default "application/octet-stream"
                               (guess_type (path_str file_path)))
                            (b64encode data))
                   else
                     Ret (FileResponse file_path (name file_path)
                            (default "application/octet-stream"
                               (guess_type (path_str file_path)))
                            (if auto_delete
                             then bg_cleanup_after_delivery job_id file_path
                             else bg_mark_downloaded job_id))) w env
            else Some (inl (HTTPException 404 "ไฟล์ถูกลบหรือย้ายไปแล้ว"), w, env)
        end
  end.
Proof.
  unfold download_file. rewrite run_bind, run_get_job.
  destruct (jobs w !! job_id) as [job|]; [|done].
  cbv beta iota zeta.
  repeat (case_bool_decide; [done|]).
  destruct (negb _); [done|].
  destruct (j_output_file job) as [file_path|]; [|done].
  rewrite run_bind. unfold perform at 1. cbn [run external exec].
  by case_bool_decide.
Qed.

Lemma allowed_elem auto_delete s :
  allowed auto_delete s <->
  s ∈ (if auto_delete then [completed] else [completed; downloaded]).
Proof.
  unfold allowed. destruct auto_delete; rewrite ?elem_of_cons, ?elem_of_nil;
    intuition congruence.
Qed.

Lemma allowed_not_locked auto_delete s :
  allowed auto_delete s -> s <> delivered /\ s <> delivering.
Proof. intros [->|[_ ->]]; done. Qed.

(** C2.  [GET /download/{job_id}/file]: an unknown job gives 404; status
    [delivered] gives 410; status [delivering] gives 409; any other status
    outside the allowed set ([completed], and [downloaded] when auto_delete
    is false) gives 409 with the status in the message; a recorded path that
    is not on disk gives 404; and a response is produced only when the job
    exists, its status is allowed and its recorded file is on disk. *)
Theorem download_file_gate job_id as_base64 auto_delete w env :
  let r := run (download_file job_id as_base64 auto_delete) w env in
  (jobs w !! job_id = None ->
   r = Some (inl (HTTPException 404 "ไม่พบงานดาวน์โหลดนี้"), w, env))
  /\ (forall job, jobs w !! job_id = Some job ->
       (j_status job = delivered ->
        r = Some (inl (HTTPException 410 "ไฟล์นี้ถูกดาวน์โหลดและลบไปแล้ว"), w, env))
       /\ (j_status job = delivering ->
           r = Some (inl (HTTPException 409 "ไฟล์กำลังถูกส่งให้คำขออื่น"), w, env))
       /\ (j_status job <> delivered -> j_status job <> delivering ->
           ~ allowed auto_delete (j_status job) ->
           r = Some (inl (HTTPException 409
                       ("งานยังไม่เสร็จสมบูรณ์ (status: "
                        +:+ status_str (j_status job) +:+ ")")), w, env))
       /\ (allowed auto_delete (j_status job) ->
           forall file_path, j_output_file job = Some file_path ->
           fs w !! file_path = None ->
           r = Some (inl (HTTPException 404 "ไฟล์ถูกลบหรือย้ายไปแล้ว"), w, env)))
  /\ (forall resp w' env', r = Some (inr resp, w', env') ->
       exists job file_path,
         jobs w !! job_id = Some job /\ allowed auto_delete (j_status job)
         /\ j_output_file job = Some file_path /\ is_Some (fs w !! file_path)).
Proof.
  intros r; subst r. rewrite download_file_unfold. split; [|split].
  - by intros ->.
  - intros job Hj. rewrite Hj. split; [|split; [|split]].
    + intros Hs. by rewrite Hs.
    + intros Hs. by rewrite Hs.
    + intros H1 H2 H3.
      rewrite (bool_decide_eq_false_2 _ H1), (bool_decide_eq_false_2 _ H2).
      rewrite allowed_elem in H3. by rewrite (bool_decide_eq_false_2 _ H3).
    + intros Ha file_path Ho Hfs.
      destruct (allowed_not_locked _ _ Ha) as [H1 H2].
      rewrite (bool_decide_eq_false_2 _ H1), (bool_decide_eq_false_2 _ H2).
      rewrite allowed_elem in Ha. rewrite (bool_decide_eq_true_2 _ Ha), Ho. simpl.
      rewrite bool_decide_eq_false_2; [done|]. rewrite Hfs. by intros [? ?].
  - intros resp w' env'.
    destruct (jobs w !! job_id) as [job|]; [|done].
    repeat (case_bool_decide; [done|]).
    case_bool_decide as Ha; [|done]. simpl.
    destruct (j_output_file job) as [file_path|] eqn:Ho; [|done].
    case_bool_decide as Hfs; [|done]. intros _.
    exists job, file_path. rewrite allowed_elem. auto.
Qed.

(** C10.  A delivery request that is turned away with an HTTP error (404,
    409 or 410) has changed nothing: the world after it, job table
    included, is the world before it. *)
Theorem rejected_delivery_changes_nothing job_id as_base64 auto_delete w env
    status_code detail w' env' :
  run (download_file job_id as_base64 auto_delete) w env
    = Some (inl (HTTPException status_code detail), w', env') ->
  w' = w /\ env' = env
  /\ (status_code = 404 \/ status_code = 409 \/ status_code = 410).
Proof.
  rewrite download_file_unfold.
  destruct (jobs w !! job_id) as [job|]; [|intros [= <- <- <- <-]; by auto].
  repeat (case_bool_decide; [intros [= <- <- <- <-]; by auto|]).
  destruct (negb _); [intros [= <- <- <- <-]; by auto|].
  destruct (j_output_file job) as [file_path|]; [|intros [= <- <- <- <-]; by auto].
  case_bool_decide; [|intros [= <- <- <- <-]; by auto].
  intros Hrun. exfalso.
  eapply (raises_only_run not_http) in Hrun; [done|].
  apply raises_only_bind; [apply mark_delivering_raises|]. intros _.
  destruct as_base64; [|constructor].
  apply raises_only_bind; [apply stat_size_raises|]. intros file_size.
  apply raises_only_bind; [apply read_bytes_raises|]. intros data.
  apply raises_only_bind; [|constructor].
  destruct auto_delete; [apply cleanup_after_delivery_raises|apply mark_downloaded_raises].
Qed.

End Delivery.

(** ** The submission endpoint *)

Section Submission.
Context {lib : PyLib}.

Lemma valid_formats_keys :
  valid_formats = ["auto"; "merge_best"; "video_only"; "audio_only"].
Proof. reflexivity. Qed.

Lemma presets_get_None key l :
  key ∉ List.map fst l -> presets_get key l = None.
Proof.
  induction l as [|[k v] l IH]; [done|]. simpl. rewrite not_elem_of_cons.
  intros [Hne Hnin]. destruct (String.eqb_spec k key); [congruence|auto].
Qed.

Lemma resolve_format_choice_passthrough format_choice :
  format_choice ∉ valid_formats -> format_choice <> "" ->
  resolve_format_choice format_choice = format_choice.
Proof.
  intros Hnin Hne. unfold resolve_format_choice.
  rewrite (presets_get_None _ _ Hnin). by destruct format_choice.
Qed.

Lemma run_lift {A B} (r : exn + A) (k : A -> prog B) w env :
  run (lift r ≫= k) w env =
  match r with
  | inl exc => Some (inl exc, w, env)
  | inr x => run (k x) w env
  end.
Proof. by destruct r. Qed.

Lemma run_is_file {B} p (k : bool -> prog B) w env :
  run (is_file p ≫= k) w env =
  match stat_error p with
  | Some exc => Some (inl exc, w, env)
  | None => run (k (is_file_node (fs w !! p))) w env
  end.
Proof. unfold is_file. by destruct (stat_error p). Qed.

Lemma run_is_dir {B} p (k : bool -> prog B) w env :
  run (is_dir p ≫= k) w env =
  match stat_error p with
  | Some exc => Some (inl exc, w, env)
  | None => run (k (is_dir_node (fs w !! p))) w env
  end.
Proof. unfold is_dir. by destruct (stat_error p). Qed.

Lemma run_resolve_ffmpeg_location custom_path w env :
  run (resolve_ffmpeg_location custom_path) w env =
  Some (match truthy custom_path with
        | Some custom =>
            match expanduser (Path custom) with
            | inl exc => inl exc
            | inr expanded =>
                match resolve expanded with
                | inl exc => inl exc
                | inr candidate =>
                    match stat_error candidate with
                    | Some exc => inl exc
                    | None =>
                        if is_file_node (fs w !! candidate)
                        then inr (Some (path_str (parent candidate)))
                        else if is_dir_node (fs w !! candidate)
                             then inr (Some (path_str candidate))
                             else inl (FileNotFoundError
                                         ("ไม่พบตำแหน่ง FFmpeg ที่ระบุ: "
                                          +:+ path_str candidate))
                    end
                end
            end
        | None =>
            if bool_decide (is_Some (fs w !! DEFAULT_FFMPEG_DIR))
            then match resolve DEFAULT_FFMPEG_DIR with
                 | inl exc => inl exc
                 | inr resolved => inr (Some (path_str resolved))
                 end
            else inr None
        end, w, env).
Proof.
  unfold resolve_ffmpeg_location. destruct (truthy custom_path) as [custom|].
  - rewrite run_lift. destruct (expanduser _) as [exc|expanded]; [done|].
    rewrite run_lift. destruct (resolve _) as [exc|candidate]; [done|].
    rewrite run_is_file. destruct (stat_error candidate) as [exc|] eqn:Hstat; [done|].
    destruct (is_file_node _); [done|].
    rewrite run_is_dir, Hstat. by destruct (is_dir_node _).
  - rewrite run_bind. unfold perform at 1. cbn [run external exec].
    case_bool_decide; [|done]. rewrite run_lift. by destruct (resolve _).
Qed.

Lemma run_create_job url output_path format_choice ffmpeg_location expanded hex w env :
  hex ∉ issued w ->
  expanduser (Path (default "." (truthy output_path))) = inr expanded ->
  let job := new_job hex url expanded format_choice ffmpeg_location (now w) in
  run (create_job url output_path format_choice ffmpeg_location) w (uuid4_returns hex :: env)
  = Some (inr job, with_jobs (issue hex w) (<[hex := job]> (jobs w)), env).
Proof.
  intros Hfresh Hexp. unfold create_job. rewrite run_bind. unfold perform at 1.
  cbn [run external exec]. rewrite (bool_decide_eq_false_2 _ Hfresh).
  by rewrite run_lift, Hexp.
Qed.


End Submission.

(** ** Path recovery *)

Lemma append_nil_l s : "" +:+ s = s.
Proof. reflexivity. Qed.

Lemma append_cons c s t : String c s +:+ t = String c (s +:+ t).
Proof. reflexivity. Qed.






Lemma digit_not_dot c : is_digit c = true -> Ascii.eqb c "." = false.
Proof. destruct (Ascii.eqb_spec c "."); [by subst|done]. Qed.

Lemma word_not_dot c : is_word c = true -> Ascii.eqb c "." = false.
Proof. destruct (Ascii.eqb_spec c "."); [by subst|done]. Qed.













Section PathRecovery.
Context {lib : PyLib}.







Lemma run_path_exists {R} p (k : bool -> prog R) w env :
  run (perform (PathExists p) ≫= k) w env
  = run (k (bool_decide (is_Some (fs w !! p)))) w env.
Proof. reflexivity. Qed.



End PathRecovery.

(** ** What a program may change *)

Lemma within_run {R} (G : world -> world -> Prop) (p : prog R) w env r w' env' :
  (forall w, G w w) -> (forall w1 w2 w3, G w1 w2 -> G w2 w3 -> G w1 w3) ->
  within G p -> run p w env = Some (r, w', env') -> G w w'.
Proof.
  intros Hrefl Htrans Hp. revert w env.
  induction Hp as [r0|exc|X a k Ha Hk IH]; intros w env Hrun; simpl in Hrun.
  - by injection Hrun as _ <- _.
  - by injection Hrun as _ <- _.
  - destruct (external a).
    + destruct env as [|e env]; [done|].
      destruct (exec a (Some e) w) as [[x w1]|] eqn:He; [|done]. eauto.
    + destruct (exec a None w) as [[x w1]|] eqn:He; [|done]. eauto.
Qed.

Lemma within_bind {A B} G (p : prog A) (f : A -> prog B) :
  within G p -> (forall x, within G (f x)) -> within G (p ≫= f).
Proof.
  intros Hp Hf. induction Hp as [r|exc|X a k Ha Hk IH].
  - apply Hf.
  - constructor.
  - change (Do a k ≫= f) with (Do a (fun x => k x ≫= f)). by constructor.
Qed.

Lemma within_try_except {A} G (p : prog A) (handler : exn -> prog A) :
  within G p -> (forall exc, within G (handler exc)) -> within G (try_except p handler).
Proof.
  intros Hp Hh. induction Hp as [r|exc|X a k Ha Hk IH]; simpl.
  - constructor.
  - apply Hh.
  - by constructor.
Qed.

Lemma exec_quiet {X} (a : action X) e w x w' :
  quiet a = true -> exec a e w = Some (x, w') -> same_store w w'.
Proof.
  unfold same_store. intros Hl He. destruct a; try discriminate Hl; simpl in He;
    repeat match type of He with
           | context [match ?t with _ => _ end] => destruct t; try discriminate He
           | context [let '(_, _) := ?t in _] => destruct t
           end; by injection He as _ <-.
Qed.

Lemma within_quiet {X} (a : action X) :
  quiet a = true -> within same_store (perform a).
Proof.
  intros Hl. constructor; [|constructor]. intros e w x w'. by apply exec_quiet.
Qed.

Lemma within_raising_quiet {X} (a : action (exn + X)) :
  quiet a = true -> within same_store (raising a).
Proof.
  intros Hl. constructor.
  - intros e w x w'. by apply exec_quiet.
  - intros [exc|x]; constructor.
Qed.

Lemma same_store_refl w : same_store w w.
Proof. done. Qed.

Lemma same_store_trans w1 w2 w3 : same_store w1 w2 -> same_store w2 w3 -> same_store w1 w3.
Proof. unfold same_store. intros (-> & -> & ->) (-> & -> & ->). done. Qed.

(** ** The worker *)

Section Worker.
Context {lib : PyLib}.

Lemma first_existing_frame candidates : within same_store (first_existing candidates).
Proof.
  induction candidates as [|c cs IH]; [constructor|]. cbn [first_existing].
  apply within_bind; [by apply within_quiet|]. intros []; [constructor|done].
Qed.

Lemma within_lift {A} G (r : exn + A) : within G (lift r).
Proof. destruct r; constructor. Qed.

Lemma is_file_frame p : within same_store (is_file p).
Proof. unfold is_file. destruct (stat_error p); [constructor|by apply within_quiet]. Qed.

Lemma is_dir_frame p : within same_store (is_dir p).
Proof. unfold is_dir. destruct (stat_error p); [constructor|by apply within_quiet]. Qed.

Lemma resolve_ffmpeg_location_frame custom_path :
  within same_store (resolve_ffmpeg_location custom_path).
Proof.
  unfold resolve_ffmpeg_location. destruct (truthy custom_path).
  - apply within_bind; [apply within_lift|]. intros expanded.
    apply within_bind; [apply within_lift|]. intros candidate.
    apply within_bind; [apply is_file_frame|]. intros []; [constructor|].
    apply within_bind; [apply is_dir_frame|]. intros []; constructor.
  - apply within_bind; [by apply within_quiet|]. intros []; [|constructor].
    apply within_bind; [apply within_lift|]. constructor.
Qed.

Lemma resolve_final_file_frame file_path : within same_store (_resolve_final_file file_path).
Proof.
  unfold _resolve_final_file.
  apply within_bind; [by apply within_quiet|]. intros []; [constructor|].
  cbv zeta. apply within_bind; [unfold with_name; destruct (name _); constructor|].
  intros alt_path. apply within_bind; [by apply within_quiet|]. intros []; [constructor|].
  apply within_bind; [by apply within_raising_quiet|]. intros candidates.
  apply within_bind; [apply first_existing_frame|]. intros []; constructor.
Qed.

(** Extraction leaves the job table alone. *)
Lemma download_video_frame url output_path format_choice ffmpeg_location :
  within same_store (download_video url output_path format_choice ffmpeg_location).
Proof.
  unfold download_video.
  apply within_bind; [apply within_lift|]. intros expanded.
  apply within_bind; [apply within_lift|]. intros output_dir.
  apply within_bind; [by apply within_quiet|]. intros [exc|]; [constructor|]. cbv zeta.
  apply within_bind; [apply resolve_ffmpeg_location_frame|]. intros resolved_ffmpeg.
  apply within_bind; [by apply within_raising_quiet|]. intros [hooked i].
  apply within_bind.
  - destruct hooked; [constructor|]. unfold _pick_path_from_info.
    destruct i; [apply first_existing_frame|constructor].
  - intros [final_path|]; [apply resolve_final_file_frame|constructor].
Qed.

Lemma run_download_video_frame url output_path format_choice ffmpeg_location w env r w' env' :
  run (download_video url output_path format_choice ffmpeg_location) w env
    = Some (r, w', env') ->
  jobs w' = jobs w /\ now w' = now w.
Proof.
  intros Hrun. cut (same_store w w'); [unfold same_store; tauto|]. revert Hrun.
  apply (within_run same_store); auto using same_store_refl, download_video_frame.
  apply same_store_trans.
Qed.

(** The job table after [process_job] has caught a failure of the extraction. *)
Lemma run_process_job_failure job_id job w env exc w2 env2 :
  jobs w !! job_id = Some job ->
  run (download_video (j_url job) (j_output_path job) (j_format job)
         (j_ffmpeg_location job)) (started w job_id job) env
    = Some (inl exc, w2, env2) ->
  exists w3 job3,
    run (process_job job_id) w env = Some (inr tt, w3, env2)
    /\ jobs w3 !! job_id = Some job3
    /\ j_status job3 = failed
    /\ j_error job3 = Some (exn_str exc)
    /\ j_output_file job3 = j_output_file job
    /\ remote_null job3.
Proof.
  intros Hj Hdl. unfold process_job.
  rewrite run_bind, run_get_job, Hj. cbv beta iota.
  rewrite run_bind, (run_update_job_present _ _ _ _ _ Hj). cbv beta iota zeta.
  fold (started w job_id job).
  rewrite run_try_except, run_bind, Hdl. cbv beta iota.
  destruct (run_download_video_frame _ _ _ _ _ _ _ _ _ Hdl) as [Hjobs Hnow].
  assert (jobs w2 !! job_id
          = Some (assign (update job [status_ downloading; error_ None])
                    (updated_at_ (now w)))) as Hj2.
  { rewrite Hjobs. unfold started. simpl. apply lookup_insert_eq. }
  rewrite run_bind, (run_update_job_present _ _ _ _ _ Hj2). cbv beta iota zeta.
  cbn [run]. eexists _, _. split; [reflexivity|].
  split; [simpl; apply lookup_insert_eq|].
  destruct job; simpl; repeat split.
Qed.

(** The final [_update_job] of [process_job] has run on the job [Hj] names. *)
Ltac written Hj :=
  rewrite run_bind, (run_update_job_present _ _ _ _ _ Hj); cbv beta iota zeta;
  cbn [run]; eexists _, _; split; [reflexivity|];
  split; [simpl; apply lookup_insert_eq|];
  match goal with job : Job |- _ => destruct job end; simpl; repeat split; done.

Lemma truthy_text text :
  truthy (Some text) = match text with "" => None | _ => Some text end.
Proof. by destruct text. Qed.

(** When the extraction succeeds and the relay fails (the client cannot be
    built, or the upload raises), [process_job] returns normally and leaves
    the job in status [completed] with [output_file] and [download_url]
    set.  The text of the failure is written to [error] under the guard
    [if remote_error:], which an empty text does not pass. *)
Lemma process_job_relay_failure job_id job w env output_file w2 env2 exc env3 :
  jobs w !! job_id = Some job ->
  run (download_video (j_url job) (j_output_path job) (j_format job)
         (j_ffmpeg_location job)) (started w job_id job) env
    = Some (inr output_file, w2, env2) ->
  (env2 = drive_client_returns (inl exc) :: env3
   \/ exists client,
        env2 = drive_client_returns (inr (Some client)) :: upload_returns (inl exc) :: env3) ->
  exists w3 job3,
    run (process_job job_id) w env = Some (inr tt, w3, env3)
    /\ jobs w3 !! job_id = Some job3
    /\ j_status job3 = completed
    /\ j_output_file job3 = Some output_file
    /\ j_download_url job3 = Some ("/download/" +:+ job_id +:+ "/file")
    /\ (exn_str exc <> "" ->
        j_error job3 = Some ("Google Drive upload failed: " +:+ exn_str exc))
    /\ (exn_str exc = "" -> j_error job3 = None).
Proof.
  intros Hj Hdl Henv. unfold process_job.
  rewrite run_bind, run_get_job, Hj. cbv beta iota.
  rewrite run_bind, (run_update_job_present _ _ _ _ _ Hj). cbv beta iota zeta.
  fold (started w job_id job).
  rewrite run_try_except, run_bind, Hdl. cbv beta iota.
  destruct (run_download_video_frame _ _ _ _ _ _ _ _ _ Hdl) as [Hjobs Hnow].
  assert (jobs w2 !! job_id
          = Some (assign (update job [status_ downloading; error_ None])
                    (updated_at_ (now w)))) as Hj2.
  { rewrite Hjobs. unfold started. simpl. apply lookup_insert_eq. }
  rewrite run_bind. unfold perform at 1.
  destruct Henv as [->|[client ->]]; cbn [run external exec]; cbv beta iota zeta.
  - rewrite run_bind. cbn [run]. rewrite truthy_text.
    destruct (exn_str exc) as [|c text] eqn:Htext; written Hj2.
  - rewrite run_bind, run_bind. unfold perform at 1. cbn [run external exec].
    rewrite truthy_text.
    destruct (exn_str exc) as [|c text] eqn:Htext; written Hj2.
Qed.

End Worker.

(** ** Delivered jobs point at no artifact *)

Lemma within_weaken {R} (G G' : world -> world -> Prop) (p : prog R) :
  (forall w w', G w w' -> G' w w') -> within G p -> within G' p.
Proof.
  intros HG Hp. induction Hp as [r|exc|X a k Ha Hk IH]; constructor; eauto.
Qed.

Lemma within_inv {R} G (p : prog R) :
  within G p ->
  match p with
  | Do a k =>
      (forall e w x w', exec a e w = Some (x, w') -> G w w')
      /\ (forall x, within G (k x))
  | _ => True
  end.
Proof. by destruct 1. Qed.

Lemma same_store_keeps w w' : same_store w w' -> keeps delivered_bare w w'.
Proof. unfold keeps, delivered_bare. intros (-> & _ & _). auto. Qed.

Lemma framed_keeps {R} (p : prog R) : within same_store p -> within (keeps delivered_bare) p.
Proof. apply within_weaken, same_store_keeps. Qed.

Lemma quiet_keeps {X} (a : action X) :
  quiet a = true -> within (keeps delivered_bare) (perform a).
Proof. intros. by apply framed_keeps, within_quiet. Qed.

Lemma uuid4_keeps : within (keeps delivered_bare) (perform Uuid4).
Proof.
  constructor; [|constructor]. intros e w x w' He. simpl in He.
  destruct e as [[]|]; try done. case_bool_decide; [done|].
  injection He as _ <-. by intros Hinv.
Qed.

(** A critical section that reads, or writes one job that qualifies. *)
Lemma locked_keeps {X} (body : Z -> gmap string Job -> X * gmap string Job) :
  (forall t js,
     (forall job_id job, js !! job_id = Some job -> bare_if_delivered job) ->
     snd (body t js) = js
     \/ exists job_id job, bare_if_delivered job /\ snd (body t js) = <[job_id := job]> js) ->
  forall e w x w', exec (Locked body) e w = Some (x, w') -> keeps delivered_bare w w'.
Proof.
  intros Hbody e w x w' He Hinv. simpl in He.
  specialize (Hbody (now w) (jobs w) Hinv). destruct (body (now w) (jobs w)) as [x' js].
  injection He as _ <-. simpl in Hbody. intros job_id job. simpl.
  destruct Hbody as [->|(job_id' & job' & Hok & ->)]; [apply Hinv|].
  rewrite lookup_insert. case_decide; [by intros [= <-]|apply Hinv].
Qed.

Lemma get_job_keeps job_id : within (keeps delivered_bare) (get_job job_id).
Proof.
  constructor; [|constructor]. apply locked_keeps. intros; by left.
Qed.

Lemma list_jobs_keeps : within (keeps delivered_bare) list_jobs.
Proof.
  constructor; [|constructor]. apply locked_keeps. intros; by left.
Qed.

Lemma update_job_keeps job_id updates :
  (forall job t, bare_if_delivered job ->
                 bare_if_delivered (assign (update job updates) (updated_at_ t))) ->
  within (keeps delivered_bare) (_update_job job_id updates).
Proof.
  intros Hok. constructor; [|intros [exc|job]; constructor].
  apply locked_keeps. intros t js Hinv.
  destruct (js !! job_id) as [job|] eqn:Hj; [|by left].
  right. eexists _, _. split; [|reflexivity]. apply Hok. by apply (Hinv job_id).
Qed.

(** A mark that moves the job to [status], clearing the fields in [cleared]. *)
Lemma mark_keeps job_id (mark : Job -> Job) :
  (forall job t, bare_if_delivered (assign (mark job) (updated_at_ t))) ->
  within (keeps delivered_bare)
    (perform (Locked (fun time js =>
       match js !! job_id with
       | None => (tt, js)
       | Some job => (tt, <[job_id := assign (mark job) (updated_at_ time)]> js)
       end))).
Proof.
  intros Hok. constructor; [|constructor].
  apply locked_keeps. intros t js Hinv.
  destruct (js !! job_id) as [job|]; [|by left].
  right. eexists _, _. split; [|reflexivity]. apply Hok.
Qed.

Lemma mark_delivering_keeps job_id : within (keeps delivered_bare) (mark_delivering job_id).
Proof.
  apply (mark_keeps job_id (fun job => assign job (status_ delivering))).
  by intros [] t.
Qed.

Lemma mark_downloaded_keeps job_id : within (keeps delivered_bare) (mark_downloaded job_id).
Proof.
  apply (mark_keeps job_id (fun job => assign job (status_ downloaded))).
  by intros [] t.
Qed.

Lemma mark_file_consumed_keeps job_id :
  within (keeps delivered_bare) (mark_file_consumed job_id).
Proof.
  apply (mark_keeps job_id
           (fun job =>
              assign (assign (assign (assign (assign (assign job
                (status_ delivered)) (output_file_ None)) (download_url_ None))
                (remote_file_id_ None)) (remote_file_url_ None))
                (remote_file_view_url_ None))).
  intros [] t _. by repeat split.
Qed.

Section Invariant.
Context {lib : PyLib}.

Local Abbreviation safe := (within (keeps delivered_bare)).

Ltac quiet := apply quiet_keeps; reflexivity.

Lemma create_job_keeps url output_path format_choice ffmpeg_location :
  safe (create_job url output_path format_choice ffmpeg_location).
Proof.
  unfold create_job.
  apply within_bind; [apply uuid4_keeps|]. intros job_id.
  apply within_bind; [apply within_lift|]. intros expanded.
  apply within_bind; [quiet|]. intros created.
  apply within_bind; [quiet|]. intros updated.
  apply within_bind; [|constructor].
  constructor; [|constructor]. apply locked_keeps. intros t js _.
  right. eexists _, _. split; [|reflexivity]. done.
Qed.

Lemma delete_remote_file_keeps job_id : safe (delete_remote_file job_id).
Proof.
  unfold delete_remote_file. apply within_bind; [apply get_job_keeps|].
  intros [job|]; [|constructor]. destruct (truthy _); [|constructor].
  apply within_bind; [quiet|].
  intros [exc|[client|]]; [constructor| |constructor].
  apply within_bind; [quiet|]. intros _.
  apply within_bind; [|constructor].
  apply update_job_keeps. intros [] t Hok Hs. destruct (Hok Hs) as (? & ? & _).
  by repeat split.
Qed.

Lemma cleanup_after_delivery_keeps job_id output_path :
  safe (_cleanup_after_delivery job_id output_path).
Proof.
  unfold _cleanup_after_delivery.
  apply within_bind; [quiet|]. intros _.
  apply within_bind; [apply delete_remote_file_keeps|]. intros _.
  apply mark_file_consumed_keeps.
Qed.

Lemma process_job_keeps job_id : safe (process_job job_id).
Proof.
  unfold process_job. apply within_bind; [apply get_job_keeps|].
  intros [job|]; [|constructor].
  apply within_bind; [apply update_job_keeps; by intros [] t|]. intros _.
  apply within_try_except.
  - apply within_bind; [apply framed_keeps, download_video_frame|]. intros output_file.
    cbv zeta. apply within_bind; [quiet|]. intros r.
    destruct r as [exc|[client|]]; cbv beta iota.
    + apply within_bind; [constructor|]. intros [remote_details remote_error].
      apply within_bind; [|constructor]. apply update_job_keeps.
      destruct remote_details, (truthy remote_error); by intros [] t.
    + apply within_bind.
      * apply within_bind; [quiet|]. intros [exc|details]; constructor.
      * intros [remote_details remote_error].
        apply within_bind; [|constructor]. apply update_job_keeps.
        destruct remote_details, (truthy remote_error); by intros [] t.
    + apply within_bind; [constructor|]. intros [remote_details remote_error].
      apply within_bind; [|constructor]. apply update_job_keeps.
      destruct remote_details, (truthy remote_error); by intros [] t.
  - intros exc. apply within_bind; [|constructor].
    apply update_job_keeps. by intros [] t.
Qed.

Lemma resolve_ffmpeg_location_keeps custom_path : safe (resolve_ffmpeg_location custom_path).
Proof. apply framed_keeps, resolve_ffmpeg_location_frame. Qed.

Lemma enqueue_download_keeps payload : safe (enqueue_download payload).
Proof.
  unfold enqueue_download. destruct (negb _); [constructor|].
  apply within_bind.
  - destruct (truthy _); [|constructor].
    apply within_try_except; [apply resolve_ffmpeg_location_keeps|].
    intros []; constructor.
  - intros resolved_ffmpeg. apply within_bind; [apply create_job_keeps|]. constructor.
Qed.

Lemma download_file_keeps job_id as_base64 auto_delete :
  safe (download_file job_id as_base64 auto_delete).
Proof.
  unfold download_file. apply within_bind; [apply get_job_keeps|].
  intros [job|]; [|constructor]. cbv zeta.
  repeat (destruct (bool_decide _); [constructor|]).
  destruct (negb _); [constructor|].
  destruct (j_output_file job) as [file_path|]; [|constructor].
  apply within_bind; [quiet|]. intros []; [|constructor]. cbn [negb].
  apply within_bind; [apply mark_delivering_keeps|]. intros _.
  destruct as_base64; [|constructor].
  apply within_bind; [by apply framed_keeps, within_raising_quiet|]. intros file_size.
  apply within_bind; [by apply framed_keeps, within_raising_quiet|]. intros data.
  apply within_bind; [|constructor].
  destruct auto_delete; [apply cleanup_after_delivery_keeps|apply mark_downloaded_keeps].
Qed.

Lemma manual_cleanup_keeps job_id : safe (manual_cleanup job_id).
Proof.
  unfold manual_cleanup. apply within_bind; [apply get_job_keeps|].
  intros [job|]; [|constructor]. cbv zeta.
  assert (safe (_ ← delete_remote_file job_id;
                _ ← (if bool_decide (j_status job ∈ [completed; delivering; downloaded])
                     then mark_file_consumed job_id
                     else Ret tt);
                Ret (json_message "ไฟล์ไม่พบหรือถูกลบไปแล้ว" None))) as Hrest.
  { apply within_bind; [apply delete_remote_file_keeps|]. intros _.
    apply within_bind; [|constructor].
    destruct (bool_decide _); [apply mark_file_consumed_keeps|constructor]. }
  destruct (j_output_file job) as [file_path|]; [|exact Hrest].
  apply within_bind; [quiet|]. intros []; [|exact Hrest].
  apply within_bind; [apply cleanup_after_delivery_keeps|]. constructor.
Qed.

Lemma endpoint_keeps r : safe (endpoint r).
Proof.
  destruct r; simpl.
  - constructor.
  - apply enqueue_download_keeps.
  - unfold get_status. apply within_bind; [apply get_job_keeps|]. intros []; constructor.
  - unfold list_jobs_handler. apply within_bind; [apply list_jobs_keeps|]. constructor.
  - apply download_file_keeps.
  - apply manual_cleanup_keeps.
Qed.

Lemma run_background_keeps bg : safe (run_background bg).
Proof.
  destruct bg; simpl.
  - apply process_job_keeps.
  - apply cleanup_after_delivery_keeps.
  - apply mark_downloaded_keeps.
Qed.

Lemma serve_keeps r : safe (serve r).
Proof.
  unfold serve. apply within_try_except.
  - apply within_bind; [apply endpoint_keeps|]. intros resp.
    destruct resp as [| ? ? ? ? ? bg | | | | p filename media_type bg |];
      [constructor| |constructor|constructor|constructor| |constructor].
    + apply within_bind; [|constructor].
      apply within_try_except; [apply run_background_keeps|constructor].
    + apply within_bind; [by apply framed_keeps, within_raising_quiet|]. intros data.
      apply within_bind; [|constructor].
      apply within_try_except; [apply run_background_keeps|constructor].
  - intros []; constructor.
Qed.

Lemma Forall_task_lookup (P : prog received -> Prop) l i p :
  Forall P l -> l !! i = Some p -> P p.
Proof.
  intros Hl. revert i. induction Hl as [|q l Hq Hl IH]; intros [|i] Hi; try done.
  - by injection Hi as <-.
  - by apply (IH i).
Qed.

Lemma Forall_task_insert (P : prog received -> Prop) l i p :
  Forall P l -> P p -> Forall P (<[i := p]> l).
Proof.
  intros Hl Hp. revert i. induction Hl as [|q l Hq Hl IH]; intros [|i]; simpl;
    try constructor; auto.
Qed.

Lemma Forall_task_snoc (P : prog received -> Prop) l p :
  Forall P l -> P p -> Forall P (l ++ [p])%list.
Proof. intros Hl Hp. induction Hl; simpl; constructor; auto. Qed.

(** The invariant survives every event of the server. *)
Lemma sys_step_keeps l s s' :
  Forall safe (tasks s) -> delivered_bare (sys_world s) ->
  sys_step l s = Some s' ->
  Forall safe (tasks s') /\ delivered_bare (sys_world s').
Proof.
  intros Htasks Hinv Hstep. destruct l as [r|i e|t|p]; simpl in Hstep.
  - injection Hstep as <-. simpl. split; [|done].
    apply Forall_task_snoc; [done|apply serve_keeps].
  - destruct (tasks s !! i) as [[r|exc|X a k]|] eqn:Hi; try done.
    destruct (exec a e (sys_world s)) as [[x w']|] eqn:He; [|done].
    injection Hstep as <-. simpl.
    pose proof (Forall_task_lookup _ _ _ _ Htasks Hi) as Hsafe.
    apply within_inv in Hsafe as [Ha Hk]. split.
    + apply Forall_task_insert; auto.
    + by apply (Ha e (sys_world s) x w').
  - injection Hstep as <-. by simpl.
  - injection Hstep as <-. by simpl.
Qed.

Lemma schedule_keeps ls s s' :
  Forall safe (tasks s) -> delivered_bare (sys_world s) ->
  schedule ls s = Some s' ->
  Forall safe (tasks s') /\ delivered_bare (sys_world s').
Proof.
  revert s. induction ls as [|l ls IH]; intros s Htasks Hinv Hrun; simpl in Hrun.
  - by injection Hrun as <-.
  - destruct (sys_step l s) as [s1|] eqn:Hstep; [|done].
    destruct (sys_step_keeps _ _ _ Htasks Hinv Hstep). eauto.
Qed.

(** In every state the server can reach, and in every state it can reach
    from there, a job whose status is [delivered] points at no artifact. *)
Lemma reachable_delivered_bare disk t events s :
  schedule events (boot disk t) = Some s ->
  delivered_bare (sys_world s)
  /\ (forall later s', schedule later s = Some s' -> delivered_bare (sys_world s')).
Proof.
  intros Hrun.
  assert (delivered_bare (sys_world (boot disk t))) as Hboot.
  { intros job_id job Hj. simpl in Hj. by rewrite lookup_empty in Hj. }
  destruct (schedule_keeps events (boot disk t) s) as [Htasks Hinv];
    [constructor|done|done|].
  split; [done|]. intros later s' Hlater.
  by destruct (schedule_keeps later s s').
Qed.

End Invariant.

(** ** Failed jobs point at no artifact *)

Lemma acts_weaken {R} (Q Q' : role -> R -> Prop) (E E' : role -> exn -> Prop) r p :
  (forall r x, Q r x -> Q' r x) -> (forall r exc, E r exc -> E' r exc) ->
  acts Q E r p -> acts Q' E' r p.
Proof.
  intros HQ HE. revert r. induction p as [x|exc|X a k IH]; intros r; simpl; auto.
  intros Hp e w x w' He. destruct (Hp e w x w' He) as (r' & Hm & Hk). eauto.
Qed.

Lemma acts_bind {A B} (Q : role -> A -> Prop) (Q' : role -> B -> Prop) E r
    (p : prog A) (f : A -> prog B) :
  acts Q E r p -> (forall r' x, Q r' x -> acts Q' E r' (f x)) -> acts Q' E r (p ≫= f).
Proof.
  intros Hp Hf. revert r Hp. induction p as [x|exc|X a k IH]; intros r Hp.
  - by apply Hf.
  - exact Hp.
  - change (Do a k ≫= f) with (Do a (fun x => k x ≫= f)).
    intros e w x w' He. destruct (Hp e w x w' He) as (r' & Hm & Hk). eauto.
Qed.

Lemma acts_try_except {A} (Q : role -> A -> Prop) E E' r (p : prog A) handler :
  acts Q E r p -> (forall r' exc, E r' exc -> acts Q E' r' (handler exc)) ->
  acts Q E' r (try_except p handler).
Proof.
  intros Hp Hh. revert r Hp. induction p as [x|exc|X a k IH]; intros r Hp; simpl.
  - exact Hp.
  - by apply Hh.
  - intros e w x w' He. destruct (Hp e w x w' He) as (r' & Hm & Hk). eauto.
Qed.

Lemma moves_stays r w w' : stays r w w' -> moves r w w' r.
Proof. destruct r; by constructor. Qed.

(** A program all of whose actions leave its role as it is. *)
Lemma acts_within {R} r (p : prog R) :
  within (stays r) p -> acts (fun r' _ => r' = r) (fun r' _ => r' = r) r p.
Proof.
  induction 1 as [x|exc|X a k Ha Hk IH]; simpl; try done.
  intros e w x w' He. exists r. split; [|apply IH]. apply moves_stays. eauto.
Qed.

Lemma fades_refl job : fades job job.
Proof. unfold fades. auto 10. Qed.

Lemma same_store_stays r w w' : same_store w w' -> stays r w w'.
Proof.
  intros (Hj & _ & Hi). destruct r; simpl.
  - split; [done|]. intros job_id job'. rewrite Hj. eauto using fades_refl.
  - split; [done|]. intros job_id job'. rewrite Hj. eauto using fades_refl.
  - split; [done|]. rewrite Hj. auto.
Qed.

Lemma framed_stays {R} r (p : prog R) : within same_store p -> within (stays r) p.
Proof. apply within_weaken, same_store_stays. Qed.

Lemma quiet_stays {X} r (a : action X) : quiet a = true -> within (stays r) (perform a).
Proof. intros. by apply framed_stays, within_quiet. Qed.

Lemma raising_quiet_stays {X} r (a : action (exn + X)) :
  quiet a = true -> within (stays r) (raising a).
Proof. intros. by apply framed_stays, within_raising_quiet. Qed.

(** A critical section of a bystander: it reads, or lets one job fade. *)
Lemma locked_fades {X} (body : Z -> gmap string Job -> X * gmap string Job) e w x w' :
  (forall t js,
     snd (body t js) = js
     \/ exists job_id job job',
          js !! job_id = Some job /\ fades job job'
          /\ snd (body t js) = <[job_id := job']> js) ->
  exec (Locked body) e w = Some (x, w') -> bystander_step w w'.
Proof.
  intros Hbody He. simpl in He. specialize (Hbody (now w) (jobs w)).
  destruct (body (now w) (jobs w)) as [x' js]. injection He as _ <-. simpl in Hbody.
  split; [done|]. intros job_id job'. simpl.
  destruct Hbody as [->|(job_id' & job0 & job0' & Hj & Hf & ->)]; [eauto using fades_refl|].
  rewrite lookup_insert. case_decide as Hid.
  - subst. intros [= <-]. eauto.
  - eauto using fades_refl.
Qed.

(** A critical section of the owner of [job_id]. *)
Lemma locked_owner {X} job_id (body : Z -> gmap string Job -> X * gmap string Job)
    e w x w' :
  (forall t js,
     snd (body t js) = js
     \/ exists job',
          snd (body t js) = <[job_id := job']> js
          /\ (j_status job' = failed -> remote_null job')
          /\ (j_output_file job' = None
              \/ exists job, js !! job_id = Some job
                             /\ j_output_file job' = j_output_file job)) ->
  exec (Locked body) e w = Some (x, w') -> owner_step job_id w w'.
Proof.
  intros Hbody He. simpl in He. specialize (Hbody (now w) (jobs w)).
  destruct (body (now w) (jobs w)) as [x' js]. injection He as _ <-. simpl in Hbody.
  split; [done|]. simpl.
  destruct Hbody as [->|(job' & -> & Hf & Ho)]; [auto|]. split.
  - intros other Hne. by rewrite lookup_insert_ne.
  - right. exists job'. by rewrite lookup_insert_eq.
Qed.

Lemma stays_read {X} r (body : Z -> gmap string Job -> X * gmap string Job) e w x w' :
  (forall t js, snd (body t js) = js) ->
  exec (Locked body) e w = Some (x, w') -> stays r w w'.
Proof.
  intros Hbody He. apply same_store_stays. simpl in He.
  specialize (Hbody (now w) (jobs w)). destruct (body (now w) (jobs w)) as [x' js].
  injection He as _ <-. simpl in Hbody. by subst.
Qed.

Lemma get_job_stays r job_id : within (stays r) (get_job job_id).
Proof. constructor; [|constructor]. intros e w x w'. by apply stays_read. Qed.

Lemma list_jobs_stays r : within (stays r) list_jobs.
Proof. constructor; [|constructor]. intros e w x w'. by apply stays_read. Qed.

Section Roles.
Context {lib : PyLib}.

Ltac fade := intros [] ?; unfold fades; simpl; rewrite ?elem_of_cons; auto 10.

Lemma mark_fades job_id (mark : Job -> Job) :
  (forall job t, fades job (assign (mark job) (updated_at_ t))) ->
  within bystander_step
    (perform (Locked (fun time js =>
       match js !! job_id with
       | None => (tt, js)
       | Some job => (tt, <[job_id := assign (mark job) (updated_at_ time)]> js)
       end))).
Proof.
  intros Hok. constructor; [|constructor]. intros e w x w'.
  apply locked_fades. intros t js.
  destruct (js !! job_id) as [job|] eqn:Hj; [|by left].
  right. exists job_id, job. eauto.
Qed.

Lemma mark_delivering_fades job_id : within bystander_step (mark_delivering job_id).
Proof. apply (mark_fades job_id (fun job => assign job (status_ delivering))). fade. Qed.

Lemma mark_downloaded_fades job_id : within bystander_step (mark_downloaded job_id).
Proof. apply (mark_fades job_id (fun job => assign job (status_ downloaded))). fade. Qed.

Lemma mark_file_consumed_fades job_id : within bystander_step (mark_file_consumed job_id).
Proof.
  apply (mark_fades job_id
           (fun job =>
              assign (assign (assign (assign (assign (assign job
                (status_ delivered)) (output_file_ None)) (download_url_ None))
                (remote_file_id_ None)) (remote_file_url_ None))
                (remote_file_view_url_ None))).
  fade.
Qed.

Lemma update_job_fades job_id updates :
  (forall job t, fades job (assign (update job updates) (updated_at_ t))) ->
  within bystander_step (_update_job job_id updates).
Proof.
  intros Hok. constructor; [|intros [exc|job]; constructor]. intros e w x w'.
  apply locked_fades. intros t js.
  destruct (js !! job_id) as [job|] eqn:Hj; [|by left].
  right. exists job_id, job. eauto.
Qed.

Lemma delete_remote_file_fades job_id : within bystander_step (delete_remote_file job_id).
Proof.
  unfold delete_remote_file. apply within_bind; [apply (get_job_stays bystander)|].
  intros [job|]; [|constructor]. destruct (truthy _); [|constructor].
  apply within_bind; [by apply (quiet_stays bystander)|].
  intros [exc|[client|]]; [constructor| |constructor].
  apply within_bind; [by apply (quiet_stays bystander)|]. intros _.
  apply within_bind; [|constructor]. apply update_job_fades. fade.
Qed.

Lemma cleanup_after_delivery_fades job_id output_path :
  within bystander_step (_cleanup_after_delivery job_id output_path).
Proof.
  unfold _cleanup_after_delivery.
  apply within_bind; [by apply (quiet_stays bystander)|]. intros _.
  apply within_bind; [apply delete_remote_file_fades|]. intros _.
  apply mark_file_consumed_fades.
Qed.

(** The owner's updates that do not yet write a successful outcome. *)
Lemma update_job_owner job_id updates :
  (forall job t,
     let job' := assign (update job updates) (updated_at_ t) in
     (j_status job' = failed -> remote_null job')
     /\ j_output_file job' = j_output_file job) ->
  within (owner_step job_id) (_update_job job_id updates).
Proof.
  intros Hok. constructor; [|intros [exc|job]; constructor]. intros e w x w'.
  apply locked_owner. intros t js.
  destruct (js !! job_id) as [job|] eqn:Hj; [|by left].
  right. eexists. split; [reflexivity|]. destruct (Hok job t) as [Hf Ho]. eauto.
Qed.

(** The update that writes a successful outcome ends the ownership; when
    the job is not there it raises and changes nothing. *)
Lemma update_job_final job_id updates :
  (forall job t, j_status (assign (update job updates) (updated_at_ t)) <> failed) ->
  acts anything (fun r _ => r = worker job_id) (worker job_id)
    (_update_job job_id updates).
Proof.
  intros Hok e w x w' He. simpl in He.
  destruct (jobs w !! job_id) as [job|] eqn:Hj; injection He as <- <-.
  - exists bystander. split; [|done]. constructor. split; [done|]. simpl. split.
    + intros other Hne. by rewrite lookup_insert_ne.
    + eexists. by rewrite lookup_insert_eq.
  - exists (worker job_id). split; [|done]. constructor.
    apply (same_store_stays (worker job_id)). by destruct w.
Qed.

Lemma acts_stays {R} r (Q : role -> R -> Prop) E (p : prog R) :
  within (stays r) p -> (forall x, Q r x) -> (forall exc, E r exc) -> acts Q E r p.
Proof.
  intros Hp HQ HE. eapply acts_weaken; [| |by apply acts_within].
  - by intros r' x ->.
  - by intros r' exc ->.
Qed.

Lemma acts_bind_stays {A B} r (Q : role -> B -> Prop) E (p : prog A) (f : A -> prog B) :
  within (stays r) p -> (forall exc, E r exc) -> (forall x, acts Q E r (f x)) ->
  acts Q E r (p ≫= f).
Proof.
  intros Hp HE Hf. eapply acts_bind with (Q := fun r' _ => r' = r).
  - by apply acts_stays.
  - by intros r' x ->.
Qed.

Lemma acts_perform {X R} (Q : role -> R -> Prop) E r (a : action X) (f : X -> prog R) :
  (forall e w x w', exec a e w = Some (x, w') ->
     exists r', moves r w w' r' /\ acts Q E r' (f x)) ->
  acts Q E r (perform a ≫= f).
Proof. intros H. exact H. Qed.

Ltac in_role r tac := apply (acts_bind_stays r); [tac|done|]; cbv beta.

Lemma process_job_acts job_id :
  acts anything anything (worker job_id) (process_job job_id).
Proof.
  unfold process_job.
  in_role (worker job_id) ltac:(apply get_job_stays). intros [job|]; [|done].
  in_role (worker job_id) ltac:(apply update_job_owner; by intros [] t).
  intros _.
  apply acts_try_except with (E := fun r _ => r = worker job_id).
  - in_role (worker job_id) ltac:(apply framed_stays, download_video_frame).
    intros output_file. cbv zeta.
    in_role (worker job_id) ltac:(by apply quiet_stays). intros res.
    assert (forall remote_details remote_error,
              acts anything (fun r _ => r = worker job_id) (worker job_id)
                (let updates :=
                   [status_ completed; output_file_ (Some output_file);
                    download_url_ (Some ("/download/" +:+ job_id +:+ "/file"))] in
                 let updates :=
                   match remote_details with
                   | Some d =>
                       (updates ++ [remote_file_id_ (Some (file_id d));
                                    remote_file_url_ (Some (download_url d));
                                    remote_file_view_url_ (Some (view_url d))])%list
                   | None => updates
                   end in
                 let updates :=
                   match truthy remote_error with
                   | Some text =>
                       (updates
                        ++ [error_ (Some ("Google Drive upload failed: " +:+ text))])%list
                   | None => updates
                   end in
                 _ ← _update_job job_id updates; Ret tt)) as Hfinal.
    { intros remote_details remote_error. cbv zeta.
      eapply acts_bind; [|by intros].
      apply update_job_final.
      destruct remote_details, (truthy remote_error); by intros [] t. }
    destruct res as [exc|[client|]]; cbv beta iota.
    + apply (Hfinal None).
    + eapply acts_bind with (Q := fun r _ => r = worker job_id).
      * in_role (worker job_id) ltac:(by apply quiet_stays).
        by intros [exc|details].
      * intros r [remote_details remote_error] ->. apply Hfinal.
    + apply (Hfinal None).
  - intros r exc ->.
    in_role (worker job_id) ltac:(apply update_job_owner; by intros [] t).
    by intros.
Qed.

Lemma create_job_acts url output_path format_choice ffmpeg_location :
  acts (fun r job => r = worker (j_id job)) anything submitter
    (create_job url output_path format_choice ffmpeg_location).
Proof.
  unfold create_job. apply acts_perform. intros e w x w' He. simpl in He.
  destruct e as [[hex| | | |]|]; try done. case_bool_decide as Hfresh; [done|].
  injection He as <- <-. exists (worker hex). split; [by constructor|].
  destruct (expanduser _) as [exc|expanded]; [done|]. cbn [lift].
  change (Ret expanded ≫= ?f) with (f expanded). cbv beta.
  in_role (worker hex) ltac:(by apply quiet_stays). intros created.
  in_role (worker hex) ltac:(by apply quiet_stays). intros updated.
  apply (acts_bind_stays (worker hex)); [|done|by intros].
  constructor; [|constructor].
  intros e w1 x w1'. apply locked_owner. intros t js. right.
  eexists. split; [reflexivity|]. split; [done|]. by left.
Qed.

Lemma enqueue_download_acts payload :
  acts (fun r resp =>
          match resp with
          | json_enqueued _ _ _ _ _ (bg_process_job job_id) => r = worker job_id
          | _ => False
          end) anything submitter (enqueue_download payload).
Proof.
  unfold enqueue_download. destruct (negb _); [done|].
  eapply acts_bind with (Q := fun r _ => r = submitter).
  - destruct (truthy _); [|done].
    eapply acts_try_except with (E := fun r _ => r = submitter).
    + apply (acts_stays submitter);
        [apply framed_stays, resolve_ffmpeg_location_frame|done|done].
    + by intros r [] ->.
  - intros r resolved_ffmpeg ->.
    eapply acts_bind; [apply create_job_acts|]. by intros r job ->.
Qed.

Lemma download_file_acts job_id as_base64 auto_delete :
  acts (fun r resp => r = bystander /\ plain_response resp) anything bystander
    (download_file job_id as_base64 auto_delete).
Proof.
  unfold download_file.
  in_role bystander ltac:(apply get_job_stays). intros [job|]; [|done]. cbv zeta.
  repeat (destruct (bool_decide _); [done|]).
  destruct (negb _); [done|].
  destruct (j_output_file job) as [file_path|]; [|done].
  in_role bystander ltac:(by apply quiet_stays). intros []; [|done]. cbn [negb].
  in_role bystander ltac:(apply mark_delivering_fades). intros _.
  destruct as_base64; [|by destruct auto_delete].
  in_role bystander ltac:(by apply raising_quiet_stays). intros file_size.
  in_role bystander ltac:(by apply raising_quiet_stays). intros data.
  apply (acts_bind_stays bystander); [|done|by intros].
  destruct auto_delete; [apply cleanup_after_delivery_fades|apply mark_downloaded_fades].
Qed.

Lemma manual_cleanup_acts job_id :
  acts (fun r resp => r = bystander /\ plain_response resp) anything bystander
    (manual_cleanup job_id).
Proof.
  unfold manual_cleanup.
  in_role bystander ltac:(apply get_job_stays). intros [job|]; [|done]. cbv zeta.
  assert (acts (fun r resp => r = bystander /\ plain_response resp) anything bystander
            (_ ← delete_remote_file job_id;
             _ ← (if bool_decide (j_status job ∈ [completed; delivering; downloaded])
                  then mark_file_consumed job_id
                  else Ret tt);
             Ret (json_message "ไฟล์ไม่พบหรือถูกลบไปแล้ว" None))) as Hrest.
  { in_role bystander ltac:(apply delete_remote_file_fades). intros _.
    apply (acts_bind_stays bystander); [|done|by intros].
    destruct (bool_decide _); [apply mark_file_consumed_fades|constructor]. }
  destruct (j_output_file job) as [file_path|]; [|exact Hrest].
  in_role bystander ltac:(by apply quiet_stays). intros []; [|exact Hrest].
  in_role bystander ltac:(apply cleanup_after_delivery_fades). by intros.
Qed.

Lemma endpoint_acts r :
  role_of r = bystander ->
  acts (fun r' resp => r' = bystander /\ plain_response resp) anything bystander
    (endpoint r).
Proof.
  destruct r; try done; intros _; cbn [endpoint].
  - unfold get_status. in_role bystander ltac:(apply get_job_stays).
    by intros [job|].
  - unfold list_jobs_handler. in_role bystander ltac:(apply list_jobs_stays).
    by intros l.
  - apply download_file_acts.
  - apply manual_cleanup_acts.
Qed.

Lemma serve_acts r : acts anything anything (role_of r) (serve r).
Proof.
  unfold serve. apply acts_try_except with (E := anything); [|by intros r' []].
  destruct (role_of r) eqn:Hr.
  - eapply acts_bind; [by apply endpoint_acts|]. cbv beta.
    intros r' resp [-> Hplain].
    destruct resp as [| | | | | p filename media_type bg |]; try done.
    in_role bystander ltac:(by apply raising_quiet_stays). intros data.
    eapply acts_bind with (Q := fun r _ => r = bystander); [|by intros].
    eapply acts_try_except with (E := fun r _ => r = bystander); [|by intros].
    apply (acts_stays bystander); [|done|done].
    destruct bg; [done|apply cleanup_after_delivery_fades|apply mark_downloaded_fades].
  - destruct r; try done. cbn [endpoint].
    eapply acts_bind; [apply enqueue_download_acts|]. cbv beta.
    intros r' resp Hresp. destruct resp as [|? ? ? ? ? bg| | | | |]; try done.
    destruct bg as [hex| |]; try done. subst r'.
    eapply acts_bind with (Q := anything); [|by intros].
    eapply acts_try_except; [apply process_job_acts|by intros].
  - by destruct r.
Qed.

End Roles.

Lemma cast_lookup roles ts i p :
  cast roles ts -> ts !! i = Some p ->
  exists r, roles !! i = Some r /\ acts anything anything r p.
Proof.
  revert ts i. induction roles as [|r roles IH]; intros [|q ts] i Hc Hi; try done.
  destruct Hc as [Hr Hc]. destruct i as [|i]; simpl in *.
  - injection Hi as <-. eauto.
  - eauto.
Qed.

Lemma cast_insert roles ts i r p :
  cast roles ts -> acts anything anything r p ->
  cast (<[i := r]> roles) (<[i := p]> ts).
Proof.
  revert ts i. induction roles as [|r0 roles IH]; intros [|q ts] i Hc Hp; try done.
  destruct Hc as [Hr Hc]. destruct i as [|i]; simpl; auto.
Qed.

Lemma cast_snoc roles ts r p :
  cast roles ts -> acts anything anything r p ->
  cast (roles ++ [r])%list (ts ++ [p])%list.
Proof.
  revert ts. induction roles as [|r0 roles IH]; intros [|q ts] Hc Hp; try done.
  destruct Hc as [Hr Hc]. simpl. auto.
Qed.

Lemma lookup_snoc_worker (roles : list role) r i job_id :
  (forall job_id', r <> worker job_id') ->
  (roles ++ [r])%list !! i = Some (worker job_id) -> roles !! i = Some (worker job_id).
Proof.
  intros Hr Hi. destruct (decide (i < List.length roles)%nat) as [Hlt|Hge].
  - by rewrite lookup_app_l in Hi.
  - rewrite lookup_app_r in Hi by lia.
    destruct (i - List.length roles)%nat; [|done]. injection Hi as ->. by destruct (Hr job_id).
Qed.

Lemma lookup_insert_worker (roles : list role) i r j job_id :
  <[i := r]> roles !! j = Some (worker job_id) ->
  (i = j /\ r = worker job_id) \/ (i <> j /\ roles !! j = Some (worker job_id)).
Proof.
  intros Hj. destruct (decide (i = j)) as [->|Hne].
  - left. split; [done|].
    destruct (decide (j < List.length roles)%nat) as [Hlt|Hge].
    + rewrite list_lookup_insert_eq in Hj by done. by injection Hj.
    + rewrite list_insert_ge in Hj by lia. apply lookup_lt_Some in Hj. lia.
  - right. by rewrite list_lookup_insert_ne in Hj.
Qed.

Section Soundness.
Context {lib : PyLib}.

Lemma sound_arrive roles s r :
  sound roles s ->
  sound (roles ++ [role_of r])
    {| sys_world := sys_world s; tasks := (tasks s ++ [serve r])%list |}.
Proof.
  intros [Hc Hf Ho Hd Hdom].
  assert (forall job_id, role_of r <> worker job_id) as Hr by by destruct r.
  split; simpl; auto.
  - apply cast_snoc; [done|apply serve_acts].
  - intros i job_id Hi. apply (Ho i). by apply (lookup_snoc_worker _ (role_of r)).
  - intros i j job_id Hi Hj.
    apply (Hd i j job_id); by apply (lookup_snoc_worker _ (role_of r)).
Qed.

(** A bystander's step. *)
Lemma sound_bystander_step roles w w' ts :
  sound roles {| sys_world := w; tasks := ts |} -> bystander_step w w' ->
  forall ts', cast roles ts' -> sound roles {| sys_world := w'; tasks := ts' |}.
Proof.
  intros [Hc Hf Ho Hd Hdom] [Hi Hj] ts' Hc'. simpl in *. split; simpl; auto.
  - intros job_id job' Hjob' Hs.
    destruct (Hj _ _ Hjob') as (job & Hjob & [Hst|Hst] & Hfo & Hfd & Hf1 & Hf2 & Hf3).
    + rewrite Hs in Hst. destruct (Hf _ _ Hjob (eq_sym Hst)) as (? & ? & ? & ? & ?).
      unfold artifacts_null. intuition congruence.
    + rewrite Hs in Hst. rewrite !elem_of_cons, elem_of_nil in Hst. intuition congruence.
  - intros i job_id Hrole. destruct (Ho _ _ Hrole) as [Hin Hout]. rewrite Hi.
    split; [done|]. intros job' Hjob'.
    destruct (Hj _ _ Hjob') as (job & Hjob & _ & [Hfo|Hfo] & _); [|done].
    rewrite Hfo. eauto.
  - intros job_id job' Hjob'. rewrite Hi.
    destruct (Hj _ _ Hjob') as (job & Hjob & _). eauto.
Qed.

Lemma issue_self hex w : hex ∈ issued (issue hex w).
Proof. simpl. apply elem_of_union_l. by apply elem_of_singleton. Qed.

Lemma issue_mono hex w job_id : job_id ∈ issued w -> job_id ∈ issued (issue hex w).
Proof. simpl. apply elem_of_union_r. Qed.

(** The submitter draws its identifier. *)
Lemma sound_draw roles w ts i hex :
  sound roles {| sys_world := w; tasks := ts |} -> hex ∉ issued w ->
  forall ts', cast (<[i := worker hex]> roles) ts' ->
  sound (<[i := worker hex]> roles) {| sys_world := issue hex w; tasks := ts' |}.
Proof.
  intros [Hc Hf Ho Hd Hdom] Hfresh ts' Hc'. simpl in *. split; simpl; auto.
  - intros j job_id Hrole.
    destruct (lookup_insert_worker _ _ _ _ _ Hrole) as [[_ Heq]|[Hne Hrole']].
    + injection Heq as <-. split; [apply issue_self|].
      intros job Hjob. destruct Hfresh. eauto.
    + destruct (Ho _ _ Hrole') as [Hin Hout]. split; [by apply issue_mono|done].
  - intros j1 j2 job_id H1 H2.
    destruct (lookup_insert_worker _ _ _ _ _ H1) as [[<- Heq1]|[Hne1 H1']],
             (lookup_insert_worker _ _ _ _ _ H2) as [[<- Heq2]|[Hne2 H2']].
    + done.
    + injection Heq1 as <-. destruct Hfresh. by apply (Ho _ _ H2').
    + injection Heq2 as <-. destruct Hfresh. by apply (Ho _ _ H1').
    + eauto.
  - intros job_id job Hjob. apply (issue_mono hex w). eauto.
Qed.

(** The owner writes to its job. *)
Lemma sound_owner_step roles w w' ts i job_id :
  sound roles {| sys_world := w; tasks := ts |} ->
  roles !! i = Some (worker job_id) -> owner_step job_id w w' ->
  forall ts', cast roles ts' -> sound roles {| sys_world := w'; tasks := ts' |}.
Proof.
  intros [Hc Hf Ho Hd Hdom] Hrole (Hi & Hothers & Hown) ts' Hc'. simpl in *.
  destruct (Ho _ _ Hrole) as [Hin Hout].
  assert (forall job', jobs w' !! job_id = Some job' ->
            j_output_file job' = None /\ (j_status job' = failed -> artifacts_null job'))
    as Hmine.
  { intros job' Hjob'. destruct Hown as [Hsame|(job1 & Hjob1 & Hfailed & Hfile)].
    - rewrite Hsame in Hjob'. eauto.
    - rewrite Hjob' in Hjob1. injection Hjob1 as <-.
      assert (j_output_file job' = None) as Hnone.
      { destruct Hfile as [|(job & Hjob & ->)]; eauto. }
      split; [done|]. intros Hs. destruct (Hfailed Hs) as (? & ? & ? & ?).
      by repeat split. }
  split; simpl; auto.
  - intros other job' Hjob' Hs. destruct (decide (other = job_id)) as [->|Hne].
    + by apply (Hmine job').
    + rewrite (Hothers _ Hne) in Hjob'. eauto.
  - intros j other Hrole'. rewrite Hi. destruct (Ho _ _ Hrole') as [Hin' Hout'].
    split; [done|]. intros job' Hjob'. destruct (decide (other = job_id)) as [->|Hne].
    + by destruct (Hmine job' Hjob').
    + rewrite (Hothers _ Hne) in Hjob'. eauto.
  - intros other job' Hjob'. rewrite Hi. destruct (decide (other = job_id)) as [->|Hne].
    + done.
    + rewrite (Hothers _ Hne) in Hjob'. eauto.
Qed.

(** The owner writes a successful outcome and becomes a bystander. *)
Lemma sound_final_step roles w w' ts i job_id :
  sound roles {| sys_world := w; tasks := ts |} ->
  roles !! i = Some (worker job_id) -> final_step job_id w w' ->
  forall ts', cast (<[i := bystander]> roles) ts' ->
  sound (<[i := bystander]> roles) {| sys_world := w'; tasks := ts' |}.
Proof.
  intros [Hc Hf Ho Hd Hdom] Hrole (Hi & Hothers & job1 & Hjob1 & Hs1) ts' Hc'.
  simpl in *. destruct (Ho _ _ Hrole) as [Hin Hout].
  split; simpl; auto.
  - intros other job' Hjob' Hs. destruct (decide (other = job_id)) as [->|Hne].
    + rewrite Hjob' in Hjob1. by injection Hjob1 as <-.
    + rewrite (Hothers _ Hne) in Hjob'. eauto.
  - intros j other Hrole'.
    destruct (lookup_insert_worker _ _ _ _ _ Hrole') as [[_ [=]]|[Hne Hrole'']].
    rewrite Hi. destruct (Ho _ _ Hrole'') as [Hin' Hout']. split; [done|].
    intros job' Hjob'. destruct (decide (other = job_id)) as [->|Hne'].
    + destruct Hne. eauto.
    + rewrite (Hothers _ Hne') in Hjob'. eauto.
  - intros j1 j2 other H1 H2.
    destruct (lookup_insert_worker _ _ _ _ _ H1) as [[_ [=]]|[_ H1']].
    destruct (lookup_insert_worker _ _ _ _ _ H2) as [[_ [=]]|[_ H2']]. eauto.
  - intros other job' Hjob'. rewrite Hi. destruct (decide (other = job_id)) as [->|Hne].
    + done.
    + rewrite (Hothers _ Hne) in Hjob'. eauto.
Qed.

Lemma sys_step_sound l roles s s' :
  sound roles s -> sys_step l s = Some s' -> exists roles', sound roles' s'.
Proof.
  intros Hs Hstep. destruct l as [r|i e|t|p]; simpl in Hstep.
  - injection Hstep as <-. eexists. by apply sound_arrive.
  - destruct (tasks s !! i) as [[x|exc|X a k]|] eqn:Hi; try done.
    destruct (exec a e (sys_world s)) as [[x w']|] eqn:He; [|done].
    injection Hstep as <-.
    destruct (cast_lookup _ _ _ _ (sound_cast _ _ Hs) Hi) as (r & Hr & Hacts).
    destruct (Hacts e (sys_world s) x w' He) as (r' & Hmove & Hk).
    pose proof (cast_insert _ _ i r' (k x) (sound_cast _ _ Hs) Hk) as Hc'.
    destruct s as [w ts]. simpl in *. exists (<[i := r']> roles).
    destruct Hmove as [w w' Hb|w w' Hb|hex w Hfresh|job_id w w' Ho|job_id w w' Hf].
    + rewrite list_insert_id in * by done. by eapply sound_bystander_step.
    + rewrite list_insert_id in * by done. by eapply sound_bystander_step.
    + by eapply sound_draw.
    + rewrite list_insert_id in * by done. by eapply sound_owner_step.
    + by eapply sound_final_step.
  - injection Hstep as <-. exists roles. destruct Hs. by split.
  - injection Hstep as <-. exists roles. destruct Hs. by split.
Qed.

Lemma schedule_sound ls roles s s' :
  sound roles s -> schedule ls s = Some s' -> exists roles', sound roles' s'.
Proof.
  revert roles s. induction ls as [|l ls IH]; intros roles s Hs Hrun; simpl in Hrun.
  - injection Hrun as <-. eauto.
  - destruct (sys_step l s) as [s1|] eqn:Hstep; [|done].
    destruct (sys_step_sound _ _ _ _ Hs Hstep) as [roles1 Hs1]. eauto.
Qed.

Lemma boot_sound disk t : sound [] (boot disk t).
Proof. split; simpl; try done. Qed.

(** In every state the server can reach a failed job points at no artifact. *)
Lemma failed_job_has_no_artifact disk t events s job_id job :
  schedule events (boot disk t) = Some s ->
  jobs (sys_world s) !! job_id = Some job -> j_status job = failed ->
  artifacts_null job.
Proof.
  intros Hrun. destruct (schedule_sound _ _ _ _ (boot_sound disk t) Hrun) as [roles Hs].
  apply (sound_failed _ _ Hs).
Qed.

(** C7.  When the extraction fails (the engine raises, or no downloaded
    file is found) [process_job] catches the exception and returns normally;
    it leaves the job in status [failed] with the text of the failure in
    [error], with [download_url] and the three remote fields null and with
    [output_file] as it was.  And [output_file] was null: in every state the
    server can reach, under any interleaving, a job in status [failed] has
    all five artifact fields null. *)
Theorem process_job_extraction_failure :
  (forall job_id job w env exc w2 env2,
     jobs w !! job_id = Some job ->
     run (download_video (j_url job) (j_output_path job) (j_format job)
            (j_ffmpeg_location job)) (started w job_id job) env
       = Some (inl exc, w2, env2) ->
     exists w3 job3,
       run (process_job job_id) w env = Some (inr tt, w3, env2)
       /\ jobs w3 !! job_id = Some job3
       /\ j_status job3 = failed
       /\ j_error job3 = Some (exn_str exc)
       /\ j_output_file job3 = j_output_file job
       /\ remote_null job3)
  /\ (forall disk t events s job_id job,
        schedule events (boot disk t) = Some s ->
        jobs (sys_world s) !! job_id = Some job ->
        j_status job = failed ->
        artifacts_null job).
Proof.
  split.
  - intros. by eapply run_process_job_failure.
  - intros. by eapply failed_job_has_no_artifact.
Qed.

End Soundness.

(** ** Delivered jobs stay without artifact *)

Lemma obeys_weaken {R} (Q Q' : hand -> R -> Prop) (E E' : hand -> exn -> Prop) h p :
  (forall h x, Q h x -> Q' h x) -> (forall h exc, E h exc -> E' h exc) ->
  obeys Q E h p -> obeys Q' E' h p.
Proof.
  intros HQ HE. revert h. induction p as [x|exc|X a k IH]; intros h; simpl; auto.
  intros Hp e w x w' He. destruct (Hp e w x w' He) as (h' & Hm & Hk). eauto.
Qed.

Lemma obeys_bind {A B} (Q : hand -> A -> Prop) (Q' : hand -> B -> Prop) E h
    (p : prog A) (f : A -> prog B) :
  obeys Q E h p -> (forall h' x, Q h' x -> obeys Q' E h' (f x)) -> obeys Q' E h (p ≫= f).
Proof.
  intros Hp Hf. revert h Hp. induction p as [x|exc|X a k IH]; intros h Hp.
  - by apply Hf.
  - exact Hp.
  - change (Do a k ≫= f) with (Do a (fun x => k x ≫= f)).
    intros e w x w' He. destruct (Hp e w x w' He) as (h' & Hm & Hk). eauto.
Qed.

Lemma obeys_try_except {A} (Q : hand -> A -> Prop) E E' h (p : prog A) handler :
  obeys Q E h p -> (forall h' exc, E h' exc -> obeys Q E' h' (handler exc)) ->
  obeys Q E' h (try_except p handler).
Proof.
  intros Hp Hh. revert h Hp. induction p as [x|exc|X a k IH]; intros h Hp; simpl.
  - exact Hp.
  - by apply Hh.
  - intros e w x w' He. destruct (Hp e w x w' He) as (h' & Hm & Hk). eauto.
Qed.

Lemma passes_holds h w w' : holds h w w' -> passes h w w' h.
Proof. destruct h; by constructor. Qed.

Lemma obeys_within {R} h (p : prog R) :
  within (holds h) p -> obeys (fun h' _ => h' = h) (fun h' _ => h' = h) h p.
Proof.
  induction 1 as [x|exc|X a k Ha Hk IH]; simpl; try done.
  intros e w x w' He. exists h. split; [|apply IH]. apply passes_holds. eauto.
Qed.

Lemma obeys_holds {R} h (Q : hand -> R -> Prop) E (p : prog R) :
  within (holds h) p -> (forall x, Q h x) -> (forall exc, E h exc) -> obeys Q E h p.
Proof.
  intros Hp HQ HE. eapply obeys_weaken; [| |by apply obeys_within].
  - by intros h' x ->.
  - by intros h' exc ->.
Qed.

Lemma obeys_bind_holds {A B} h (Q : hand -> B -> Prop) E (p : prog A) (f : A -> prog B) :
  within (holds h) p -> (forall exc, E h exc) -> (forall x, obeys Q E h (f x)) ->
  obeys Q E h (p ≫= f).
Proof.
  intros Hp HE Hf. eapply obeys_bind with (Q := fun h' _ => h' = h).
  - by apply obeys_holds.
  - by intros h' x ->.
Qed.

Lemma same_store_holds h w w' : same_store w w' -> holds h w w'.
Proof.
  intros (Hj & _ & Hi). destruct h; simpl; try done.
  - split; [done|]. unfold own_unfinished. rewrite Hj. auto.
  - split; [done|]. rewrite Hj. auto.
Qed.

Lemma framed_holds {R} h (p : prog R) : within same_store p -> within (holds h) p.
Proof. apply within_weaken, same_store_holds. Qed.

Lemma quiet_holds {X} h (a : action X) : quiet a = true -> within (holds h) (perform a).
Proof. intros. by apply framed_holds, within_quiet. Qed.

Lemma raising_quiet_holds {X} h (a : action (exn + X)) :
  quiet a = true -> within (holds h) (raising a).
Proof. intros. by apply framed_holds, within_raising_quiet. Qed.

Lemma exec_locked {X} (body : Z -> gmap string Job -> X * gmap string Job) e w x w' :
  exec (Locked body) e w = Some (x, w') ->
  x = fst (body (now w) (jobs w)) /\ jobs w' = snd (body (now w) (jobs w))
  /\ issued w' = issued w.
Proof.
  simpl. destruct (body (now w) (jobs w)) as [x' js]. by intros [= <- <-].
Qed.

Lemma read_holds {X} h (body : Z -> gmap string Job -> X * gmap string Job) e w x w' :
  (forall t js, snd (body t js) = js) ->
  exec (Locked body) e w = Some (x, w') -> holds h w w'.
Proof.
  intros Hbody He. apply same_store_holds. simpl in He.
  specialize (Hbody (now w) (jobs w)). destruct (body (now w) (jobs w)) as [x' js].
  injection He as _ <-. simpl in Hbody. by subst.
Qed.

Lemma get_job_holds h job_id : within (holds h) (get_job job_id).
Proof. constructor; [|constructor]. intros e w x w'. by apply read_holds. Qed.

Lemma list_jobs_holds h : within (holds h) list_jobs.
Proof. constructor; [|constructor]. intros e w x w'. by apply read_holds. Qed.

(** A critical section of the handler of [job_id]. *)
Lemma locked_handling {X} job_id (body : Z -> gmap string Job -> X * gmap string Job)
    e w x w' :
  (forall t js,
     snd (body t js) = js
     \/ exists job job',
          js !! job_id = Some job /\ fades job job'
          /\ snd (body t js) = <[job_id := job']> js) ->
  exec (Locked body) e w = Some (x, w') -> handling_step job_id w w'.
Proof.
  intros Hbody He. apply exec_locked in He as (_ & Hjobs & Hissued).
  split; [done|]. rewrite Hjobs.
  destruct (Hbody (now w) (jobs w)) as [->|(job & job' & Hj & Hf & ->)]; [auto|].
  split.
  - intros other Hne. by rewrite lookup_insert_ne.
  - right. exists job, job'. by rewrite lookup_insert_eq.
Qed.

(** A critical section of the maker of [job_id]. *)
Lemma locked_making {X} job_id (body : Z -> gmap string Job -> X * gmap string Job)
    e w x w' :
  (forall t js,
     snd (body t js) = js
     \/ exists job',
          snd (body t js) = <[job_id := job']> js
          /\ ((forall job, js !! job_id = Some job -> unfinished job) -> unfinished job')) ->
  exec (Locked body) e w = Some (x, w') -> making_step job_id w w'.
Proof.
  intros Hbody He. apply exec_locked in He as (_ & Hjobs & Hissued).
  split; [done|]. unfold own_unfinished. rewrite Hjobs.
  destruct (Hbody (now w) (jobs w)) as [->|(job' & -> & Hok)]; [auto|].
  split.
  - intros other Hne. by rewrite lookup_insert_ne.
  - intros Hown job. rewrite lookup_insert_eq. intros [= <-]. auto.
Qed.

Lemma fades_spent job job' : fades job job' -> spent job -> spent job'.
Proof.
  intros (Hs & Ho & Hd & H1 & H2 & H3) [Hst (? & ? & ? & ? & ?)]. split.
  - destruct Hs as [->|Hs]; [done|].
    rewrite !elem_of_cons, elem_of_nil in Hs. rewrite !elem_of_cons. tauto.
  - unfold artifacts_null. intuition congruence.
Qed.

Lemma fades_settled job job' : fades job job' -> settled job -> settled job'.
Proof.
  unfold settled. intros ([->|Hs] & _) Hst; [done|].
  rewrite !elem_of_cons, elem_of_nil in Hs. rewrite !elem_of_cons. tauto.
Qed.

Lemma unfinished_not_settled job : unfinished job -> settled job -> False.
Proof.
  intros [Hu _] Hs. unfold settled in Hs.
  rewrite !elem_of_cons, elem_of_nil in Hu. rewrite !elem_of_cons, elem_of_nil in Hs.
  intuition congruence.
Qed.

Lemma unfinished_not_pointing job : unfinished job -> pointing job -> False.
Proof.
  intros [_ (Ho & _ & Hr & _)] [Hp|Hp]; [done|]. by rewrite Hr in Hp.
Qed.

Lemma spent_settled job : spent job -> settled job.
Proof.
  intros [Hs _]. unfold settled.
  rewrite !elem_of_cons, elem_of_nil in Hs. rewrite !elem_of_cons. tauto.
Qed.

Section Hands.
Context {lib : PyLib}.

Ltac fade := intros [] ?; unfold fades; simpl; rewrite ?elem_of_cons; auto 10.

Ltac in_hand h tac := apply (obeys_bind_holds h); [tac|done|]; cbv beta.

Lemma obeys_perform {X R} (Q : hand -> R -> Prop) E h (a : action X) (f : X -> prog R) :
  (forall e w x w', exec a e w = Some (x, w') ->
     exists h', passes h w w' h' /\ obeys Q E h' (f x)) ->
  obeys Q E h (perform a ≫= f).
Proof. intros H. exact H. Qed.

Lemma mark_handling job_id (mark : Job -> Job) :
  (forall job t, fades job (assign (mark job) (updated_at_ t))) ->
  within (handling_step job_id)
    (perform (Locked (fun time js =>
       match js !! job_id with
       | None => (tt, js)
       | Some job => (tt, <[job_id := assign (mark job) (updated_at_ time)]> js)
       end))).
Proof.
  intros Hok. constructor; [|constructor]. intros e w x w'.
  apply locked_handling. intros t js.
  destruct (js !! job_id) as [job|] eqn:Hj; [|by left].
  right. exists job. eauto.
Qed.

Lemma mark_delivering_handling job_id :
  within (handling_step job_id) (mark_delivering job_id).
Proof. apply (mark_handling job_id (fun job => assign job (status_ delivering))). fade. Qed.

Lemma mark_downloaded_handling job_id :
  within (handling_step job_id) (mark_downloaded job_id).
Proof. apply (mark_handling job_id (fun job => assign job (status_ downloaded))). fade. Qed.

Lemma mark_file_consumed_handling job_id :
  within (handling_step job_id) (mark_file_consumed job_id).
Proof.
  apply (mark_handling job_id
           (fun job =>
              assign (assign (assign (assign (assign (assign job
                (status_ delivered)) (output_file_ None)) (download_url_ None))
                (remote_file_id_ None)) (remote_file_url_ None))
                (remote_file_view_url_ None))).
  fade.
Qed.

Lemma update_job_handling job_id updates :
  (forall job t, fades job (assign (update job updates) (updated_at_ t))) ->
  within (handling_step job_id) (_update_job job_id updates).
Proof.
  intros Hok. constructor; [|intros [exc|job]; constructor]. intros e w x w'.
  apply locked_handling. intros t js.
  destruct (js !! job_id) as [job|] eqn:Hj; [|by left].
  right. exists job. eauto.
Qed.

(** What [delete_remote_file] does once it has read a remote identifier. *)
Lemma delete_remote_file_tail job_id remote_id :
  within (handling_step job_id)
    (r ← perform GetGoogleDriveClient;
     match r with
     | inl _ => Ret tt
     | inr None => Ret tt
     | inr (Some client) =>
         _ ← perform (DeleteFile client remote_id);
         _ ← _update_job job_id
               [remote_file_id_ None; remote_file_url_ None; remote_file_view_url_ None];
         Ret tt
     end).
Proof.
  apply within_bind; [by apply (quiet_holds (handling job_id))|].
  intros [exc|[client|]]; [constructor| |constructor].
  apply within_bind; [by apply (quiet_holds (handling job_id))|]. intros _.
  apply within_bind; [|constructor]. apply update_job_handling. fade.
Qed.

Lemma delete_remote_file_handling job_id :
  within (handling_step job_id) (delete_remote_file job_id).
Proof.
  unfold delete_remote_file. apply within_bind; [apply (get_job_holds (handling job_id))|].
  intros [job|]; [|constructor]. destruct (truthy _); [|constructor].
  apply delete_remote_file_tail.
Qed.

Lemma cleanup_after_delivery_handling job_id output_path :
  within (handling_step job_id) (_cleanup_after_delivery job_id output_path).
Proof.
  unfold _cleanup_after_delivery.
  apply within_bind; [by apply (quiet_holds (handling job_id))|]. intros _.
  apply within_bind; [apply delete_remote_file_handling|]. intros _.
  apply mark_file_consumed_handling.
Qed.

(** Reading a job with an idle hand: the hand takes the job when it is
    past its execution or points at an artifact. *)
Lemma obeys_get_job {R} (Q : hand -> R -> Prop) E job_id (f : option Job -> prog R) :
  obeys Q E idle (f None) ->
  (forall job, settled job \/ pointing job -> obeys Q E (handling job_id) (f (Some job))) ->
  (forall job, ~ settled job -> ~ pointing job -> obeys Q E idle (f (Some job))) ->
  obeys Q E idle (job ← get_job job_id; f job).
Proof.
  intros Hnone Hseen Hnot. apply obeys_perform. intros e w x w' He.
  apply exec_locked in He as (-> & Hjobs & Hissued). simpl in *.
  destruct (jobs w !! job_id) as [job|] eqn:Hj.
  - assert (Decision (settled job)) as [Hs|Hs] by (unfold settled; apply _).
    { exists (handling job_id). split; [|by auto].
      apply passes_seen; [done|]. exists job. auto. }
    destruct (j_output_file job) as [p|] eqn:Ho.
    { exists (handling job_id). split.
      - apply passes_seen; [done|]. exists job. split; [done|]. right. left. by rewrite Ho.
      - apply Hseen. right. left. by rewrite Ho. }
    destruct (truthy (j_remote_file_id job)) as [remote_id|] eqn:Hr.
    { exists (handling job_id). split.
      - apply passes_seen; [done|]. exists job. split; [done|]. right. right. by rewrite Hr.
      - apply Hseen. right. right. by rewrite Hr. }
    exists idle. split; [by constructor|]. apply Hnot; [done|].
    intros [Hp|Hp]; [by rewrite Ho in Hp|by rewrite Hr in Hp].
  - exists idle. split; [by constructor|done].
Qed.

Lemma delete_remote_file_obeys job_id :
  obeys (fun h _ => h = idle \/ h = handling job_id) anything idle
    (delete_remote_file job_id).
Proof.
  unfold delete_remote_file. apply obeys_get_job.
  - by left.
  - intros job _. apply (obeys_holds (handling job_id)); [|by right|done].
    destruct (truthy _); [apply delete_remote_file_tail|constructor].
  - intros job _ Hp. destruct (truthy _) as [remote_id|] eqn:Hr; [|by left].
    destruct Hp. right. by rewrite Hr.
Qed.

(** The maker's updates that write no outcome yet. *)
Lemma update_job_making job_id updates :
  (forall job t, unfinished job -> unfinished (assign (update job updates) (updated_at_ t))) ->
  within (making_step job_id) (_update_job job_id updates).
Proof.
  intros Hok. constructor; [|intros [exc|job]; constructor]. intros e w x w'.
  apply locked_making. intros t js.
  destruct (js !! job_id) as [job|] eqn:Hj; [|by left].
  right. eexists. split; [reflexivity|]. intros Hown. apply Hok. auto.
Qed.

(** The update that writes the outcome ends the making; when the job is
    not there it raises and changes nothing. *)
Lemma update_job_outcome job_id updates :
  (forall job t,
     unfinished job ->
     let job' := assign (update job updates) (updated_at_ t) in
     j_status job' = completed \/ (j_status job' = failed /\ artifacts_null job')) ->
  obeys anything (fun h _ => h = making job_id) (making job_id)
    (_update_job job_id updates).
Proof.
  intros Hok e w x w' He. simpl in He.
  destruct (jobs w !! job_id) as [job|] eqn:Hj; injection He as <- <-.
  - exists idle. split; [|done]. constructor. split; [done|]. simpl. split; [|split].
    + intros other Hne. by rewrite lookup_insert_ne.
    + by rewrite Hj.
    + intros Hown. eexists. rewrite lookup_insert_eq. split; [reflexivity|].
      apply Hok. by apply Hown.
  - exists (making job_id). split; [|done]. constructor.
    apply (same_store_holds (making job_id)). by destruct w.
Qed.

Lemma process_job_obeys job_id :
  obeys anything anything (making job_id) (process_job job_id).
Proof.
  unfold process_job.
  in_hand (making job_id) ltac:(apply get_job_holds). intros [job|]; [|done].
  in_hand (making job_id) ltac:(apply update_job_making).
  { intros [] t [Hs Ha]. split; [|exact Ha]. simpl. rewrite !elem_of_cons. auto. }
  intros _.
  apply obeys_try_except with (E := fun h _ => h = making job_id).
  - in_hand (making job_id) ltac:(apply framed_holds, download_video_frame).
    intros output_file. cbv zeta.
    in_hand (making job_id) ltac:(by apply quiet_holds). intros res.
    assert (forall remote_details remote_error,
              obeys anything (fun h _ => h = making job_id) (making job_id)
                (let updates :=
                   [status_ completed; output_file_ (Some output_file);
                    download_url_ (Some ("/download/" +:+ job_id +:+ "/file"))] in
                 let updates :=
                   match remote_details with
                   | Some d =>
                       (updates ++ [remote_file_id_ (Some (file_id d));
                                    remote_file_url_ (Some (download_url d));
                                    remote_file_view_url_ (Some (view_url d))])%list
                   | None => updates
                   end in
                 let updates :=
                   match truthy remote_error with
                   | Some text =>
                       (updates
                        ++ [error_ (Some ("Google Drive upload failed: " +:+ text))])%list
                   | None => updates
                   end in
                 _ ← _update_job job_id updates; Ret tt)) as Hfinal.
    { intros remote_details remote_error. cbv zeta.
      eapply obeys_bind; [|by intros].
      apply update_job_outcome.
      destruct remote_details, (truthy remote_error); intros [] t _; by left. }
    destruct res as [exc|[client|]]; cbv beta iota.
    + apply (Hfinal None).
    + eapply obeys_bind with (Q := fun h _ => h = making job_id).
      * in_hand (making job_id) ltac:(by apply quiet_holds).
        by intros [exc|details].
      * intros h [remote_details remote_error] ->. apply Hfinal.
    + apply (Hfinal None).
  - intros h exc ->. eapply obeys_bind; [|by intros].
    eapply obeys_weaken; [| |apply update_job_outcome]; [done|done|].
    intros [] t [_ (Ho & _)]. right. simpl in *. by repeat split.
Qed.

Lemma create_job_obeys url output_path format_choice ffmpeg_location :
  obeys (fun h job => h = making (j_id job)) anything drawing
    (create_job url output_path format_choice ffmpeg_location).
Proof.
  unfold create_job. apply obeys_perform. intros e w x w' He. simpl in He.
  destruct e as [[hex| | | |]|]; try done. case_bool_decide as Hfresh; [done|].
  injection He as <- <-. exists (making hex). split; [by constructor|].
  destruct (expanduser _) as [exc|expanded]; [done|]. cbn [lift].
  change (Ret expanded ≫= ?f) with (f expanded). cbv beta.
  in_hand (making hex) ltac:(by apply quiet_holds). intros created.
  in_hand (making hex) ltac:(by apply quiet_holds). intros updated.
  apply (obeys_bind_holds (making hex)); [|done|by intros].
  constructor; [|constructor].
  intros e w1 x w1'. apply locked_making. intros t js. right.
  eexists. split; [reflexivity|]. intros _. split; [|by repeat split].
  simpl. rewrite !elem_of_cons. auto.
Qed.

Lemma enqueue_download_obeys payload :
  obeys entrusted anything drawing (enqueue_download payload).
Proof.
  unfold enqueue_download. destruct (negb _); [done|].
  eapply obeys_bind with (Q := fun h _ => h = drawing).
  - destruct (truthy _); [|done].
    eapply obeys_try_except with (E := fun h _ => h = drawing).
    + apply (obeys_holds drawing);
        [apply framed_holds, resolve_ffmpeg_location_frame|done|done].
    + by intros h [] ->.
  - intros h resolved_ffmpeg ->.
    eapply obeys_bind; [apply create_job_obeys|]. by intros h job ->.
Qed.

Lemma download_file_obeys job_id as_base64 auto_delete :
  obeys entrusted anything idle (download_file job_id as_base64 auto_delete).
Proof.
  unfold download_file. apply obeys_get_job; [done| |].
  - intros job _. cbv zeta.
    repeat (destruct (bool_decide _); [done|]).
    destruct (negb _); [done|].
    destruct (j_output_file job) as [file_path|]; [|done].
    in_hand (handling job_id) ltac:(by apply quiet_holds). intros []; [|done]. cbn [negb].
    in_hand (handling job_id) ltac:(apply mark_delivering_handling). intros _.
    destruct as_base64; [|by destruct auto_delete].
    in_hand (handling job_id) ltac:(by apply raising_quiet_holds). intros file_size.
    in_hand (handling job_id) ltac:(by apply raising_quiet_holds). intros data.
    apply (obeys_bind_holds (handling job_id)); [|done|by intros].
    destruct auto_delete;
      [apply cleanup_after_delivery_handling|apply mark_downloaded_handling].
  - intros job Hs Hp. cbv zeta.
    repeat (destruct (bool_decide _); [done|]).
    destruct (negb _); [done|].
    destruct (j_output_file job) as [file_path|] eqn:Ho; [|done].
    destruct Hp. left. by rewrite Ho.
Qed.

Lemma manual_cleanup_obeys job_id :
  obeys entrusted anything idle (manual_cleanup job_id).
Proof.
  unfold manual_cleanup. apply obeys_get_job; [done| |].
  - intros job _. cbv zeta.
    assert (obeys entrusted anything (handling job_id)
              (_ ← delete_remote_file job_id;
               _ ← (if bool_decide (j_status job ∈ [completed; delivering; downloaded])
                    then mark_file_consumed job_id
                    else Ret tt);
               Ret (json_message "ไฟล์ไม่พบหรือถูกลบไปแล้ว" None))) as Hrest.
    { in_hand (handling job_id) ltac:(apply delete_remote_file_handling). intros _.
      apply (obeys_bind_holds (handling job_id)); [|done|by intros].
      destruct (bool_decide _); [apply mark_file_consumed_handling|constructor]. }
    destruct (j_output_file job) as [file_path|]; [|exact Hrest].
    in_hand (handling job_id) ltac:(by apply quiet_holds). intros []; [|exact Hrest].
    in_hand (handling job_id) ltac:(apply cleanup_after_delivery_handling). by intros.
  - intros job Hs Hp. cbv zeta.
    destruct (j_output_file job) as [file_path|] eqn:Ho.
    { destruct Hp. left. by rewrite Ho. }
    rewrite bool_decide_eq_false_2.
    + eapply obeys_bind; [apply delete_remote_file_obeys|]. by intros.
    + intros Hin. apply Hs. unfold settled.
      rewrite !elem_of_cons, elem_of_nil in Hin. rewrite !elem_of_cons. tauto.
Qed.

Lemma endpoint_obeys r : obeys entrusted anything (hand_of r) (endpoint r).
Proof.
  destruct r; cbn [endpoint hand_of].
  - done.
  - apply enqueue_download_obeys.
  - unfold get_status. in_hand idle ltac:(apply get_job_holds). by intros [job|].
  - unfold list_jobs_handler. in_hand idle ltac:(apply list_jobs_holds). by intros l.
  - apply download_file_obeys.
  - apply manual_cleanup_obeys.
Qed.

Lemma run_background_obeys h bg :
  match bg with
  | bg_process_job job_id => h = making job_id
  | bg_cleanup_after_delivery job_id _ | bg_mark_downloaded job_id => h = handling job_id
  end ->
  obeys anything anything h (run_background bg).
Proof.
  destruct bg as [job_id|job_id output_path|job_id]; intros ->; cbn [run_background].
  - apply process_job_obeys.
  - apply (obeys_holds (handling job_id)); [apply cleanup_after_delivery_handling|done|done].
  - apply (obeys_holds (handling job_id)); [apply mark_downloaded_handling|done|done].
Qed.

Lemma serve_obeys r : obeys anything anything (hand_of r) (serve r).
Proof.
  unfold serve. apply obeys_try_except with (E := anything); [|by intros h []].
  eapply obeys_bind; [apply endpoint_obeys|]. cbv beta.
  intros h resp Hresp.
  destruct resp as [|? ? ? ? ? bg| | | | p filename media_type bg|]; try done.
  - eapply obeys_bind with (Q := anything); [|by intros].
    eapply obeys_try_except; [by apply run_background_obeys|by intros].
  - apply obeys_bind with (Q := fun h' _ => h' = h).
    + apply obeys_holds; [by apply raising_quiet_holds|done|done].
    + intros h' data ->.
      eapply obeys_bind with (Q := anything); [|by intros].
      eapply obeys_try_except; [by apply run_background_obeys|by intros].
Qed.

End Hands.

Lemma crew_lookup hands ts i p :
  crew hands ts -> ts !! i = Some p ->
  exists h, hands !! i = Some h /\ obeys anything anything h p.
Proof.
  revert ts i. induction hands as [|h hands IH]; intros [|q ts] i Hc Hi; try done.
  destruct Hc as [Hh Hc]. destruct i as [|i]; simpl in *.
  - injection Hi as <-. eauto.
  - eauto.
Qed.

Lemma crew_insert hands ts i h p :
  crew hands ts -> obeys anything anything h p ->
  crew (<[i := h]> hands) (<[i := p]> ts).
Proof.
  revert ts i. induction hands as [|h0 hands IH]; intros [|q ts] i Hc Hp; try done.
  destruct Hc as [Hh Hc]. destruct i as [|i]; simpl; auto.
Qed.

Lemma crew_snoc hands ts h p :
  crew hands ts -> obeys anything anything h p ->
  crew (hands ++ [h])%list (ts ++ [p])%list.
Proof.
  revert ts. induction hands as [|h0 hands IH]; intros [|q ts] Hc Hp; try done.
  destruct Hc as [Hh Hc]. simpl. auto.
Qed.

Lemma lookup_snoc_hand (hands : list hand) h i h' :
  (hands ++ [h])%list !! i = Some h' -> hands !! i = Some h' \/ h' = h.
Proof.
  intros Hi. destruct (decide (i < List.length hands)%nat) as [Hlt|Hge].
  - left. by rewrite lookup_app_l in Hi.
  - right. rewrite lookup_app_r in Hi by lia.
    destruct (i - List.length hands)%nat; [|done]. by injection Hi.
Qed.

Lemma lookup_insert_hand (hands : list hand) i h j h' :
  <[i := h]> hands !! j = Some h' ->
  (i = j /\ h' = h) \/ (i <> j /\ hands !! j = Some h').
Proof.
  intros Hj. destruct (decide (i = j)) as [->|Hne].
  - left. split; [done|].
    destruct (decide (j < List.length hands)%nat) as [Hlt|Hge].
    + rewrite list_lookup_insert_eq in Hj by done. by injection Hj.
    + rewrite list_insert_ge in Hj by lia. apply lookup_lt_Some in Hj. lia.
  - right. by rewrite list_lookup_insert_ne in Hj.
Qed.

Section Steadiness.
Context {lib : PyLib}.

Lemma steady_arrive hands s r :
  steady hands s ->
  steady (hands ++ [hand_of r])
    {| sys_world := sys_world s; tasks := (tasks s ++ [serve r])%list |}.
Proof.
  intros [Hc Hco Hm Hd Hh Hdom].
  split; simpl; auto.
  - apply crew_snoc; [done|apply serve_obeys].
  - intros i job_id Hi.
    destruct (lookup_snoc_hand _ _ _ _ Hi) as [Hi'|Heq]; [eauto|by destruct r].
  - intros i j job_id Hi Hj.
    destruct (lookup_snoc_hand _ _ _ _ Hi) as [Hi'|Heq]; [|by destruct r].
    destruct (lookup_snoc_hand _ _ _ _ Hj) as [Hj'|Heq]; [|by destruct r]. eauto.
  - intros i job_id Hi.
    destruct (lookup_snoc_hand _ _ _ _ Hi) as [Hi'|Heq]; [eauto|by destruct r].
Qed.

(** A step that leaves the job table as it is. *)
Lemma steady_untouched hands w w' ts :
  steady hands {| sys_world := w; tasks := ts |} -> untouched w w' ->
  forall ts', crew hands ts' -> steady hands {| sys_world := w'; tasks := ts' |}.
Proof.
  intros [Hc Hco Hm Hd Hh Hdom] [Hj Hi] ts' Hc'. simpl in *.
  split; simpl; unfold own_unfinished; rewrite ?Hj, ?Hi; auto.
Qed.

(** An idle hand takes a job it has seen. *)
Lemma steady_seen hands w w' ts i job_id :
  steady hands {| sys_world := w; tasks := ts |} -> untouched w w' -> seen job_id w ->
  forall ts', crew (<[i := handling job_id]> hands) ts' ->
  steady (<[i := handling job_id]> hands) {| sys_world := w'; tasks := ts' |}.
Proof.
  intros [Hc Hco Hm Hd Hh Hdom] [Hj Hi] (job & Hjob & Hseen) ts' Hc'. simpl in *.
  split; simpl; unfold own_unfinished; rewrite ?Hj, ?Hi; auto.
  - intros j other Hhand.
    destruct (lookup_insert_hand _ _ _ _ _ Hhand) as [[_ [=]]|[_ Hhand']]. eauto.
  - intros j1 j2 other H1 H2.
    destruct (lookup_insert_hand _ _ _ _ _ H1) as [[_ [=]]|[_ H1']].
    destruct (lookup_insert_hand _ _ _ _ _ H2) as [[_ [=]]|[_ H2']]. eauto.
  - intros j other Hhand.
    destruct (lookup_insert_hand _ _ _ _ _ Hhand) as [[_ [= ->]]|[_ Hhand']]; [|eauto].
    exists job. split; [done|]. destruct Hseen; eauto.
Qed.

(** The drawing hand draws its identifier. *)
Lemma steady_draw hands w ts i hex :
  steady hands {| sys_world := w; tasks := ts |} -> hex ∉ issued w ->
  forall ts', crew (<[i := making hex]> hands) ts' ->
  steady (<[i := making hex]> hands) {| sys_world := issue hex w; tasks := ts' |}.
Proof.
  intros [Hc Hco Hm Hd Hh Hdom] Hfresh ts' Hc'. simpl in *. split; simpl; auto.
  - intros j job_id Hhand.
    destruct (lookup_insert_hand _ _ _ _ _ Hhand) as [[_ Heq]|[Hne Hhand']].
    + injection Heq as ->. split; [apply issue_self|].
      intros job Hjob. destruct Hfresh. eauto.
    + destruct (Hm _ _ Hhand') as [Hin Hown]. split; [by apply issue_mono|done].
  - intros j1 j2 job_id H1 H2.
    destruct (lookup_insert_hand _ _ _ _ _ H1) as [[<- Heq1]|[Hne1 H1']],
             (lookup_insert_hand _ _ _ _ _ H2) as [[<- Heq2]|[Hne2 H2']].
    + done.
    + injection Heq1 as ->. destruct Hfresh. by apply (Hm _ _ H2').
    + injection Heq2 as ->. destruct Hfresh. by apply (Hm _ _ H1').
    + eauto.
  - intros j job_id Hhand.
    destruct (lookup_insert_hand _ _ _ _ _ Hhand) as [[_ [=]]|[_ Hhand']]. eauto.
  - intros job_id job Hjob. apply (issue_mono hex w). eauto.
Qed.

(** The maker writes to its job. *)
Lemma steady_making_step hands w w' ts i job_id :
  steady hands {| sys_world := w; tasks := ts |} ->
  hands !! i = Some (making job_id) -> making_step job_id w w' ->
  forall ts', crew hands ts' -> steady hands {| sys_world := w'; tasks := ts' |}.
Proof.
  intros [Hc Hco Hm Hd Hh Hdom] Hhand (Hi & Hothers & Hown) ts' Hc'. simpl in *.
  destruct (Hm _ _ Hhand) as [Hin Hmine]. specialize (Hown Hmine).
  split; simpl; auto.
  - intros other job' Hjob' Hp. destruct (decide (other = job_id)) as [->|Hne].
    + destruct (unfinished_not_pointing job'); auto.
    + rewrite (Hothers _ Hne) in Hjob'. eauto.
  - intros j other Hhand'. rewrite Hi. destruct (Hm _ _ Hhand') as [Hin' Hown'].
    split; [done|]. destruct (decide (other = job_id)) as [->|Hne]; [done|].
    unfold own_unfinished. by rewrite (Hothers _ Hne).
  - intros j other Hhand'. destruct (Hh _ _ Hhand') as (job & Hjob & Hs).
    destruct (decide (other = job_id)) as [->|Hne].
    + destruct (unfinished_not_settled job); auto.
    + rewrite (Hothers _ Hne). eauto.
  - intros other job' Hjob'. rewrite Hi. destruct (decide (other = job_id)) as [->|Hne].
    + done.
    + rewrite (Hothers _ Hne) in Hjob'. eauto.
Qed.

(** The maker writes the outcome and becomes idle. *)
Lemma steady_outcome hands w w' ts i job_id :
  steady hands {| sys_world := w; tasks := ts |} ->
  hands !! i = Some (making job_id) -> outcome_step job_id w w' ->
  forall ts', crew (<[i := idle]> hands) ts' ->
  steady (<[i := idle]> hands) {| sys_world := w'; tasks := ts' |}.
Proof.
  intros [Hc Hco Hm Hd Hh Hdom] Hhand (Hi & Hothers & [job Hjob] & Hout) ts' Hc'.
  simpl in *. destruct (Hm _ _ Hhand) as [Hin Hmine].
  destruct (Hout Hmine) as (job1 & Hjob1 & Hs1).
  split; simpl; auto.
  - intros other job' Hjob' Hp. destruct (decide (other = job_id)) as [->|Hne].
    + rewrite Hjob' in Hjob1. injection Hjob1 as <-.
      destruct Hs1 as [Hs1|[_ (Ho & _ & Hr & _)]].
      * unfold settled. rewrite Hs1, !elem_of_cons. auto.
      * destruct Hp as [Hp|Hp]; [done|]. by rewrite Hr in Hp.
    + rewrite (Hothers _ Hne) in Hjob'. eauto.
  - intros j other Hhand'.
    destruct (lookup_insert_hand _ _ _ _ _ Hhand') as [[_ [=]]|[Hne Hhand'']].
    rewrite Hi. destruct (Hm _ _ Hhand'') as [Hin' Hown']. split; [done|].
    destruct (decide (other = job_id)) as [->|Hne'].
    + destruct Hne. eauto.
    + unfold own_unfinished. by rewrite (Hothers _ Hne').
  - intros j1 j2 other H1 H2.
    destruct (lookup_insert_hand _ _ _ _ _ H1) as [[_ [=]]|[_ H1']].
    destruct (lookup_insert_hand _ _ _ _ _ H2) as [[_ [=]]|[_ H2']]. eauto.
  - intros j other Hhand'.
    destruct (lookup_insert_hand _ _ _ _ _ Hhand') as [[_ [=]]|[_ Hhand'']].
    destruct (Hh _ _ Hhand'') as (job0 & Hjob0 & Hs).
    destruct (decide (other = job_id)) as [->|Hne].
    + destruct (unfinished_not_settled job0); auto.
    + rewrite (Hothers _ Hne). eauto.
  - intros other job' Hjob'. rewrite Hi. destruct (decide (other = job_id)) as [->|Hne].
    + done.
    + rewrite (Hothers _ Hne) in Hjob'. eauto.
Qed.

(** The handler writes to its job. *)
Lemma steady_handling_step hands w w' ts i job_id :
  steady hands {| sys_world := w; tasks := ts |} ->
  hands !! i = Some (handling job_id) -> handling_step job_id w w' ->
  forall ts', crew hands ts' -> steady hands {| sys_world := w'; tasks := ts' |}.
Proof.
  intros [Hc Hco Hm Hd Hh Hdom] Hhand (Hi & Hothers & Hown) ts' Hc'. simpl in *.
  destruct (Hh _ _ Hhand) as (job & Hjob & Hs).
  assert (exists job', jobs w' !! job_id = Some job' /\ settled job') as (job1 & Hjob1 & Hs1).
  { destruct Hown as [Hsame|(job0 & job' & Hjob0 & Hjob' & Hf)].
    - rewrite Hsame. eauto.
    - rewrite Hjob in Hjob0. injection Hjob0 as <-. eauto using fades_settled. }
  split; simpl; auto.
  - intros other job' Hjob' Hp. destruct (decide (other = job_id)) as [->|Hne].
    + rewrite Hjob' in Hjob1. by injection Hjob1 as <-.
    + rewrite (Hothers _ Hne) in Hjob'. eauto.
  - intros j other Hhand'. rewrite Hi. destruct (Hm _ _ Hhand') as [Hin Hmine].
    split; [done|]. destruct (decide (other = job_id)) as [->|Hne].
    + destruct (unfinished_not_settled job); auto.
    + unfold own_unfinished. by rewrite (Hothers _ Hne).
  - intros j other Hhand'. destruct (decide (other = job_id)) as [->|Hne]; [eauto|].
    rewrite (Hothers _ Hne). eauto.
  - intros other job' Hjob'. rewrite Hi. destruct (decide (other = job_id)) as [->|Hne].
    + eauto.
    + rewrite (Hothers _ Hne) in Hjob'. eauto.
Qed.

(** Whatever step a task takes, a spent job stays spent. *)
Lemma passes_spent hands w ts i h w' h' job_id job :
  steady hands {| sys_world := w; tasks := ts |} ->
  hands !! i = Some h -> passes h w w' h' ->
  jobs w !! job_id = Some job -> spent job ->
  exists job', jobs w' !! job_id = Some job' /\ spent job'.
Proof.
  intros Hs Hhand Hp Hjob Hspent.
  destruct Hp as [w w' [Hj _]|id w w' [Hj _] _|w w' [Hj _]|hex w Hfresh
                 |id w w' (_ & Hothers & _)|id w w' (_ & Hothers & _)
                 |id w w' (_ & Hothers & Hown)].
  - rewrite Hj. eauto.
  - rewrite Hj. eauto.
  - rewrite Hj. eauto.
  - simpl. eauto.
  - destruct (decide (job_id = id)) as [->|Hne]; [|rewrite (Hothers _ Hne); eauto].
    destruct (steady_making _ _ Hs _ _ Hhand) as [_ Hmine].
    destruct (unfinished_not_settled job); [by apply Hmine|by apply spent_settled].
  - destruct (decide (job_id = id)) as [->|Hne]; [|rewrite (Hothers _ Hne); eauto].
    destruct (steady_making _ _ Hs _ _ Hhand) as [_ Hmine].
    destruct (unfinished_not_settled job); [by apply Hmine|by apply spent_settled].
  - destruct (decide (job_id = id)) as [->|Hne]; [|rewrite (Hothers _ Hne); eauto].
    destruct Hown as [Hsame|(job0 & job' & Hjob0 & Hjob' & Hf)].
    + rewrite Hsame. eauto.
    + rewrite Hjob in Hjob0. injection Hjob0 as <-. eauto using fades_spent.
Qed.

Lemma sys_step_steady l hands s s' :
  steady hands s -> sys_step l s = Some s' ->
  (exists hands', steady hands' s')
  /\ forall job_id job,
       jobs (sys_world s) !! job_id = Some job -> spent job ->
       exists job', jobs (sys_world s') !! job_id = Some job' /\ spent job'.
Proof.
  intros Hs Hstep. destruct l as [r|i e|t|p]; simpl in Hstep.
  - injection Hstep as <-. split; [|by eauto]. eexists. by apply steady_arrive.
  - destruct (tasks s !! i) as [[x|exc|X a k]|] eqn:Hi; try done.
    destruct (exec a e (sys_world s)) as [[x w']|] eqn:He; [|done].
    injection Hstep as <-.
    destruct (crew_lookup _ _ _ _ (steady_crew _ _ Hs) Hi) as (h & Hh & Hobeys).
    destruct (Hobeys e (sys_world s) x w' He) as (h' & Hmove & Hk).
    pose proof (crew_insert _ _ i h' (k x) (steady_crew _ _ Hs) Hk) as Hc'.
    destruct s as [w ts]. simpl in *. split.
    + exists (<[i := h']> hands).
      destruct Hmove as [w w' Hu|job_id w w' Hu Hseen|w w' Hu|hex w Hfresh
                        |job_id w w' Hm|job_id w w' Ho|job_id w w' Hm].
      * rewrite list_insert_id in * by done. by eapply steady_untouched.
      * by eapply steady_seen.
      * rewrite list_insert_id in * by done. by eapply steady_untouched.
      * by eapply steady_draw.
      * rewrite list_insert_id in * by done. by eapply steady_making_step.
      * by eapply steady_outcome.
      * rewrite list_insert_id in * by done. by eapply steady_handling_step.
    + intros job_id job. by eapply passes_spent.
  - injection Hstep as <-. split; [|by eauto]. exists hands. destruct Hs. by split.
  - injection Hstep as <-. split; [|by eauto]. exists hands. destruct Hs. by split.
Qed.

Lemma schedule_steady ls hands s s' :
  steady hands s -> schedule ls s = Some s' ->
  (exists hands', steady hands' s')
  /\ forall job_id job,
       jobs (sys_world s) !! job_id = Some job -> spent job ->
       exists job', jobs (sys_world s') !! job_id = Some job' /\ spent job'.
Proof.
  revert hands s. induction ls as [|l ls IH]; intros hands s Hs Hrun; simpl in Hrun.
  - injection Hrun as <-. eauto.
  - destruct (sys_step l s) as [s1|] eqn:Hstep; [|done].
    destruct (sys_step_steady _ _ _ _ Hs Hstep) as [[hands1 Hs1] Hspent].
    destruct (IH _ _ Hs1 Hrun) as [Hsteady Hspent']. split; [done|].
    intros job_id job Hjob Hsp.
    destruct (Hspent _ _ Hjob Hsp) as (job1 & Hjob1 & Hsp1). eauto.
Qed.

Lemma boot_steady disk t : steady [] (boot disk t).
Proof. split; simpl; try done. Qed.

(** C4.  In every state the server can reach, under any interleaving of
    submissions, job executions, deliveries and clean-ups, a job whose
    status is [delivered] has [output_file], [download_url],
    [remote_file_id], [remote_file_url] and [remote_file_view_url] null.
    Whatever happens afterwards, this stays so for every job that is
    [delivered] then; and the job that is [delivered] now is still there
    then, in a delivery status, with the five fields null: nothing writes
    them again, also when a deferred mark has moved the job out of
    [delivered]. *)
Theorem delivered_job_has_no_artifact disk t events s :
  schedule events (boot disk t) = Some s ->
  delivered_bare (sys_world s)
  /\ (forall later s', schedule later s = Some s' -> delivered_bare (sys_world s'))
  /\ (forall job_id job later s',
        jobs (sys_world s) !! job_id = Some job -> j_status job = delivered ->
        schedule later s = Some s' ->
        exists job',
          jobs (sys_world s') !! job_id = Some job'
          /\ j_status job' ∈ [delivering; downloaded; delivered]
          /\ artifacts_null job').
Proof.
  intros Hrun.
  destruct (reachable_delivered_bare disk t events s Hrun) as [Hbare Hlater].
  split; [done|]. split; [done|].
  intros job_id job later s' Hjob Hst Hrun'.
  destruct (schedule_steady _ _ _ _ (boot_steady disk t) Hrun) as [[hands Hs] _].
  destruct (schedule_steady _ _ _ _ Hs Hrun') as [_ Hspent].
  apply (Hspent job_id job Hjob). split.
  - rewrite Hst, !elem_of_cons. auto.
  - by apply (Hbare job_id job).
Qed.

End Steadiness.

(** * More of the program *)

(** ** Format presets *)

Lemma format_not_key s :
  s ∈ ["best"; "bv*+ba/best"; "bv*"; "ba/best"] -> s ∉ valid_formats.
Proof.
  rewrite valid_formats_keys, !elem_of_cons, !elem_of_nil.
  intros [->|[->|[->|[->|[]]]]] Hin; intuition discriminate.
Qed.

Lemma resolve_preset_key s :
  s ∈ valid_formats -> resolve_format_choice s ∈ ["best"; "bv*+ba/best"; "bv*"; "ba/best"].
Proof.
  rewrite valid_formats_keys, !elem_of_cons, !elem_of_nil.
  intros [->|[->|[->|[->|[]]]]]; auto.
Qed.

(** X1.  [resolve_format_choice] never returns the empty string and never
    returns a preset key, and resolving its result again changes nothing. *)
Theorem resolve_format_choice_settles format_choice :
  resolve_format_choice format_choice <> ""
  /\ (resolve_format_choice format_choice ∉ valid_formats)
  /\ resolve_format_choice (resolve_format_choice format_choice)
     = resolve_format_choice format_choice.
Proof.
  assert (forall s, s ∉ valid_formats -> s <> "" ->
            s <> "" /\ (s ∉ valid_formats) /\ resolve_format_choice s = s) as Hraw.
  { intros s Hnin Hne. by rewrite resolve_format_choice_passthrough. }
  destruct (decide (format_choice ∈ valid_formats)) as [Hin|Hnin].
  - apply resolve_preset_key in Hin.
    apply Hraw; [by apply format_not_key|].
    rewrite !elem_of_cons, elem_of_nil in Hin. intros He. rewrite He in Hin.
    intuition discriminate.
  - destruct (decide (format_choice = "")) as [->|Hne].
    + change (resolve_format_choice "") with "best".
      apply Hraw; [|done]. apply format_not_key. by left.
    + rewrite resolve_format_choice_passthrough by done. by apply Hraw.
Qed.

(** ** The fragment pattern *)

Lemma skip_split p s : exists pre, s = pre +:+ skip p s /\ all_chars p pre = true.
Proof.
  induction s as [|c s (pre & Hs & Hp)]; [by exists ""|]. simpl.
  destruct (p c) eqn:Hc; [|by exists ""].
  exists (String c pre). rewrite append_cons. simpl. rewrite Hc, Hp.
  split; [by f_equal|done].
Qed.

Section Pattern.
Context {lib : PyLib}.


End Pattern.

(** ** Looking for the file on disk *)

Section Recovery.
Context {lib : PyLib}.

Lemma run_first_existing candidates w env :
  run (first_existing candidates) w env
  = Some (inr (List.find (fun c => bool_decide (is_Some (fs w !! c))) candidates), w, env).
Proof.
  induction candidates as [|c cs IH]; [done|].
  cbn [first_existing List.find]. rewrite run_path_exists.
  by destruct (bool_decide _).
Qed.

Lemma find_first {A} (f : A -> bool) l x :
  List.find f l = Some x ->
  exists before after, l = (before ++ x :: after)%list /\ f x = true
                       /\ forall y, y ∈ before -> f y = false.
Proof.
  induction l as [|a l IH]; [done|]. simpl. destruct (f a) eqn:Ha.
  - intros [= ->]. exists [], l. repeat split; [done|]. by intros y ?%elem_of_nil.
  - intros (before & after & -> & Hx & Hb)%IH. exists (a :: before), after.
    repeat split; [done|]. intros y [->|?]%elem_of_cons; auto.
Qed.




Lemma run_resolve_final_file_inv file_path w env q w' env' :
  run (_resolve_final_file file_path) w env = Some (inr q, w', env') ->
  w' = w /\ is_Some (fs w !! q).
Proof.
  unfold _resolve_final_file. rewrite run_path_exists.
  case_bool_decide as Hrep; [by intros [= <- <- <-]|].
  cbv zeta. unfold with_name. destruct (name file_path) eqn:Hname; [done|].
  rewrite run_bind. cbn [run]. rewrite run_path_exists.
  case_bool_decide as Halt; [by intros [= <- <- <-]|].
  rewrite run_bind. unfold raising at 1. cbn [run external exec].
  destruct env as [|[? |[exc|found]| | |]]; try done.
  cbn [run]. rewrite run_bind, run_first_existing.
  destruct (List.find _ _) as [c|] eqn:Hfind; [|done].
  intros [= <- <- <-]. split; [done|].
  apply find_first in Hfind as (_ & _ & _ & Hc & _). by apply bool_decide_eq_true in Hc.
Qed.

(** X4.  [_resolve_final_file] returns a reported path that is on disk as
    it is, without asking the environment for anything; and whatever path
    it returns is on disk, the world being left as it was. *)
Theorem resolve_final_file_returns_file_on_disk file_path w env :
  (is_Some (fs w !! file_path) ->
   run (_resolve_final_file file_path) w env = Some (inr file_path, w, env))
  /\ (forall q w' env',
        run (_resolve_final_file file_path) w env = Some (inr q, w', env') ->
        w' = w /\ is_Some (fs w !! q)).
Proof.
  split; [|apply run_resolve_final_file_inv].
  intros Hrep. unfold _resolve_final_file. rewrite run_path_exists.
  by rewrite bool_decide_eq_true_2.
Qed.

Lemma run_bind_inr {A B} (p : prog A) (f : A -> prog B) w env y w' env' :
  run (p ≫= f) w env = Some (inr y, w', env') ->
  exists x w1 env1,
    run p w env = Some (inr x, w1, env1) /\ run (f x) w1 env1 = Some (inr y, w', env').
Proof.
  rewrite run_bind. destruct (run p w env) as [[[[exc|x] w1] env1]|]; try done. eauto.
Qed.

Lemma run_download_video_on_disk url output_path format_choice ffmpeg_location
    w env p w' env' :
  run (download_video url output_path format_choice ffmpeg_location) w env
    = Some (inr p, w', env') ->
  is_Some (fs w' !! p).
Proof.
  unfold download_video.
  intros (expanded & w0 & env0 & _ & Hrun)%run_bind_inr.
  apply run_bind_inr in Hrun as (output_dir & w0' & env0' & _ & Hrun).
  apply run_bind_inr in Hrun as (r & w1 & env1 & _ & Hrun).
  destruct r as [exc|]; [done|]. cbv zeta in Hrun.
  apply run_bind_inr in Hrun as (resolved & w2 & env2 & _ & Hrun).
  apply run_bind_inr in Hrun as ([hooked i] & w3 & env3 & _ & Hrun).
  apply run_bind_inr in Hrun as (final_path & w4 & env4 & _ & Hrun).
  destruct final_path as [final_path|]; [|done].
  by apply run_resolve_final_file_inv in Hrun as [-> ?].
Qed.

(** X5.  Whenever [download_video] returns a path, that path is on disk
    when it returns, and the job table is as it was. *)
Theorem download_video_returns_file_on_disk url output_path format_choice ffmpeg_location
    w env p w' env' :
  run (download_video url output_path format_choice ffmpeg_location) w env
    = Some (inr p, w', env') ->
  is_Some (fs w' !! p) /\ jobs w' = jobs w.
Proof.
  intros Hrun. split; [by apply run_download_video_on_disk in Hrun|].
  by apply run_download_video_frame in Hrun as [? _].
Qed.

End Recovery.

(** ** The extraction engine reports nothing *)

Section Engine.
Context {lib : PyLib}.

(** X6.  [download_video] with no ffmpeg location given, when the output
    path expands and resolves to a directory that can be made, the bundled
    ffmpeg directory resolves, and the engine returns without a progress
    hook having named a file and without an info structure (or with one
    that names no path): it raises [RuntimeError] "no downloaded file
    found"; the job table is not touched. *)
Theorem download_video_nothing_reported url output_path format_choice ffmpeg_location
    expanded output_dir written hooks i w env :
  truthy ffmpeg_location = None ->
  expanduser (Path (default "." (truthy (Some output_path)))) = inr expanded ->
  resolve expanded = inr output_dir ->
  fst (mkdir_parents (fs w) output_dir) = None ->
  (forall exc, resolve DEFAULT_FFMPEG_DIR <> inl exc) ->
  last_filename hooks = None ->
  match i with Some i => info_candidates i = [] | None => True end ->
  exists w',
    run (download_video url output_path format_choice ffmpeg_location) w
      (extract_info_returns written hooks (inr i) :: env)
    = Some (inl (RuntimeError "ไม่พบไฟล์ที่ดาวน์โหลดสำเร็จ"), w', env)
    /\ jobs w' = jobs w.
Proof.
  intros Hff Hexp Hres Hmk Hbundled Hhooks Hinfo. unfold download_video.
  rewrite run_lift, Hexp, run_lift, Hres.
  rewrite run_bind. unfold perform at 1. cbn [run external exec].
  destruct (mkdir_parents _ _) as [r f]. simpl in Hmk. subst r. cbn [run].
  cbv zeta. rewrite run_bind, run_resolve_ffmpeg_location, Hff.
  assert (forall resolved w1,
            jobs w1 = jobs w ->
            exists w',
              run ('(hooked, i0) ← raising (ExtractInfo url
                       {| opt_outtmpl := path_str (output_dir ++ ["%(title)s.%(ext)s"])%list;
                          opt_format := resolve_format_choice format_choice;
                          opt_ffmpeg_location := truthy resolved |});
                   final_path ← match hooked with
                                | Some p => Ret (Some p)
                                | None => _pick_path_from_info i0
                                end;
                   match final_path with
                   | None => Raise (RuntimeError "ไม่พบไฟล์ที่ดาวน์โหลดสำเร็จ")
                   | Some final_path => _resolve_final_file final_path
                   end) w1 (extract_info_returns written hooks (inr i) :: env)
              = Some (inl (RuntimeError "ไม่พบไฟล์ที่ดาวน์โหลดสำเร็จ"), w', env)
              /\ jobs w' = jobs w) as Hrest.
  { intros resolved w1 Hjobs. rewrite run_bind. unfold raising at 1.
    cbn [run external exec]. rewrite Hhooks. rewrite run_bind.
    destruct i as [i|]; [|cbn [run _pick_path_from_info]; eauto].
    change (_pick_path_from_info (Some i)) with (first_existing (info_candidates i)).
    rewrite Hinfo. cbn [first_existing run]. eauto. }
  case_bool_decide; [|by apply Hrest].
  destruct (resolve DEFAULT_FFMPEG_DIR) as [exc|bundled] eqn:Hb; [by destruct (Hbundled exc)|].
  by apply Hrest.
Qed.

End Engine.

(** ** The job store, read back *)

Section Store.
Context {lib : PyLib}.

Lemma run_mark_file_consumed job_id w env :
  run (mark_file_consumed job_id) w env
  = Some (inr tt,
          match jobs w !! job_id with
          | Some job => with_jobs w (<[job_id := consumed job (now w)]> (jobs w))
          | None => w
          end, env).
Proof.
  unfold mark_file_consumed, perform. simpl.
  destruct (jobs w !! job_id); simpl; [done|]. by rewrite with_jobs_id.
Qed.

(** X7.  When the output path (or "." in its place) expands, a job that
    [create_job] has just made is read back by [get_job] under the
    identifier drawn for it: it is [queued], carries the request as given
    with the expanded output path, no error and no artifact; every other job
    and the disk are as they were.  When the expansion raises, [create_job]
    raises the same exception and the job table is as it was. *)
Theorem create_job_then_get_job url output_path format_choice ffmpeg_location hex w env :
  hex ∉ issued w ->
  (forall expanded,
      expanduser (Path (default "." (truthy output_path))) = inr expanded ->
      exists job w',
        run (create_job url output_path format_choice ffmpeg_location) w (uuid4_returns hex :: env)
          = Some (inr job, w', env)
        /\ run (get_job hex) w' env = Some (inr (Some job), w', env)
        /\ j_id job = hex /\ j_url job = url /\ j_format job = format_choice
        /\ j_output_path job = path_str expanded
        /\ j_ffmpeg_location job = ffmpeg_location
        /\ j_status job = queued /\ j_error job = None /\ artifacts_null job
        /\ (forall other, other <> hex -> jobs w' !! other = jobs w !! other)
        /\ fs w' = fs w)
  /\ (forall exc,
      expanduser (Path (default "." (truthy output_path))) = inl exc ->
      exists w',
        run (create_job url output_path format_choice ffmpeg_location) w (uuid4_returns hex :: env)
          = Some (inl exc, w', env)
        /\ jobs w' = jobs w /\ fs w' = fs w).
Proof.
  intros Hfresh. split.
  - intros expanded Hexp. eexists _, _. split; [by apply run_create_job|].
    rewrite run_get_job. simpl. rewrite lookup_insert_eq.
    repeat split; try done. intros other Hne. by rewrite lookup_insert_ne.
  - intros exc Hexp. unfold create_job. rewrite run_bind. unfold perform at 1.
    cbn [run external exec]. rewrite (bool_decide_eq_false_2 _ Hfresh).
    rewrite run_lift, Hexp. by eexists.
Qed.

(** X8.  [_update_job] on a job the store holds returns the job as it is
    stored afterwards ([get_job] reads the same), stamped with the current
    time whatever the updates say; every other job and the disk are as they
    were. *)
Theorem update_job_then_get_job job_id updates job w env :
  jobs w !! job_id = Some job ->
  exists job' w',
    run (_update_job job_id updates) w env = Some (inr job', w', env)
    /\ run (get_job job_id) w' env = Some (inr (Some job'), w', env)
    /\ j_updated_at job' = now w
    /\ (forall other, other <> job_id -> jobs w' !! other = jobs w !! other)
    /\ fs w' = fs w /\ now w' = now w.
Proof.
  intros Hj. eexists _, _. split; [by apply run_update_job_present|].
  rewrite run_get_job. simpl. rewrite lookup_insert_eq.
  repeat split; try done.
  - by destruct (update job updates).
  - intros other Hne. by rewrite lookup_insert_ne.
Qed.

(** X9.  [list_jobs] changes nothing and returns the jobs of the store,
    each stored job once: as many entries as the store has jobs, and a job
    is listed exactly when it is stored under some identifier. *)
Theorem list_jobs_lists_the_store w env :
  exists l,
    run list_jobs w env = Some (inr l, w, env)
    /\ List.length l = size (jobs w)
    /\ forall job, job ∈ l <-> exists job_id, jobs w !! job_id = Some job.
Proof.
  exists (snd <$> map_to_list (jobs w)). split; [|split].
  - unfold list_jobs, perform. simpl. by rewrite with_jobs_id.
  - by rewrite length_fmap, length_map_to_list.
  - intros job. rewrite list_elem_of_fmap. split.
    + intros ([job_id job'] & -> & Hin). exists job_id. by apply elem_of_map_to_list.
    + intros [job_id Hj]. exists (job_id, job). split; [done|]. by apply elem_of_map_to_list.
Qed.

Lemma run_delete_remote_file_unrelayed job_id w env :
  (forall job, jobs w !! job_id = Some job -> unrelayed job) ->
  run (delete_remote_file job_id) w env = Some (inr tt, w, env).
Proof.
  intros Hj. unfold delete_remote_file. rewrite run_bind, run_get_job.
  destruct (jobs w !! job_id) as [job|]; [|done]. cbv beta iota.
  by rewrite (Hj job eq_refl).
Qed.

Lemma run_delete_remote_file_relayed job_id job remote_id r w env :
  jobs w !! job_id = Some job -> truthy (j_remote_file_id job) = Some remote_id ->
  run (delete_remote_file job_id) w (drive_client_returns r :: env)
  = Some (inr tt,
          match r with
          | inr (Some _) =>
              with_jobs w (<[job_id := assign (update job [remote_file_id_ None;
                                                            remote_file_url_ None;
                                                            remote_file_view_url_ None])
                                         (updated_at_ (now w))]> (jobs w))
          | _ => w
          end, env).
Proof.
  intros Hj Hid. unfold delete_remote_file. rewrite run_bind, run_get_job, Hj.
  cbv beta iota. rewrite Hid. rewrite run_bind. unfold perform at 1.
  cbn [run external exec]. destruct r as [exc|[client|]]; try done.
  rewrite run_bind. unfold perform at 1. cbn [run external exec].
  by rewrite run_bind, (run_update_job_present _ _ _ _ _ Hj).
Qed.

(** X10.  [delete_remote_file]: for a job without a relay copy (or an
    unknown job) it returns at once, the relay client is not asked for;
    when the client cannot be had (building it raises, or there is none) it
    returns and the job keeps its remote fields; when the client is there,
    the three remote fields are cleared and the time stamp is renewed,
    status, output file, download URL and error staying as they were. *)
Theorem delete_remote_file_outcomes job_id w env :
  ((forall job, jobs w !! job_id = Some job -> unrelayed job) ->
   run (delete_remote_file job_id) w env = Some (inr tt, w, env))
  /\ (forall job remote_id r,
        jobs w !! job_id = Some job -> truthy (j_remote_file_id job) = Some remote_id ->
        exists w',
          run (delete_remote_file job_id) w (drive_client_returns r :: env)
            = Some (inr tt, w', env)
          /\ ((forall client, r <> inr (Some client)) -> w' = w)
          /\ ((exists client, r = inr (Some client)) ->
              exists job',
                w' = with_jobs w (<[job_id := job']> (jobs w))
                /\ j_remote_file_id job' = None /\ j_remote_file_url job' = None
                /\ j_remote_file_view_url job' = None
                /\ j_updated_at job' = now w
                /\ j_status job' = j_status job /\ j_output_file job' = j_output_file job
                /\ j_download_url job' = j_download_url job /\ j_error job' = j_error job)).
Proof.
  split; [apply run_delete_remote_file_unrelayed|].
  intros job remote_id r Hj Hid. eexists. split; [by eapply run_delete_remote_file_relayed|].
  split.
  - intros Hr. destruct r as [exc|[client|]]; try done. by destruct (Hr client).
  - intros [client ->]. eexists. split; [reflexivity|]. by destruct job.
Qed.

Lemma run_unlink {R} p (k : option exn -> prog R) w env :
  exists r, run (perform (Unlink p) ≫= k) w env = run (k r) (unlinked w p) env.
Proof.
  unfold unlinked, perform. cbn [mbind prog_bind bind run external exec].
  destruct (fs w !! p) as [[data|]|]; simpl; eauto.
Qed.

Lemma consumed_cleared job t t' :
  consumed (assign (assign (assign (assign job (remote_file_id_ None))
                      (remote_file_url_ None)) (remote_file_view_url_ None))
              (updated_at_ t')) t
  = consumed job t.
Proof. by destruct job. Qed.

Lemma consumed_shape job t :
  j_status (consumed job t) = delivered /\ artifacts_null (consumed job t)
  /\ j_error (consumed job t) = j_error job /\ unrelayed (consumed job t).
Proof. by destruct job. Qed.

Lemma unlinked_store w p : jobs (unlinked w p) = jobs w /\ now (unlinked w p) = now w.
Proof. unfold unlinked. by destruct (is_file_node _). Qed.

Lemma run_cleanup_after_delivery job_id output_path job answers w env :
  jobs w !! job_id = Some job -> relay_answers job answers ->
  run (_cleanup_after_delivery job_id output_path) w (answers ++ env)
  = Some (inr tt,
          with_jobs (unlinked w output_path)
            (<[job_id := consumed job (now w)]> (jobs w)), env).
Proof.
  intros Hj Hans. unfold _cleanup_after_delivery.
  destruct (run_unlink output_path
              (fun _ => _ ← delete_remote_file job_id; mark_file_consumed job_id)
              w (answers ++ env)) as [r ->].
  destruct (unlinked_store w output_path) as [Hjobs Hnow].
  assert (jobs (unlinked w output_path) !! job_id = Some job) as Hj' by by rewrite Hjobs.
  rewrite run_bind. unfold relay_answers in Hans.
  destruct (truthy (j_remote_file_id job)) as [remote_id|] eqn:Hid.
  - destruct Hans as [r' ->]. cbn [app].
    rewrite (run_delete_remote_file_relayed _ _ _ _ _ _ Hj' Hid).
    destruct r' as [exc|[client|]].
    + by rewrite run_mark_file_consumed, Hj', Hjobs, Hnow.
    + rewrite run_mark_file_consumed. simpl. rewrite lookup_insert_eq.
      by rewrite consumed_cleared, insert_insert_eq, Hjobs, Hnow.
    + by rewrite run_mark_file_consumed, Hj', Hjobs, Hnow.
  - subst answers. cbn [app]. rewrite run_delete_remote_file_unrelayed.
    + by rewrite run_mark_file_consumed, Hj', Hjobs, Hnow.
    + intros job'. rewrite Hj'. by intros [= <-].
Qed.

(** X11.  [_cleanup_after_delivery] never fails on a job the store holds:
    whether the file is there, already gone or not a file at all, and
    whether or not the relay client can be had, it returns normally and
    leaves the job [delivered] with every artifact field null; the path is
    unlinked when it names a file, nothing else on disk is touched. *)
Theorem cleanup_after_delivery_always_delivers job_id output_path job answers w env :
  jobs w !! job_id = Some job -> relay_answers job answers ->
  exists w' job',
    run (_cleanup_after_delivery job_id output_path) w (answers ++ env)
      = Some (inr tt, w', env)
    /\ jobs w' = <[job_id := job']> (jobs w)
    /\ j_status job' = delivered /\ artifacts_null job' /\ j_error job' = j_error job
    /\ fs w' = (if is_file_node (fs w !! output_path)
                then delete output_path (fs w) else fs w).
Proof.
  intros Hj Hans. eexists _, _. split; [by apply run_cleanup_after_delivery|].
  destruct (consumed_shape job (now w)) as (? & ? & ? & _).
  do 4 (split; [done|]). simpl. unfold unlinked.
  by destruct (is_file_node (fs w !! output_path)).
Qed.

Lemma run_manual_cleanup_rest job_id job w env :
  jobs w !! job_id = Some job -> unrelayed job ->
  (forall p, j_output_file job = Some p -> fs w !! p = None) ->
  run (manual_cleanup job_id) w env
  = Some (inr (json_message "ไฟล์ไม่พบหรือถูกลบไปแล้ว" None),
          if bool_decide (j_status job ∈ [completed; delivering; downloaded])
          then with_jobs w (<[job_id := consumed job (now w)]> (jobs w))
          else w, env).
Proof.
  intros Hj Hid Hgone. unfold manual_cleanup. rewrite run_bind, run_get_job, Hj.
  cbv beta iota zeta.
  assert (run (_ ← delete_remote_file job_id;
               _ ← (if bool_decide (j_status job ∈ [completed; delivering; downloaded])
                    then mark_file_consumed job_id
                    else Ret tt);
               Ret (json_message "ไฟล์ไม่พบหรือถูกลบไปแล้ว" None)) w env
          = Some (inr (json_message "ไฟล์ไม่พบหรือถูกลบไปแล้ว" None),
                  if bool_decide (j_status job ∈ [completed; delivering; downloaded])
                  then with_jobs w (<[job_id := consumed job (now w)]> (jobs w))
                  else w, env)) as Hrest.
  { rewrite run_bind, run_delete_remote_file_unrelayed.
    - rewrite run_bind. destruct (bool_decide _); [|done].
      by rewrite run_mark_file_consumed, Hj.
    - intros job'. rewrite Hj. by intros [= <-]. }
  destruct (j_output_file job) as [file_path|]; [|exact Hrest].
  rewrite run_path_exists, bool_decide_eq_false_2; [exact Hrest|].
  rewrite (Hgone file_path eq_refl). by intros [? ?].
Qed.

(** X12.  [DELETE /cleanup/{job_id}] for a job whose recorded file is not
    on disk (or that records none) and that has no relay copy: the answer
    is the "not found or already removed" message; a job that is
    [completed], [delivering] or [downloaded] becomes [delivered] with its
    artifact fields cleared, and a job in any other status ([queued],
    [downloading], [failed], [delivered]) is left exactly as it is, so a
    clean-up does not cancel a job that is still being worked on. *)
Theorem manual_cleanup_without_file job_id job w env :
  jobs w !! job_id = Some job -> unrelayed job ->
  (forall p, j_output_file job = Some p -> fs w !! p = None) ->
  exists w',
    run (manual_cleanup job_id) w env
      = Some (inr (json_message "ไฟล์ไม่พบหรือถูกลบไปแล้ว" None), w', env)
    /\ fs w' = fs w
    /\ (j_status job ∈ [completed; delivering; downloaded] ->
        exists job', jobs w' = <[job_id := job']> (jobs w)
                     /\ j_status job' = delivered /\ artifacts_null job')
    /\ (j_status job ∈ [queued; downloading; failed; delivered] -> w' = w).
Proof.
  intros Hj Hid Hgone. eexists. split; [by apply run_manual_cleanup_rest|].
  case_bool_decide as Hs; (split; [done|]); split.
  - intros _. eexists. split; [reflexivity|].
    by destruct (consumed_shape job (now w)) as (? & ? & _).
  - intros Hs'. exfalso. revert Hs Hs'. rewrite !elem_of_cons, !elem_of_nil.
    destruct (j_status job); intuition discriminate.
  - done.
  - done.
Qed.

(** X13.  [DELETE /cleanup/{job_id}] for a job whose recorded file is on
    disk removes the file, leaves the job [delivered] and names the file in
    its answer; a second clean-up right after it changes nothing more and
    answers that the file is not found or already removed. *)
Theorem manual_cleanup_twice job_id job file_path data answers w env :
  jobs w !! job_id = Some job -> j_output_file job = Some file_path ->
  fs w !! file_path = Some (File data) -> relay_answers job answers ->
  exists w',
    run (manual_cleanup job_id) w (answers ++ env)
      = Some (inr (json_message "ลบไฟล์สำเร็จ" (Some file_path)), w', env)
    /\ fs w' = delete file_path (fs w)
    /\ (exists job', jobs w' = <[job_id := job']> (jobs w)
                     /\ j_status job' = delivered /\ artifacts_null job')
    /\ run (manual_cleanup job_id) w' env
       = Some (inr (json_message "ไฟล์ไม่พบหรือถูกลบไปแล้ว" None), w', env).
Proof.
  intros Hj Ho Hfile Hans.
  destruct (consumed_shape job (now w)) as (Hs & Hnull & _ & Hid).
  eexists. split; [|split; [|split]].
  - unfold manual_cleanup. rewrite run_bind, run_get_job, Hj. cbv beta iota zeta.
    rewrite Ho, run_path_exists, bool_decide_eq_true_2 by by rewrite Hfile.
    by rewrite run_bind, (run_cleanup_after_delivery _ _ _ _ _ _ Hj Hans).
  - unfold unlinked. by rewrite Hfile.
  - eexists. split; [reflexivity|]. done.
  - rewrite (run_manual_cleanup_rest _ (consumed job (now w))).
    + by rewrite Hs.
    + simpl. apply lookup_insert_eq.
    + done.
    + destruct Hnull as [Hnone _]. rewrite Hnone. done.
Qed.

End Store.

(** ** A job from submission to delivery *)

Section Flows.
Context {lib : PyLib}.

Lemma run_process_job_success job_id job w env output_file w2 relay answers env3 :
  jobs w !! job_id = Some job ->
  run (download_video (j_url job) (j_output_path job) (j_format job)
         (j_ffmpeg_location job)) (started w job_id job) env
    = Some (inr output_file, w2, (answers ++ env3)%list) ->
  relay_succeeds relay answers ->
  exists w3 job3,
    run (process_job job_id) w env = Some (inr tt, w3, env3)
    /\ jobs w3 !! job_id = Some job3
    /\ j_status job3 = completed
    /\ j_output_file job3 = Some output_file
    /\ is_Some (fs w3 !! output_file)
    /\ j_download_url job3 = Some ("/download/" +:+ job_id +:+ "/file")
    /\ j_error job3 = None
    /\ match relay with
       | Some d =>
           j_remote_file_id job3 = Some (file_id d)
           /\ j_remote_file_url job3 = Some (download_url d)
           /\ j_remote_file_view_url job3 = Some (view_url d)
       | None =>
           j_remote_file_id job3 = j_remote_file_id job
           /\ j_remote_file_url job3 = j_remote_file_url job
           /\ j_remote_file_view_url job3 = j_remote_file_view_url job
       end.
Proof.
  intros Hj Hdl Hrelay. unfold process_job.
  rewrite run_bind, run_get_job, Hj. cbv beta iota.
  rewrite run_bind, (run_update_job_present _ _ _ _ _ Hj). cbv beta iota zeta.
  fold (started w job_id job).
  rewrite run_try_except, run_bind, Hdl. cbv beta iota.
  destruct (run_download_video_frame _ _ _ _ _ _ _ _ _ Hdl) as [Hjobs Hnow].
  pose proof (run_download_video_on_disk _ _ _ _ _ _ _ _ _ Hdl) as Hdisk.
  assert (jobs w2 !! job_id
          = Some (assign (update job [status_ downloading; error_ None])
                    (updated_at_ (now w)))) as Hj2.
  { rewrite Hjobs. unfold started. simpl. apply lookup_insert_eq. }
  rewrite run_bind. unfold perform at 1.
  destruct relay as [d|]; simpl in Hrelay.
  - destruct Hrelay as [client ->]. cbn [app run external exec]. cbv beta iota zeta.
    rewrite run_bind, run_bind. unfold perform at 1. cbn [run external exec].
    cbv beta iota zeta.
    rewrite run_bind, (run_update_job_present _ _ _ _ _ Hj2). cbv beta iota zeta.
    cbn [run]. eexists _, _. split; [reflexivity|].
    split; [simpl; apply lookup_insert_eq|].
    destruct job; simpl; repeat split; done.
  - subst answers. cbn [app run external exec]. cbv beta iota zeta.
    rewrite run_bind. cbn [run]. cbv beta iota zeta.
    rewrite run_bind, (run_update_job_present _ _ _ _ _ Hj2). cbv beta iota zeta.
    cbn [run]. eexists _, _. split; [reflexivity|].
    split; [simpl; apply lookup_insert_eq|].
    destruct job; simpl; repeat split; done.
Qed.

(** X14.  [process_job] on a job whose extraction succeeds, with no relay
    configured or with a relay upload that succeeds: it returns normally,
    the job is [completed] with the resolved file (which is on disk) as
    [output_file], the relative URL [/download/{job_id}/file] as
    [download_url] and no error; with a relay the three remote fields are
    the ones the upload returned, without one they stay as they were. *)
Theorem process_job_success job_id job w env output_file w2 relay answers env3 :
  jobs w !! job_id = Some job ->
  run (download_video (j_url job) (j_output_path job) (j_format job)
         (j_ffmpeg_location job)) (started w job_id job) env
    = Some (inr output_file, w2, (answers ++ env3)%list) ->
  relay_succeeds relay answers ->
  exists w3 job3,
    run (process_job job_id) w env = Some (inr tt, w3, env3)
    /\ jobs w3 !! job_id = Some job3
    /\ j_status job3 = completed
    /\ j_output_file job3 = Some output_file
    /\ is_Some (fs w3 !! output_file)
    /\ j_download_url job3 = Some ("/download/" +:+ job_id +:+ "/file")
    /\ j_error job3 = None
    /\ match relay with
       | Some d =>
           j_remote_file_id job3 = Some (file_id d)
           /\ j_remote_file_url job3 = Some (download_url d)
           /\ j_remote_file_view_url job3 = Some (view_url d)
       | None =>
           j_remote_file_id job3 = j_remote_file_id job
           /\ j_remote_file_url job3 = j_remote_file_url job
           /\ j_remote_file_view_url job3 = j_remote_file_view_url job
       end.
Proof. apply run_process_job_success. Qed.

Lemma marked_shape s job t :
  j_status (marked s job t) = s
  /\ j_output_file (marked s job t) = j_output_file job
  /\ j_remote_file_id (marked s job t) = j_remote_file_id job
  /\ j_error (marked s job t) = j_error job.
Proof. by destruct job. Qed.

Lemma run_mark_delivering_present job_id job w env :
  jobs w !! job_id = Some job ->
  run (mark_delivering job_id) w env
  = Some (inr tt, with_jobs w (<[job_id := marked delivering job (now w)]> (jobs w)), env).
Proof. intros Hj. by rewrite run_mark_delivering, Hj. Qed.

Lemma run_mark_downloaded_present job_id job w env :
  jobs w !! job_id = Some job ->
  run (mark_downloaded job_id) w env
  = Some (inr tt, with_jobs w (<[job_id := marked downloaded job (now w)]> (jobs w)), env).
Proof. intros Hj. by rewrite run_mark_downloaded, Hj. Qed.

(** [download_file] once the checks have passed, for a file on disk. *)
Lemma run_download_file_passed job_id job file_path as_base64 auto_delete w env :
  jobs w !! job_id = Some job -> allowed auto_delete (j_status job) ->
  j_output_file job = Some file_path -> is_Some (fs w !! file_path) ->
  let w1 := with_jobs w (<[job_id := marked delivering job (now w)]> (jobs w)) in
  run (download_file job_id as_base64 auto_delete) w env
  = run (if as_base64 then
           file_size ← raising (StatSize file_path);
           data ← raising (ReadBytes file_path);
           _ ← (if auto_delete
                then _cleanup_after_delivery job_id file_path
                else mark_downloaded job_id);
           Ret (json_file (name file_path) file_size
                  (default "application/octet-stream" (guess_type (path_str file_path)))
                  (b64encode data))
         else
           Ret (FileResponse file_path (name file_path)
                  (default "application/octet-stream" (guess_type (path_str file_path)))
                  (if auto_delete
                   then bg_cleanup_after_delivery job_id file_path
                   else bg_mark_downloaded job_id))) w1 env.
Proof.
  intros Hj Ha Ho Hfile w1. rewrite download_file_unfold, Hj.
  destruct (allowed_not_locked _ _ Ha) as [H1 H2].
  rewrite (bool_decide_eq_false_2 _ H1), (bool_decide_eq_false_2 _ H2).
  rewrite allowed_elem in Ha. rewrite (bool_decide_eq_true_2 _ Ha), Ho. cbn [negb].
  rewrite (bool_decide_eq_true_2 _ Hfile).
  by rewrite run_bind, (run_mark_delivering_present _ _ _ _ Hj).
Qed.

Lemma run_download_file_delivered job_id job as_base64 auto_delete w env :
  jobs w !! job_id = Some job -> j_status job = delivered ->
  run (download_file job_id as_base64 auto_delete) w env
  = Some (inl (HTTPException 410 "ไฟล์นี้ถูกดาวน์โหลดและลบไปแล้ว"), w, env).
Proof. intros Hj Hs. by rewrite download_file_unfold, Hj, Hs. Qed.

(** X15.  An inline fetch ([as_base64=true]) of a [completed] job with
    auto-delete: the answer carries the file's name, its size and its
    contents in base64; afterwards the file is gone from disk, the job is
    [delivered] with every artifact field null, and every further fetch of
    the job, whatever its parameters, is answered with 410. *)
Theorem inline_delivery_consumes_the_job job_id job file_path data answers w env :
  jobs w !! job_id = Some job -> j_status job = completed ->
  j_output_file job = Some file_path -> fs w !! file_path = Some (File data) ->
  relay_answers job answers ->
  exists w' job',
    run (download_file job_id true true) w (answers ++ env)
      = Some (inr (json_file (name file_path) (String.length data)
                     (default "application/octet-stream"
                        (guess_type (path_str file_path)))
                     (b64encode data)), w', env)
    /\ jobs w' = <[job_id := job']> (jobs w)
    /\ j_status job' = delivered /\ artifacts_null job'
    /\ fs w' = delete file_path (fs w)
    /\ forall as_base64 auto_delete env2,
         run (download_file job_id as_base64 auto_delete) w' env2
         = Some (inl (HTTPException 410 "ไฟล์นี้ถูกดาวน์โหลดและลบไปแล้ว"), w', env2).
Proof.
  intros Hj Hs Ho Hfile Hans.
  set (w1 := with_jobs w (<[job_id := marked delivering job (now w)]> (jobs w))).
  assert (jobs w1 !! job_id = Some (marked delivering job (now w))) as Hj1
    by apply lookup_insert_eq.
  assert (relay_answers (marked delivering job (now w)) answers) as Hans1.
  { unfold relay_answers in *.
    by destruct (marked_shape delivering job (now w)) as (_ & _ & -> & _). }
  destruct (consumed_shape (marked delivering job (now w)) (now w)) as (Hs' & Hnull & _).
  assert (allowed true (j_status job)) as Ha by by left.
  assert (is_Some (fs w !! file_path)) as Hdisk by by rewrite Hfile.
  eexists _, _. split; [|split; [|split; [|split; [|split]]]].
  - rewrite (run_download_file_passed _ job file_path _ _ _ _ Hj Ha Ho Hdisk).
    cbv beta iota zeta. rewrite run_bind. unfold raising at 1.
    cbn [run external exec fs with_jobs]. rewrite Hfile. cbn [run].
    rewrite run_bind. unfold raising at 1.
    cbn [run external exec fs with_jobs]. rewrite Hfile. cbn [run]. fold w1.
    rewrite run_bind, (run_cleanup_after_delivery _ _ _ _ _ _ Hj1 Hans1).
    reflexivity.
  - simpl. apply insert_insert_eq.
  - exact Hs'.
  - exact Hnull.
  - simpl. unfold unlinked. change (fs w1) with (fs w). by rewrite Hfile.
  - intros as_base64 auto_delete env2.
    apply (run_download_file_delivered _ (consumed (marked delivering job (now w)) (now w)));
      [|done].
    simpl. apply lookup_insert_eq.
Qed.


(** X17.  A streamed fetch ([as_base64=false]) through the framework: the
    client is sent the bytes of the file under the file's name, and the
    task attached to the response has run when the request is through:
    with auto-delete the file is gone and the job is [delivered] with its
    artifact fields null, without it the file stays and the job is
    [downloaded]. *)
Theorem streamed_delivery_runs_its_task job_id job file_path data auto_delete answers w env :
  jobs w !! job_id = Some job -> allowed auto_delete (j_status job) ->
  j_output_file job = Some file_path -> fs w !! file_path = Some (File data) ->
  (if auto_delete then relay_answers job answers else answers = []) ->
  exists w' job',
    run (serve (GET_download_file job_id false auto_delete)) w (answers ++ env)
      = Some (inr (body_stream (name file_path)
                     (default "application/octet-stream"
                        (guess_type (path_str file_path))) data), w', env)
    /\ jobs w' = <[job_id := job']> (jobs w)
    /\ if auto_delete
       then j_status job' = delivered /\ artifacts_null job'
            /\ fs w' = delete file_path (fs w)
       else j_status job' = downloaded /\ j_output_file job' = Some file_path
            /\ fs w' = fs w.
Proof.
  intros Hj Ha Ho Hfile Hans.
  set (w1 := with_jobs w (<[job_id := marked delivering job (now w)]> (jobs w))).
  assert (jobs w1 !! job_id = Some (marked delivering job (now w))) as Hj1
    by apply lookup_insert_eq.
  assert (is_Some (fs w !! file_path)) as Hdisk by by rewrite Hfile.
  unfold serve. rewrite run_try_except, run_bind. cbn [endpoint].
  rewrite (run_download_file_passed _ job file_path _ _ _ _ Hj Ha Ho Hdisk).
  cbv beta iota zeta. cbn [run].
  rewrite run_bind. unfold raising at 1. cbn [run external exec fs with_jobs].
  rewrite Hfile. cbn [run]. rewrite run_bind, run_try_except. fold w1.
  destruct auto_delete; cbn [run_background].
  - assert (relay_answers (marked delivering job (now w)) answers) as Hans1.
    { unfold relay_answers in *.
      by destruct (marked_shape delivering job (now w)) as (_ & _ & -> & _). }
    rewrite (run_cleanup_after_delivery _ _ _ _ _ _ Hj1 Hans1). cbn [run].
    destruct (consumed_shape (marked delivering job (now w)) (now w)) as (? & ? & _).
    eexists _, _. split; [reflexivity|]. split; [simpl; apply insert_insert_eq|].
    do 2 (split; [done|]). simpl. unfold unlinked. change (fs w1) with (fs w).
    by rewrite Hfile.
  - subst answers. cbn [app]. unfold _mark_downloaded.
    rewrite (run_mark_downloaded_present _ _ _ _ Hj1). cbn [run].
    eexists _, _. split; [reflexivity|]. split; [simpl; apply insert_insert_eq|].
    rewrite <- Ho. by destruct job.
Qed.

(** X18.  When the recorded output path is on disk but is not a regular
    file (a directory), a fetch passes every check and marks the job
    [delivering]; reading the file then fails, the client gets a 500, and
    nothing takes the mark back: the job stays [delivering], and every
    further fetch is answered with 409 "being delivered to another
    request". *)
Theorem unreadable_artifact_leaves_job_delivering job_id job file_path as_base64 auto_delete
    w env :
  jobs w !! job_id = Some job -> allowed auto_delete (j_status job) ->
  j_output_file job = Some file_path -> fs w !! file_path = Some Dir ->
  exists w' job',
    run (serve (GET_download_file job_id as_base64 auto_delete)) w env
      = Some (inr internal_server_error, w', env)
    /\ jobs w' = <[job_id := job']> (jobs w)
    /\ j_status job' = delivering
    /\ fs w' = fs w
    /\ forall as_base64' auto_delete' env2,
         run (serve (GET_download_file job_id as_base64' auto_delete')) w' env2
         = Some (inr (error_response 409 "ไฟล์กำลังถูกส่งให้คำขออื่น"), w', env2).
Proof.
  intros Hj Ha Ho Hfile.
  set (w1 := with_jobs w (<[job_id := marked delivering job (now w)]> (jobs w))).
  assert (jobs w1 !! job_id = Some (marked delivering job (now w))) as Hj1
    by apply lookup_insert_eq.
  assert (is_Some (fs w !! file_path)) as Hdisk by by rewrite Hfile.
  destruct (marked_shape delivering job (now w)) as (Hs1 & _).
  exists w1, (marked delivering job (now w)). split; [|split; [done|split; [done|split; [done|]]]].
  - unfold serve. rewrite run_try_except, run_bind. cbn [endpoint].
    rewrite (run_download_file_passed _ job file_path _ _ _ _ Hj Ha Ho Hdisk).
    cbv beta iota zeta. destruct as_base64.
    + rewrite run_bind. unfold raising at 1. cbn [run external exec fs with_jobs].
      rewrite Hfile. cbn [run].
      rewrite run_bind. unfold raising at 1. cbn [run external exec fs with_jobs].
      rewrite Hfile. reflexivity.
    + cbn [run]. rewrite run_bind. unfold raising at 1.
      cbn [run external exec fs with_jobs]. rewrite Hfile. reflexivity.
  - intros as_base64' auto_delete' env2.
    unfold serve. rewrite run_try_except, run_bind. cbn [endpoint].
    by rewrite download_file_unfold, Hj1, Hs1.
Qed.


(** X24.  [POST /download] with a preset format whose ffmpeg location
    cannot be expanded (an unknown [~user]: [expanduser] raises, and not
    [FileNotFoundError]) is not answered with 400: the exception escapes the
    handler, the client gets a 500 and nothing is changed.  When it is the
    output path that cannot be expanded, the exception escapes
    [create_job] after the identifier has been drawn: the client gets a
    500 and no job is stored. *)
Theorem unexpandable_path_is_an_internal_error payload exc w env :
  dr_format payload ∈ valid_formats ->
  match exc with HTTPException _ _ | FileNotFoundError _ => False | _ => True end ->
  (forall custom,
     truthy (dr_ffmpeg_location payload) = Some custom ->
     expanduser (Path custom) = inl exc ->
     run (enqueue_download payload) w env = Some (inl exc, w, env)
     /\ run (serve (POST_download payload)) w env
        = Some (inr internal_server_error, w, env))
  /\ (forall hex env',
        ffmpeg_acceptable w (dr_ffmpeg_location payload) ->
        expanduser (Path (default "." (truthy (dr_output_path payload)))) = inl exc ->
        env = uuid4_returns hex :: env' -> hex ∉ issued w ->
        run (enqueue_download payload) w env = Some (inl exc, issue hex w, env')
        /\ run (serve (POST_download payload)) w env
           = Some (inr internal_server_error, issue hex w, env')
        /\ jobs (issue hex w) = jobs w).
Proof.
  intros Hin Hexc.
  assert (forall w' env',
            run (enqueue_download payload) w env = Some (inl exc, w', env') ->
            run (serve (POST_download payload)) w env
            = Some (inr internal_server_error, w', env')) as Hserve.
  { intros w' env' Hrun. unfold serve. rewrite run_try_except, run_bind.
    cbn [endpoint]. rewrite Hrun. by destruct exc. }
  split.
  - intros custom Ht Hexp.
    assert (run (enqueue_download payload) w env = Some (inl exc, w, env)) as Hrun.
    { unfold enqueue_download. rewrite (bool_decide_eq_true_2 _ Hin). cbn [negb].
      rewrite run_bind, Ht, run_try_except, run_resolve_ffmpeg_location, Ht, Hexp.
      by destruct exc. }
    split; [done|by apply Hserve].
  - intros hex env' Hok Hexp -> Hfresh.
    assert (run (enqueue_download payload) w (uuid4_returns hex :: env')
            = Some (inl exc, issue hex w, env')) as Hrun.
    { unfold enqueue_download. rewrite (bool_decide_eq_true_2 _ Hin). cbn [negb].
      rewrite run_bind. unfold ffmpeg_acceptable in Hok.
      assert (forall ffmpeg,
                run (job ← create_job (dr_url payload) (dr_output_path payload)
                             (dr_format payload) ffmpeg;
                     Ret (json_enqueued (j_id job) (j_status job) (j_format job)
                            (j_ffmpeg_location job) (j_download_url job)
                            (bg_process_job (j_id job)))) w (uuid4_returns hex :: env')
                = Some (inl exc, issue hex w, env')) as Hcreate.
      { intros ffmpeg. rewrite run_bind. unfold create_job.
        rewrite run_bind. unfold perform at 1. cbn [run external exec].
        rewrite (bool_decide_eq_false_2 _ Hfresh). by rewrite run_lift, Hexp. }
      destruct (truthy (dr_ffmpeg_location payload)) as [custom|] eqn:Ht.
      - destruct Hok as (candidate & (expanded' & He & Hr & Hs) & Hfd).
        rewrite run_try_except, run_resolve_ffmpeg_location, Ht, He, Hr, Hs.
        destruct (is_file_node _); [apply Hcreate|].
        destruct (is_dir_node _); [apply Hcreate|by destruct Hfd].
      - cbn [run]. apply Hcreate. }
    split; [done|]. split; [by apply Hserve|done].
Qed.
End Flows.

(** ** The writes to the job table *)

Lemma locked_store_step {X} (body : Z -> gmap string Job -> X * gmap string Job) :
  (forall t js,
     snd (body t js) = js
     \/ (exists job_id job', inserted job_id job' /\ snd (body t js) = <[job_id := job']> js)
     \/ (exists job_id job job',
           js !! job_id = Some job /\ store_write job_id t job job'
           /\ snd (body t js) = <[job_id := job']> js)) ->
  forall e w x w', exec (Locked body) e w = Some (x, w') -> store_step w w'.
Proof.
  intros Hbody e w x w' He. simpl in He. specialize (Hbody (now w) (jobs w)).
  destruct (body (now w) (jobs w)) as [x' js]. injection He as _ <-. exact Hbody.
Qed.

Lemma same_store_step w w' : same_store w w' -> store_step w w'.
Proof. intros (? & _). by left. Qed.

Lemma framed_step {R} (p : prog R) : within same_store p -> within store_step p.
Proof. apply within_weaken, same_store_step. Qed.

Lemma quiet_step {X} (a : action X) : quiet a = true -> within store_step (perform a).
Proof. intros. by apply framed_step, within_quiet. Qed.

Lemma uuid4_step : within store_step (perform Uuid4).
Proof.
  constructor; [|constructor]. intros e w x w' He. simpl in He.
  destruct e as [[]|]; try done. case_bool_decide; [done|].
  injection He as _ <-. by left.
Qed.

Lemma get_job_step job_id : within store_step (get_job job_id).
Proof. constructor; [|constructor]. apply locked_store_step. intros; by left. Qed.

Lemma list_jobs_step : within store_step list_jobs.
Proof. constructor; [|constructor]. apply locked_store_step. intros; by left. Qed.

Lemma update_job_step job_id updates :
  sanctioned job_id updates -> within store_step (_update_job job_id updates).
Proof.
  intros Hok. constructor; [|intros [exc|job]; constructor].
  apply locked_store_step. intros t js.
  destruct (js !! job_id) as [job|] eqn:Hj; [|by left].
  right. right. eexists _, _, _. split; [done|]. split; [|reflexivity]. by constructor.
Qed.

Lemma mark_delivering_step job_id : within store_step (mark_delivering job_id).
Proof.
  constructor; [|constructor]. apply locked_store_step. intros t js.
  destruct (js !! job_id) as [job|] eqn:Hj; [|by left].
  right. right. eexists _, _, _. split; [done|]. split; [|reflexivity]. apply by_mark_delivering.
Qed.

Lemma mark_downloaded_step job_id : within store_step (mark_downloaded job_id).
Proof.
  constructor; [|constructor]. apply locked_store_step. intros t js.
  destruct (js !! job_id) as [job|] eqn:Hj; [|by left].
  right. right. eexists _, _, _. split; [done|]. split; [|reflexivity]. apply by_mark_downloaded.
Qed.

Lemma mark_file_consumed_step job_id : within store_step (mark_file_consumed job_id).
Proof.
  constructor; [|constructor]. apply locked_store_step. intros t js.
  destruct (js !! job_id) as [job|] eqn:Hj; [|by left].
  right. right. eexists _, _, _. split; [done|]. split; [|reflexivity]. apply by_mark_file_consumed.
Qed.

Section Footprint.
Context {lib : PyLib}.

Local Abbreviation stepwise := (within store_step).

Lemma create_job_step url output_path format_choice ffmpeg_location :
  stepwise (create_job url output_path format_choice ffmpeg_location).
Proof.
  unfold create_job.
  apply within_bind; [apply uuid4_step|]. intros job_id.
  apply within_bind; [apply within_lift|]. intros expanded.
  apply within_bind; [by apply quiet_step|]. intros created_at.
  apply within_bind; [by apply quiet_step|]. intros updated_at.
  apply within_bind; [|constructor].
  constructor; [|constructor]. apply locked_store_step. intros t js.
  right. left. eexists _, _. split; [|reflexivity]. by repeat split.
Qed.

Lemma delete_remote_file_step job_id : stepwise (delete_remote_file job_id).
Proof.
  unfold delete_remote_file. apply within_bind; [apply get_job_step|].
  intros [job|]; [|constructor]. destruct (truthy _); [|constructor].
  apply within_bind; [by apply quiet_step|].
  intros [exc|[client|]]; [constructor| |constructor].
  apply within_bind; [by apply quiet_step|]. intros _.
  apply within_bind; [|constructor]. apply update_job_step. constructor.
Qed.

Lemma cleanup_after_delivery_step job_id output_path :
  stepwise (_cleanup_after_delivery job_id output_path).
Proof.
  unfold _cleanup_after_delivery.
  apply within_bind; [by apply quiet_step|]. intros _.
  apply within_bind; [apply delete_remote_file_step|]. intros _.
  apply mark_file_consumed_step.
Qed.

Lemma process_job_step job_id : stepwise (process_job job_id).
Proof.
  unfold process_job. apply within_bind; [apply get_job_step|].
  intros [job|]; [|constructor].
  apply within_bind; [apply update_job_step; constructor|]. intros _.
  apply within_try_except.
  - apply within_bind; [apply framed_step, download_video_frame|]. intros output_file.
    cbv zeta. apply within_bind; [by apply quiet_step|]. intros r.
    assert (forall remote_details remote_error,
              stepwise (_ ← _update_job job_id
                              (completed_updates job_id output_file remote_details
                                 remote_error);
                        Ret tt)) as Hfinal.
    { intros. apply within_bind; [|constructor]. apply update_job_step. constructor. }
    destruct r as [exc|[client|]]; cbv beta iota.
    + apply within_bind; [constructor|]. intros [remote_details remote_error].
      apply Hfinal.
    + apply within_bind.
      * apply within_bind; [by apply quiet_step|]. intros [exc|details]; constructor.
      * intros [remote_details remote_error]. apply Hfinal.
    + apply within_bind; [constructor|]. intros [remote_details remote_error].
      apply Hfinal.
  - intros exc. apply within_bind; [|constructor].
    apply update_job_step. constructor.
Qed.

Lemma enqueue_download_step payload : stepwise (enqueue_download payload).
Proof.
  unfold enqueue_download. destruct (negb _); [constructor|].
  apply within_bind.
  - destruct (truthy _); [|constructor].
    apply within_try_except; [apply framed_step, resolve_ffmpeg_location_frame|].
    intros []; constructor.
  - intros resolved_ffmpeg. apply within_bind; [apply create_job_step|]. constructor.
Qed.

Lemma download_file_step job_id as_base64 auto_delete :
  stepwise (download_file job_id as_base64 auto_delete).
Proof.
  unfold download_file. apply within_bind; [apply get_job_step|].
  intros [job|]; [|constructor]. cbv zeta.
  repeat (destruct (bool_decide _); [constructor|]).
  destruct (negb _); [constructor|].
  destruct (j_output_file job) as [file_path|]; [|constructor].
  apply within_bind; [by apply quiet_step|]. intros []; [|constructor]. cbn [negb].
  apply within_bind; [apply mark_delivering_step|]. intros _.
  destruct as_base64; [|constructor].
  apply within_bind; [by apply framed_step, within_raising_quiet|]. intros file_size.
  apply within_bind; [by apply framed_step, within_raising_quiet|]. intros data.
  apply within_bind; [|constructor].
  destruct auto_delete; [apply cleanup_after_delivery_step|apply mark_downloaded_step].
Qed.

Lemma manual_cleanup_step job_id : stepwise (manual_cleanup job_id).
Proof.
  unfold manual_cleanup. apply within_bind; [apply get_job_step|].
  intros [job|]; [|constructor]. cbv zeta.
  assert (stepwise (_ ← delete_remote_file job_id;
                    _ ← (if bool_decide (j_status job ∈ [completed; delivering; downloaded])
                         then mark_file_consumed job_id
                         else Ret tt);
                    Ret (json_message "ไฟล์ไม่พบหรือถูกลบไปแล้ว" None))) as Hrest.
  { apply within_bind; [apply delete_remote_file_step|]. intros _.
    apply within_bind; [|constructor].
    destruct (bool_decide _); [apply mark_file_consumed_step|constructor]. }
  destruct (j_output_file job) as [file_path|]; [|exact Hrest].
  apply within_bind; [by apply quiet_step|]. intros []; [|exact Hrest].
  apply within_bind; [apply cleanup_after_delivery_step|]. constructor.
Qed.

Lemma endpoint_step r : stepwise (endpoint r).
Proof.
  destruct r; simpl.
  - constructor.
  - apply enqueue_download_step.
  - unfold get_status. apply within_bind; [apply get_job_step|]. intros []; constructor.
  - unfold list_jobs_handler. apply within_bind; [apply list_jobs_step|]. constructor.
  - apply download_file_step.
  - apply manual_cleanup_step.
Qed.

Lemma run_background_step bg : stepwise (run_background bg).
Proof.
  destruct bg; simpl.
  - apply process_job_step.
  - apply cleanup_after_delivery_step.
  - apply mark_downloaded_step.
Qed.

Lemma serve_step r : stepwise (serve r).
Proof.
  unfold serve. apply within_try_except.
  - apply within_bind; [apply endpoint_step|]. intros resp.
    destruct resp as [| ? ? ? ? ? bg | | | | p filename media_type bg |];
      [constructor| |constructor|constructor|constructor| |constructor].
    + apply within_bind; [|constructor].
      apply within_try_except; [apply run_background_step|constructor].
    + apply within_bind; [by apply framed_step, within_raising_quiet|]. intros data.
      apply within_bind; [|constructor].
      apply within_try_except; [apply run_background_step|constructor].
  - intros []; constructor.
Qed.

(** Every task of the server keeps to [store_step], and so does every event. *)
Lemma sys_step_footprint l s s' :
  Forall stepwise (tasks s) -> sys_step l s = Some s' ->
  Forall stepwise (tasks s') /\ store_step (sys_world s) (sys_world s').
Proof.
  intros Htasks Hstep. destruct l as [r|i e|t|p]; simpl in Hstep.
  - injection Hstep as <-. simpl. split; [|by left].
    apply Forall_task_snoc; [done|apply serve_step].
  - destruct (tasks s !! i) as [[r|exc|X a k]|] eqn:Hi; try done.
    destruct (exec a e (sys_world s)) as [[x w']|] eqn:He; [|done].
    injection Hstep as <-. simpl.
    pose proof (Forall_task_lookup _ _ _ _ Htasks Hi) as Hsafe.
    apply within_inv in Hsafe as [Ha Hk]. split.
    + apply Forall_task_insert; auto.
    + by apply (Ha e (sys_world s) x w').
  - injection Hstep as <-. split; [done|by left].
  - injection Hstep as <-. split; [done|by left].
Qed.

Lemma schedule_stepwise ls s s' :
  Forall stepwise (tasks s) -> schedule ls s = Some s' -> Forall stepwise (tasks s').
Proof.
  revert s. induction ls as [|l ls IH]; intros s Htasks Hrun; simpl in Hrun.
  - by injection Hrun as <-.
  - destruct (sys_step l s) as [s1|] eqn:Hstep; [|done].
    destruct (sys_step_footprint _ _ _ Htasks Hstep). eauto.
Qed.

(** X20.  In every state the server can reach, every event (the arrival of
    a request, one atomic action of a request or of its background task,
    time passing, a file vanishing) leaves the job table as it is, or adds
    a job that is [queued] with no error and no artifact, or replaces one
    stored job through one of the program's writes: an [_update_job] with
    the arguments of [process_job] or [delete_remote_file], or one of the
    three marks.  No event removes a job or touches two jobs. *)
Theorem server_events_write_one_job disk t events s l s' :
  schedule events (boot disk t) = Some s -> sys_step l s = Some s' ->
  store_step (sys_world s) (sys_world s').
Proof.
  intros Hrun Hstep.
  assert (Forall stepwise (tasks s)) as Htasks.
  { apply (schedule_stepwise events (boot disk t)); [constructor|done]. }
  by destruct (sys_step_footprint _ _ _ Htasks Hstep).
Qed.

End Footprint.

(** ** What the status of a job tells *)

Lemma inserted_well_formed job_id job : inserted job_id job -> well_formed job_id job.
Proof.
  intros (Hid & Hs & He & Hnull). split; [done|]. split; [done|].
  split; intros Hs'; rewrite Hs in Hs'; discriminate.
Qed.

Lemma store_write_well_formed job_id t job job' :
  well_formed job_id job -> store_write job_id t job job' -> well_formed job_id job'.
Proof.
  intros (Hid & Hq & Hc & Hf) Hw. unfold well_formed, artifacts_null in *.
  destruct Hw as [updates Hok| | |].
  - destruct Hok as [|output_file remote_details remote_error|text|].
    + destruct job; simpl in *. repeat split; try done.
    + unfold completed_updates.
      destruct remote_details, (truthy remote_error); destruct job; simpl in *;
        repeat split; try done; eauto.
    + destruct job; simpl in *. repeat split; try done. eauto.
    + destruct job; simpl in *. split; [done|]. split; [|split].
      * intros Hs. destruct (Hq Hs) as (? & ? & ? & _). by repeat split.
      * done.
      * done.
  - destruct job; simpl in *. by repeat split.
  - destruct job; simpl in *. by repeat split.
  - destruct job; simpl in *. by repeat split.
Qed.

Section Shape.
Context {lib : PyLib}.

Lemma schedule_invariant (P : gmap string Job -> Prop) ls s s' :
  (forall w w', store_step w w' -> P (jobs w) -> P (jobs w')) ->
  Forall (within store_step) (tasks s) -> P (jobs (sys_world s)) ->
  schedule ls s = Some s' ->
  Forall (within store_step) (tasks s') /\ P (jobs (sys_world s')).
Proof.
  intros HP. revert s. induction ls as [|l ls IH]; intros s Htasks Hinv Hrun; simpl in Hrun.
  - by injection Hrun as <-.
  - destruct (sys_step l s) as [s1|] eqn:Hstep; [|done].
    destruct (sys_step_footprint _ _ _ Htasks Hstep) as [Htasks1 Hw]. eauto.
Qed.

(** X21.  In every state the server can reach, under any interleaving,
    every job is stored under its own identifier; a [queued] job has no
    error and no artifact; a [completed] job has an output file recorded
    and the download URL [/download/{job_id}/file]; a [failed] job has an
    error text recorded. *)
Theorem status_tells_the_fields disk t events s job_id job :
  schedule events (boot disk t) = Some s ->
  jobs (sys_world s) !! job_id = Some job ->
  well_formed job_id job.
Proof.
  intros Hrun.
  destruct (schedule_invariant
              (fun js => forall job_id job, js !! job_id = Some job -> well_formed job_id job)
              events (boot disk t) s) as [_ Hinv]; [| |by intros ? ? ?|done|by apply Hinv].
  - intros w w' Hstep Hinv id job'.
    destruct Hstep as [->|[(id' & job0 & Hnew & ->)|(id' & job0 & job1 & Hj & Hw & ->)]].
    + apply Hinv.
    + rewrite lookup_insert. case_decide as Hid; [|apply Hinv].
      intros [= <-]. subst id'. by apply inserted_well_formed.
    + rewrite lookup_insert. case_decide as Hid; [|apply Hinv].
      intros [= <-]. subst id'. eapply store_write_well_formed; [|done]. by apply Hinv.
  - constructor.
Qed.

(** X22.  The server never removes a job: a job that is in the store stays
    in the store, under the same identifier, whatever happens afterwards. *)
Theorem jobs_are_never_removed disk t events s later s' job_id :
  schedule events (boot disk t) = Some s -> schedule later s = Some s' ->
  is_Some (jobs (sys_world s) !! job_id) -> is_Some (jobs (sys_world s') !! job_id).
Proof.
  intros Hrun Hlater Hj.
  assert (Forall (within store_step) (tasks s)) as Htasks.
  { apply (schedule_stepwise events (boot disk t)); [constructor|done]. }
  destruct (schedule_invariant (fun js => is_Some (js !! job_id)) later s s')
    as [_ Hinv]; try done.
  intros w w' Hstep Hin.
  destruct Hstep as [->|[(id' & job0 & _ & ->)|(id' & job0 & job1 & _ & _ & ->)]];
    [done| |]; rewrite lookup_insert_is_Some'; by right.
Qed.

End Shape.

(** ** The first element of a forwarded header *)

Lemma before_comma_clean s : all_chars not_comma (before_comma s) = true.
Proof.
  induction s as [|c s IH]; [done|]. cbn [before_comma].
  destruct (Ascii.eqb c ",") eqn:Hc; [done|]. cbn [all_chars].
  unfold not_comma at 1. by rewrite Hc.
Qed.

Lemma before_comma_split s :
  before_comma s = s \/ exists rest, s = before_comma s +:+ "," +:+ rest.
Proof.
  induction s as [|c s IH]; [by left|]. simpl.
  destruct (Ascii.eqb_spec c ","); [subst; right; by exists s|].
  destruct IH as [->|[rest Hs]]; [by left|]. right. exists rest.
  rewrite append_cons. by f_equal.
Qed.

Lemma all_chars_skip p q s : all_chars p s = true -> all_chars p (skip q s) = true.
Proof.
  induction s as [|c s IH]; [done|]. simpl. intros [Hc Hs]%andb_prop.
  destruct (q c); [auto|]. simpl. by rewrite Hc, Hs.
Qed.

Lemma all_chars_rstrip p s : all_chars p s = true -> all_chars p (rstrip s) = true.
Proof.
  induction s as [|c s IH]; [done|]. simpl. intros [Hc Hs]%andb_prop.
  specialize (IH Hs). destruct (rstrip s) as [|c' r].
  - destruct (is_space c); [done|]. simpl. by rewrite Hc.
  - change (all_chars p (String c (String c' r)))
      with (p c && all_chars p (String c' r)). by rewrite Hc, IH.
Qed.

Lemma rstrip_split s : exists post, s = rstrip s +:+ post /\ all_chars is_space post = true.
Proof.
  induction s as [|c s (post & Hs & Hp)]; [by exists ""|]. simpl.
  destruct (rstrip s) as [|c' r] eqn:Hr.
  - destruct (is_space c) eqn:Hc.
    + exists (String c post). rewrite append_nil_l in *. split; [by f_equal|].
      simpl. by rewrite Hc, Hp.
    + exists post. rewrite append_cons. split; [by f_equal|done].
  - exists post. rewrite append_cons. split; [by f_equal|done].
Qed.

Lemma rstrip_rstrip s : rstrip (rstrip s) = rstrip s.
Proof.
  induction s as [|c s IH]; [done|]. simpl.
  destruct (rstrip s) as [|c' r] eqn:Hr.
  - destruct (is_space c) eqn:Hc; [done|]. simpl. by rewrite Hc.
  - change (rstrip (String c (String c' r)))
      with (match rstrip (String c' r) with
            | EmptyString => if is_space c then EmptyString else String c EmptyString
            | r' => String c r'
            end).
    rewrite IH. done.
Qed.

Lemma skip_head p s : skip p (skip p s) = skip p s.
Proof.
  induction s as [|c s IH]; [done|]. simpl. destruct (p c) eqn:Hc; [done|].
  simpl. by rewrite Hc.
Qed.

Lemma skip_length p s : (String.length (skip p s) <= String.length s)%nat.
Proof.
  induction s as [|c s IH]; simpl; [lia|]. destruct (p c); simpl; lia.
Qed.

Lemma skip_rstrip s : skip is_space s = s -> skip is_space (rstrip s) = rstrip s.
Proof.
  destruct s as [|c s]; [done|]. simpl. destruct (is_space c) eqn:Hc.
  - intros Hs. exfalso. pose proof (skip_length is_space s) as Hlen.
    rewrite Hs in Hlen. simpl in Hlen. lia.
  - intros _. destruct (rstrip s); simpl; by rewrite Hc.
Qed.

Lemma strip_split s :
  exists pre post,
    s = pre +:+ strip s +:+ post
    /\ all_chars is_space pre = true /\ all_chars is_space post = true.
Proof.
  destruct (skip_split is_space s) as (pre & Hs & Hpre).
  destruct (rstrip_split (skip is_space s)) as (post & Hr & Hpost).
  exists pre, post. unfold strip. by rewrite <- Hr.
Qed.

(** X23.  [_first_forwarded]: a header that is absent or empty gives
    [None]; otherwise the result is the text before the first comma of the
    header value, with the white space around it removed: it holds no
    comma and neither begins nor ends with white space (it may be empty). *)
Theorem first_forwarded_takes_first_element request header_name :
  match truthy (headers_get request header_name) with
  | None => _first_forwarded request header_name = None
  | Some value =>
      exists r pre post,
        _first_forwarded request header_name = Some r
        /\ before_comma value = pre +:+ r +:+ post
        /\ all_chars is_space pre = true /\ all_chars is_space post = true
        /\ all_chars not_comma r = true
        /\ skip is_space r = r /\ rstrip r = r
  end.
Proof.
  unfold _first_forwarded. destruct (truthy _) as [value|]; [|done].
  destruct (strip_split (before_comma value)) as (pre & post & Hs & Hpre & Hpost).
  exists (strip (before_comma value)), pre, post. do 4 (split; [done|]).
  unfold strip. split; [|split].
  - apply all_chars_rstrip, all_chars_skip, before_comma_clean.
  - apply skip_rstrip, skip_head.
  - apply rstrip_rstrip.
Qed.

(** ** The installation at work *)

Example strip_fragment_f140 :
  strip_fragment (digit_char (PyLib := demo_lib)) (word_char (PyLib := demo_lib)) "video.f140.mp4" = "video.mp4".
Proof. reflexivity. Qed.

Example strip_fragment_plain :
  strip_fragment (digit_char (PyLib := demo_lib)) (word_char (PyLib := demo_lib)) "video.mp4" = "video.mp4".
Proof. reflexivity. Qed.

Example strip_fragment_no_digit :
  strip_fragment (digit_char (PyLib := demo_lib)) (word_char (PyLib := demo_lib)) "video.f.mp4" = "video.f.mp4".
Proof. reflexivity. Qed.

(** Beyond ASCII: an Arabic-Indic digit in the token, an accented letter in
    the extension, and a newline at the end of the name. *)
Example strip_fragment_arabic_indic :
  strip_fragment (digit_char (PyLib := demo_lib)) (word_char (PyLib := demo_lib))
    "video.f٣.mp4" = "video.mp4".
Proof. reflexivity. Qed.

Example strip_fragment_accent :
  strip_fragment (digit_char (PyLib := demo_lib)) (word_char (PyLib := demo_lib))
    "video.f1.mpé" = "video.mpé".
Proof. reflexivity. Qed.

Example strip_fragment_newline :
  strip_fragment (digit_char (PyLib := demo_lib)) (word_char (PyLib := demo_lib))
    ("video.f1.mp4" +:+ String (ascii_of_nat 10) "")
  = "video.mp4" +:+ String (ascii_of_nat 10) "".
Proof. reflexivity. Qed.

(** C1.  Two delivery requests for one [completed] job: the second reads
    the job while the first is between its status check and its
    [mark_delivering], so it still sees [completed]; both pass, both mark
    the job, and both clients are sent the bytes of the artifact. *)
Theorem concurrent_deliveries_both_served :
  received_by (schedule (lib := demo_lib) race demo_system)
  = [ Some (body_stream "video.mp4" "application/octet-stream" "DATA");
      Some (body_stream "video.mp4" "application/octet-stream" "DATA") ]
  /\ status_of "j1" (schedule (lib := demo_lib) race demo_system) = Some delivered.
Proof. split; vm_compute; reflexivity. Qed.

(** C3.  A job that has reached [delivered] changes status again: a fetch
    with auto_delete off is still streaming when a manual clean-up disposes
    of the job, and the deferred [_mark_downloaded] of the fetch then moves
    the job from [delivered] to [downloaded]. *)
Theorem delivered_job_moves_to_downloaded :
  status_of "j1" (schedule (lib := demo_lib) fetch_then_cleanup demo_system)
  = Some delivered
  /\ status_of "j1"
       (schedule (lib := demo_lib) (fetch_then_cleanup ++ deferred_mark) demo_system)
     = Some downloaded.
Proof. split; vm_compute; reflexivity. Qed.

Lemma download_file_gate_witness :
  run (download_file (lib := demo_lib) "missing" false true) demo_world []
  = Some (inl (HTTPException 404 "ไม่พบงานดาวน์โหลดนี้"), demo_world, [])
  /\ run (download_file (lib := demo_lib) "j1" false true) queued_world []
     = Some (inl (HTTPException 409 "งานยังไม่เสร็จสมบูรณ์ (status: queued)"),
             queued_world, []).
Proof.
  split.
  - apply (proj1 (download_file_gate (lib := demo_lib) "missing" false true demo_world [])).
    reflexivity.
  - apply (proj1 (proj2 (download_file_gate (lib := demo_lib) "j1" false true
                           queued_world [])) queued_job).
    + reflexivity.
    + discriminate.
    + discriminate.
    + intros [H|[_ H]]; discriminate H.
Defined.

Lemma rejected_delivery_changes_nothing_witness :
  queued_world = queued_world /\ @nil ext = []
  /\ (409 = 404 \/ 409 = 409 \/ 409 = 410).
Proof.
  apply (rejected_delivery_changes_nothing (lib := demo_lib) "j1" false true
           queued_world [] 409 "งานยังไม่เสร็จสมบูรณ์ (status: queued)").
  reflexivity.
Defined.




Lemma process_job_extraction_failure_witness :
  (exists w3 job3,
     run (process_job (lib := demo_lib) "j1") queued_world engine_fails
     = Some (inr tt, w3, [])
     /\ jobs w3 !! "j1" = Some job3
     /\ j_status job3 = failed
     /\ j_error job3 = Some "ERROR: Unsupported URL"
     /\ j_output_file job3 = None
     /\ remote_null job3)
  /\ (exists s job,
        schedule (lib := demo_lib) life_of_a_failed_job (boot ∅ 0) = Some s
        /\ jobs (sys_world s) !! "j1" = Some job
        /\ j_status job = failed
        /\ artifacts_null job).
Proof.
  split.
  - eapply (proj1 (process_job_extraction_failure (lib := demo_lib)) "j1" queued_job
              queued_world engine_fails (LibraryError "ERROR: Unsupported URL")).
    + reflexivity.
    + reflexivity.
  - eexists _, _.
    split; [vm_compute; reflexivity|]. split; [vm_compute; reflexivity|].
    split; [reflexivity|].
    eapply (proj2 (process_job_extraction_failure (lib := demo_lib)) ∅ 0
              life_of_a_failed_job _ "j1").
    + vm_compute; reflexivity.
    + vm_compute; reflexivity.
    + reflexivity.
Defined.

(** C6.  The extraction succeeds and the relay fails with an exception
    that carries no text, be it while the client is built or during the
    upload: the job is [completed] with [output_file] and [download_url]
    set and its [error] is null, so nothing of the failure is recorded.
    The guard [if remote_error:] takes the empty text for no failure at
    all; a failure with a text is recorded, and the handler of a failed
    extraction in the same function records even an empty text. *)
Theorem relay_failure_without_text_is_lost :
  let after (env : list ext) :=
    job_after "j1" (run (process_job (lib := demo_lib) "j1") queued_world env) in
  let unbuilt := after (relay_fails "") in
  let upload_fails text :=
    after [extraction_succeeds; drive_client_returns (inr (Some relay));
           upload_returns (inl (LibraryError text))] in
  (j_status <$> unbuilt = Some completed
   /\ j_output_file <$> unbuilt = Some (Some video)
   /\ j_download_url <$> unbuilt = Some (Some "/download/j1/file")
   /\ j_error <$> unbuilt = Some None)
  /\ (j_status <$> upload_fails "" = Some completed
      /\ j_error <$> upload_fails "" = Some None)
  /\ j_error <$> after (relay_fails "invalid_grant")
     = Some (Some "Google Drive upload failed: invalid_grant")
  /\ j_error <$> upload_fails "quota"
     = Some (Some "Google Drive upload failed: quota")
  /\ j_error <$> after [extract_info_returns [] [] (inl (LibraryError ""))]
     = Some (Some "").
Proof. cbv zeta. repeat split; vm_compute; reflexivity. Qed.

Lemma process_job_relay_failure_witness :
  exists w3 job3,
    run (process_job (lib := demo_lib) "j1") queued_world (relay_fails "invalid_grant")
    = Some (inr tt, w3, [])
    /\ jobs w3 !! "j1" = Some job3
    /\ j_status job3 = completed
    /\ j_output_file job3 = Some video
    /\ j_download_url job3 = Some "/download/j1/file"
    /\ ("invalid_grant" <> "" ->
        j_error job3 = Some "Google Drive upload failed: invalid_grant")
    /\ ("invalid_grant" = "" -> j_error job3 = None).
Proof.
  eapply (process_job_relay_failure (lib := demo_lib) "j1" queued_job queued_world
            (relay_fails "invalid_grant") video _
            [drive_client_returns (inl (LibraryError "invalid_grant"))]
            (LibraryError "invalid_grant") []).
  - reflexivity.
  - reflexivity.
  - left. reflexivity.
Defined.

Lemma delivered_job_has_no_artifact_witness :
  exists s s',
    schedule (lib := demo_lib) life_of_a_job (boot ∅ 0) = Some s
    /\ status_of "j1" (Some s) = Some delivered
    /\ schedule (lib := demo_lib) cleanup_again s = Some s'
    /\ delivered_bare (sys_world s)
    /\ delivered_bare (sys_world s')
    /\ exists job',
         jobs (sys_world s') !! "j1" = Some job'
         /\ j_status job' ∈ [delivering; downloaded; delivered]
         /\ artifacts_null job'.
Proof.
  eexists _, _. split; [vm_compute; reflexivity|]. split; [vm_compute; reflexivity|].
  split; [vm_compute; reflexivity|].
  edestruct (delivered_job_has_no_artifact (lib := demo_lib) ∅ 0 life_of_a_job)
    as (Hnow & Hlater & Hstays); [vm_compute; reflexivity|].
  split; [exact Hnow|]. split.
  - apply (Hlater cleanup_again). vm_compute; reflexivity.
  - eapply (Hstays "j1" _ cleanup_again).
    + vm_compute; reflexivity.
    + reflexivity.
    + vm_compute; reflexivity.
Defined.

(** The further properties at work on the small installation. *)

Example first_forwarded_proto : _first_forwarded proxied "x-forwarded-proto" = Some "https".
Proof. reflexivity. Qed.


Lemma resolve_final_file_returns_file_on_disk_witness :
  run (_resolve_final_file (lib := demo_lib) video) demo_world []
  = Some (inr video, demo_world, []).
Proof.
  apply (proj1 (resolve_final_file_returns_file_on_disk (lib := demo_lib) video demo_world [])).
  exists (File "DATA"). reflexivity.
Defined.

Lemma download_video_returns_file_on_disk_witness :
  exists w',
    run (download_video (lib := demo_lib) "https://example.org/v" "out" "auto" None)
      queued_world [extraction_succeeds] = Some (inr video, w', [])
    /\ is_Some (fs w' !! video) /\ jobs w' = jobs queued_world.
Proof.
  eexists. split; [vm_compute; reflexivity|].
  eapply (download_video_returns_file_on_disk (lib := demo_lib) "https://example.org/v"
            "out" "auto" None queued_world [extraction_succeeds] video _ []).
  vm_compute; reflexivity.
Defined.

Lemma download_video_nothing_reported_witness :
  exists w',
    run (download_video (lib := demo_lib) "https://example.org/v" "out" "auto" None)
      empty_world [extract_info_returns [] [None] (inr None)]
    = Some (inl (RuntimeError "ไม่พบไฟล์ที่ดาวน์โหลดสำเร็จ"), w', [])
    /\ jobs w' = jobs empty_world.
Proof.
  apply (download_video_nothing_reported (lib := demo_lib) "https://example.org/v" "out"
           "auto" None ["out"] ["out"] [] [None] None empty_world []).
  - reflexivity.
  - reflexivity.
  - reflexivity.
  - reflexivity.
  - discriminate.
  - reflexivity.
  - exact I.
Defined.

Lemma create_job_then_get_job_witness :
  exists job w',
    run (create_job (lib := demo_lib) "https://example.org/v" (Some "out") "auto" None)
      empty_world [uuid4_returns "j1"] = Some (inr job, w', [])
    /\ run (get_job "j1") w' [] = Some (inr (Some job), w', [])
    /\ j_id job = "j1" /\ j_url job = "https://example.org/v" /\ j_format job = "auto"
    /\ j_output_path job = "out"
    /\ j_ffmpeg_location job = None
    /\ j_status job = queued /\ j_error job = None /\ artifacts_null job
    /\ (forall other, other <> "j1" -> jobs w' !! other = jobs empty_world !! other)
    /\ fs w' = fs empty_world.
Proof.
  apply (proj1 (create_job_then_get_job (lib := demo_lib) "https://example.org/v"
                  (Some "out") "auto" None "j1" empty_world [] (not_elem_of_empty "j1"))
           ["out"]).
  reflexivity.
Defined.

Lemma update_job_then_get_job_witness :
  exists job' w',
    run (_update_job "j1" [error_ (Some "noted")]) demo_world [] = Some (inr job', w', [])
    /\ run (get_job "j1") w' [] = Some (inr (Some job'), w', [])
    /\ j_updated_at job' = now demo_world
    /\ (forall other, other <> "j1" -> jobs w' !! other = jobs demo_world !! other)
    /\ fs w' = fs demo_world /\ now w' = now demo_world.
Proof.
  apply (update_job_then_get_job "j1" [error_ (Some "noted")] demo_job demo_world []).
  reflexivity.
Defined.

Lemma list_jobs_lists_the_store_witness :
  exists l,
    run list_jobs demo_world [] = Some (inr l, demo_world, [])
    /\ List.length l = size (jobs demo_world)
    /\ forall job, job ∈ l <-> exists job_id, jobs demo_world !! job_id = Some job.
Proof. apply (list_jobs_lists_the_store demo_world []). Defined.

Lemma delete_remote_file_outcomes_witness :
  exists w',
    run (delete_remote_file "j1") relayed_world [drive_client_returns (inr (Some relay))]
      = Some (inr tt, w', [])
    /\ ((forall client, @inr exn _ (Some relay) <> inr (Some client)) -> w' = relayed_world)
    /\ ((exists client, @inr exn _ (Some relay) = inr (Some client)) ->
        exists job',
          w' = with_jobs relayed_world (<["j1" := job']> (jobs relayed_world))
          /\ j_remote_file_id job' = None /\ j_remote_file_url job' = None
          /\ j_remote_file_view_url job' = None
          /\ j_updated_at job' = now relayed_world
          /\ j_status job' = j_status relayed_job
          /\ j_output_file job' = j_output_file relayed_job
          /\ j_download_url job' = j_download_url relayed_job
          /\ j_error job' = j_error relayed_job).
Proof.
  apply (proj2 (delete_remote_file_outcomes "j1" relayed_world []) relayed_job "r1"
           (inr (Some relay))).
  - reflexivity.
  - reflexivity.
Defined.

Lemma cleanup_after_delivery_always_delivers_witness :
  exists w' job',
    run (_cleanup_after_delivery "j1" video) relayed_world
      ([drive_client_returns (inl (LibraryError "invalid_grant"))] ++ [])
      = Some (inr tt, w', [])
    /\ jobs w' = <["j1" := job']> (jobs relayed_world)
    /\ j_status job' = delivered /\ artifacts_null job' /\ j_error job' = j_error relayed_job
    /\ fs w' = (if is_file_node (fs relayed_world !! video)
                then delete video (fs relayed_world) else fs relayed_world).
Proof.
  apply (cleanup_after_delivery_always_delivers "j1" video relayed_job
           [drive_client_returns (inl (LibraryError "invalid_grant"))] relayed_world []).
  - reflexivity.
  - exists (inl (LibraryError "invalid_grant")). reflexivity.
Defined.

Lemma manual_cleanup_without_file_witness :
  exists w',
    run (manual_cleanup "j1") queued_world []
      = Some (inr (json_message "ไฟล์ไม่พบหรือถูกลบไปแล้ว" None), w', [])
    /\ fs w' = fs queued_world
    /\ (j_status queued_job ∈ [completed; delivering; downloaded] ->
        exists job', jobs w' = <["j1" := job']> (jobs queued_world)
                     /\ j_status job' = delivered /\ artifacts_null job')
    /\ (j_status queued_job ∈ [queued; downloading; failed; delivered] -> w' = queued_world).
Proof.
  apply (manual_cleanup_without_file "j1" queued_job queued_world []).
  - reflexivity.
  - reflexivity.
  - intros p H. discriminate H.
Defined.

Lemma manual_cleanup_twice_witness :
  exists w',
    run (manual_cleanup "j1") demo_world ([] ++ [])
      = Some (inr (json_message "ลบไฟล์สำเร็จ" (Some video)), w', [])
    /\ fs w' = delete video (fs demo_world)
    /\ (exists job', jobs w' = <["j1" := job']> (jobs demo_world)
                     /\ j_status job' = delivered /\ artifacts_null job')
    /\ run (manual_cleanup "j1") w' []
       = Some (inr (json_message "ไฟล์ไม่พบหรือถูกลบไปแล้ว" None), w', []).
Proof.
  apply (manual_cleanup_twice "j1" demo_job video "DATA" [] demo_world []).
  - reflexivity.
  - reflexivity.
  - reflexivity.
  - reflexivity.
Defined.

Lemma process_job_success_witness :
  exists w3 job3,
    run (process_job (lib := demo_lib) "j1") queued_world
      [extraction_succeeds; drive_client_returns (inr (Some relay));
       upload_returns (inr uploaded)] = Some (inr tt, w3, [])
    /\ jobs w3 !! "j1" = Some job3
    /\ j_status job3 = completed
    /\ j_output_file job3 = Some video
    /\ is_Some (fs w3 !! video)
    /\ j_download_url job3 = Some "/download/j1/file"
    /\ j_error job3 = None
    /\ j_remote_file_id job3 = Some "r1"
    /\ j_remote_file_url job3 = Some "https://drive.google.com/uc?export=download&id=r1"
    /\ j_remote_file_view_url job3 = Some "https://drive.google.com/file/d/r1/view".
Proof.
  eapply (process_job_success (lib := demo_lib) "j1" queued_job queued_world _ video _
            (Some uploaded)
            [drive_client_returns (inr (Some relay)); upload_returns (inr uploaded)] []).
  - reflexivity.
  - reflexivity.
  - exists relay. reflexivity.
Defined.

Lemma inline_delivery_consumes_the_job_witness :
  exists w' job',
    run (download_file (lib := demo_lib) "j1" true true) demo_world ([] ++ [])
      = Some (inr (json_file "video.mp4" 4 "application/octet-stream" "DATA"), w', [])
    /\ jobs w' = <["j1" := job']> (jobs demo_world)
    /\ j_status job' = delivered /\ artifacts_null job'
    /\ fs w' = delete video (fs demo_world)
    /\ forall as_base64 auto_delete env2,
         run (download_file (lib := demo_lib) "j1" as_base64 auto_delete) w' env2
         = Some (inl (HTTPException 410 "ไฟล์นี้ถูกดาวน์โหลดและลบไปแล้ว"), w', env2).
Proof.
  apply (inline_delivery_consumes_the_job (lib := demo_lib) "j1" demo_job video "DATA" []
           demo_world []).
  - reflexivity.
  - reflexivity.
  - reflexivity.
  - reflexivity.
  - reflexivity.
Defined.


Lemma streamed_delivery_runs_its_task_witness :
  exists w' job',
    run (serve (lib := demo_lib) (GET_download_file "j1" false true)) relayed_world
      ([drive_client_returns (inr (Some relay))] ++ [])
      = Some (inr (body_stream "video.mp4" "application/octet-stream" "DATA"), w', [])
    /\ jobs w' = <["j1" := job']> (jobs relayed_world)
    /\ j_status job' = delivered /\ artifacts_null job'
    /\ fs w' = delete video (fs relayed_world).
Proof.
  apply (streamed_delivery_runs_its_task (lib := demo_lib) "j1" relayed_job video "DATA"
           true [drive_client_returns (inr (Some relay))] relayed_world []).
  - reflexivity.
  - left. reflexivity.
  - reflexivity.
  - reflexivity.
  - exists (inr (Some relay)). reflexivity.
Defined.

Lemma unreadable_artifact_leaves_job_delivering_witness :
  exists w' job',
    run (serve (lib := demo_lib) (GET_download_file "j1" true true)) folder_world []
      = Some (inr internal_server_error, w', [])
    /\ jobs w' = <["j1" := job']> (jobs folder_world)
    /\ j_status job' = delivering
    /\ fs w' = fs folder_world
    /\ forall as_base64' auto_delete' env2,
         run (serve (lib := demo_lib) (GET_download_file "j1" as_base64' auto_delete')) w' env2
         = Some (inr (error_response 409 "ไฟล์กำลังถูกส่งให้คำขออื่น"), w', env2).
Proof.
  apply (unreadable_artifact_leaves_job_delivering (lib := demo_lib) "j1" demo_job video
           true true folder_world []).
  - reflexivity.
  - left. reflexivity.
  - reflexivity.
  - reflexivity.
Defined.


Lemma unexpandable_path_is_an_internal_error_witness :
  run (serve (lib := demo_lib) (POST_download unknown_user_ffmpeg)) empty_world []
  = Some (inr internal_server_error, empty_world, [])
  /\ run (serve (lib := demo_lib) (POST_download unknown_user_output)) empty_world
       [uuid4_returns "j1"]
     = Some (inr internal_server_error, issue "j1" empty_world, [])
  /\ jobs (issue "j1" empty_world) = jobs empty_world.
Proof.
  assert ("auto" ∈ valid_formats) as Hin by (unfold valid_formats; simpl; by left).
  split.
  - apply (proj1 (unexpandable_path_is_an_internal_error (lib := demo_lib)
                    unknown_user_ffmpeg
                    (RuntimeError "Could not determine home directory.")
                    empty_world [] Hin I) "~nosuchuser/ffmpeg").
    + reflexivity.
    + reflexivity.
  - apply (proj2 (unexpandable_path_is_an_internal_error (lib := demo_lib)
                    unknown_user_output
                    (RuntimeError "Could not determine home directory.")
                    empty_world [uuid4_returns "j1"] Hin I) "j1" []).
    + exact I.
    + reflexivity.
    + reflexivity.
    + apply not_elem_of_empty.
Defined.

Lemma server_events_write_one_job_witness :
  exists s s',
    schedule (lib := demo_lib) (removelast life_of_a_job) (boot ∅ 0) = Some s
    /\ sys_step (lib := demo_lib) (step 1 None) s = Some s'
    /\ store_step (sys_world s) (sys_world s').
Proof.
  eexists _, _. split; [vm_compute; reflexivity|]. split; [vm_compute; reflexivity|].
  eapply (server_events_write_one_job (lib := demo_lib) ∅ 0 (removelast life_of_a_job)
            _ (step 1 None) _).
  - vm_compute; reflexivity.
  - vm_compute; reflexivity.
Defined.

Lemma status_tells_the_fields_witness :
  exists s job,
    schedule (lib := demo_lib) until_completed (boot ∅ 0) = Some s
    /\ jobs (sys_world s) !! "j1" = Some job
    /\ j_status job = completed
    /\ well_formed "j1" job.
Proof.
  eexists _, _. split; [vm_compute; reflexivity|]. split; [vm_compute; reflexivity|].
  split; [reflexivity|].
  eapply (status_tells_the_fields (lib := demo_lib) ∅ 0 until_completed _ "j1").
  - vm_compute; reflexivity.
  - vm_compute; reflexivity.
Defined.

Lemma jobs_are_never_removed_witness :
  exists s s',
    schedule (lib := demo_lib) until_completed (boot ∅ 0) = Some s
    /\ schedule (lib := demo_lib) after_completed s = Some s'
    /\ is_Some (jobs (sys_world s') !! "j1").
Proof.
  eexists _, _. split; [vm_compute; reflexivity|]. split; [vm_compute; reflexivity|].
  eapply (jobs_are_never_removed (lib := demo_lib) ∅ 0 until_completed _ after_completed
            _ "j1").
  - vm_compute; reflexivity.
  - vm_compute; reflexivity.
  - eexists. vm_compute; reflexivity.
Defined.

Lemma first_forwarded_takes_first_element_witness :
  exists r pre post,
    _first_forwarded proxied "x-forwarded-proto" = Some r
    /\ before_comma " https , http" = pre +:+ r +:+ post
    /\ all_chars is_space pre = true /\ all_chars is_space post = true
    /\ all_chars not_comma r = true
    /\ skip is_space r = r /\ rstrip r = r.
Proof. apply (first_forwarded_takes_first_element proxied "x-forwarded-proto"). Defined.
